(** * OrangeProxy: the per-connection state machine of [orange-proxy/index.js]

    A shallow embedding of the proxy's connection handling: the drain loop
    ([drainMessageQueue]), teardown ([closeConnection]), the validation of
    authentication events ([validateAuthEvent]) and the client message
    handler with its admission flow, followed by the properties of the
    design document that are checked against them. *)

From Stdlib Require Import ZArith Ascii String DecimalString.
From stdpp Require Import base decidable option list gmap strings.

Local Open Scope Z_scope.
Local Set Warnings "-register-all".

(** ** JavaScript values *)

(** The result of [JSON.parse].  Numbers are the integers that occur in
    Nostr frames (event kinds, timestamps, limits, balances in sats);
    [JObj] lists the own properties of the object, each key once. *)
Inductive json : Type :=
  | JNull
  | JBool (b : bool)
  | JNum (n : Z)
  | JStr (s : string)
  | JArr (xs : list json)
  | JObj (fields : list (string * json)).

(** A JavaScript value read out of a parsed frame; [None] is [undefined]. *)
Definition value : Type := option json.

(** A raw frame as the sockets deliver it. *)
Definition Frame : Type := string.

(** The double-quote character, and a string literal as [JSON.stringify]
    prints it (for strings that need no escape). *)
Definition dquote : string := String (ascii_of_nat 34) EmptyString.
Definition quoted (s : string) : string := (dquote +:+ s +:+ dquote)%string.

(** Truthiness, as [if], [&&], [||] and [!] test it. *)
Definition truthy (v : value) : bool :=
  match v with
  | None => false
  | Some JNull => false
  | Some (JBool b) => b
  | Some (JNum n) => negb (n =? 0)
  | Some (JStr s) => negb (String.eqb s EmptyString)
  | Some (JArr _) => true
  | Some (JObj _) => true
  end.

(** [data] in a condition: a frame is falsy exactly when it is empty. *)
Definition truthy_frame (data : Frame) : bool :=
  negb (String.eqb data EmptyString).

(** [v === s] for a string literal [s]. *)
Definition is_string (v : value) (s : string) : bool :=
  match v with
  | Some (JStr t) => String.eqb t s
  | _ => false
  end.

Fixpoint assoc (fields : list (string * json)) (key : string) : value :=
  match fields with
  | [] => None
  | (k, v) :: rest => if String.eqb k key then Some v else assoc rest key
  end.

(** [v[i]] for a value that is neither [undefined] nor [null]: an array
    element, a one-character string, or the property named by the decimal
    index. *)
Definition index (v : json) (i : nat) : value :=
  match v with
  | JArr xs => nth_error xs i
  | JStr s =>
      match String.get i s with
      | Some c => Some (JStr (String c EmptyString))
      | None => None
      end
  | JObj fields => assoc fields (NilZero.string_of_uint (Nat.to_uint i))
  | _ => None
  end.

(** [v.name], for the data properties this program reads ([tags],
    [pubkey], [kind], [content], [id]), none of which is defined on a
    prototype.  The outer [None] is the [TypeError] of reading a property
    of [undefined] or [null]. *)
Definition prop (v : value) (name : string) : option value :=
  match v with
  | None => None
  | Some JNull => None
  | Some (JObj fields) => Some (assoc fields name)
  | Some _ => Some None
  end.

(** [typeof v === "object"]. *)
Definition typeof_object (v : value) : bool :=
  match v with
  | Some JNull | Some (JArr _) | Some (JObj _) => true
  | _ => false
  end.

(** [data.includes(needle)]. *)
Definition includes (data needle : string) : bool :=
  match String.index 0 needle data with
  | Some _ => true
  | None => false
  end.

(** ** Arrays used as queues *)

(** [q.push(x)] appends; [q.pop()] removes and returns the last element,
    or returns [undefined] on an empty array. *)
Definition push {A} (q : list A) (x : A) : list A := q ++ [x].

Definition pop {A} (q : list A) : option A * list A :=
  match rev q with
  | [] => (None, q)
  | x :: r => (Some x, rev r)
  end.

(** ** Sockets and connections *)

Inductive ReadyState : Type := CONNECTING | OPEN | CLOSING | CLOSED.

Definition is_open (s : ReadyState) : bool :=
  match s with OPEN => true | _ => false end.

(** The client socket [ws] with the properties the proxy hangs on it. *)
Record WebSocket : Type := mkWs {
  authenticated : bool;
  funded : bool;
  authChallenge : string;
  readyState : ReadyState
}.

(** [clientObj], with what [getWs()] and [getRelay()] return.  [getWs()]
    returns [req.ws], which is [undefined] ([None]) until the [connection]
    handler has run: a connection whose handshake was refused never gets a
    client socket.  [timeout] is the handle of the drain interval. *)
Record ClientObj : Type := mkClient {
  id : nat;
  queueUpstream : list Frame;
  queueDownstream : list Frame;
  timeout : nat;
  closed : bool;
  getWs : option WebSocket;
  relay : ReadyState
}.

(** The variable [ws] of the handlers and timer callbacks that the
    [connection] handler sets up; they exist only on a connection that has
    its client socket.  On a connection without one nothing has been set
    and there is nothing open. *)
Definition ws (c : ClientObj) : WebSocket :=
  default (mkWs false false EmptyString CLOSED) (getWs c).

Arguments ws !c /.

Definition set_authenticated (b : bool) (s : WebSocket) : WebSocket :=
  mkWs b (funded s) (authChallenge s) (readyState s).
Definition set_funded (b : bool) (s : WebSocket) : WebSocket :=
  mkWs (authenticated s) b (authChallenge s) (readyState s).
Definition set_authChallenge (challenge : string) (s : WebSocket) : WebSocket :=
  mkWs (authenticated s) (funded s) challenge (readyState s).
Definition set_readyState (r : ReadyState) (s : WebSocket) : WebSocket :=
  mkWs (authenticated s) (funded s) (authChallenge s) r.

Definition set_queueUpstream (q : list Frame) (c : ClientObj) : ClientObj :=
  mkClient (id c) q (queueDownstream c) (timeout c) (closed c) (getWs c) (relay c).
Definition set_queueDownstream (q : list Frame) (c : ClientObj) : ClientObj :=
  mkClient (id c) (queueUpstream c) q (timeout c) (closed c) (getWs c) (relay c).
Definition set_closed (b : bool) (c : ClientObj) : ClientObj :=
  mkClient (id c) (queueUpstream c) (queueDownstream c) (timeout c) b (getWs c) (relay c).
Definition set_ws (s : WebSocket) (c : ClientObj) : ClientObj :=
  mkClient (id c) (queueUpstream c) (queueDownstream c) (timeout c) (closed c)
    (Some s) (relay c).
Definition set_relay (r : ReadyState) (c : ClientObj) : ClientObj :=
  mkClient (id c) (queueUpstream c) (queueDownstream c) (timeout c) (closed c)
    (getWs c) r.

(** ** Observable effects *)

(** What a callback does to the outside world, in the order it does it.
    The first argument is the [id] of the connection on whose behalf the
    call is made. *)
Inductive Action : Type :=
  | RelaySend (i : nat) (data : Frame)
  | WsSend (i : nat) (data : Frame)
  | WsClose (i : nat)
  | RelayClose (i : nat)
  | DeleteClient (i : nat)
  | ClearInterval (h : nat)
  | ClearTimeout (h : nat)
  | GetBalance (i : nat) (pubkey : value)
  | AskForCollateral (i : nat) (pubkey : value)
  | ProcessSpam (i : nat) (pubkey content eid : value).

(** How a synchronous piece of code ends. *)
Inductive Completion : Type := Normal | Throw.

(** The frames a trace hands to the relay, and to the client, in order. *)
Definition relay_sends (tr : list Action) : list Frame :=
  omap (fun a => match a with RelaySend _ d => Some d | _ => None end) tr.

Definition ws_sends (tr : list Action) : list Frame :=
  omap (fun a => match a with WsSend _ d => Some d | _ => None end) tr.

(** ** The environment of the proxy *)

(** The configuration constants ([./config]), the bot's identity and the
    library functions the proxy calls.  A library call that can raise
    returns [None] when it does. *)
Record Env : Type := mkEnv {
  JSON_parse : Frame -> option json;
  filterNipKind : list Z;
  collateralRequired : Z;
  proxyUrl_host : string;
  bot_publicKey : string;
  validateEvent : value -> option bool;
  verifySignature : value -> option bool;
  (** [new URL(v).host] *)
  URL_host : json -> option string;
  (** whether [close()] raises on the client socket, on the relay socket *)
  ws_close_throws : ReadyState -> bool;
  relay_close_throws : ReadyState -> bool
}.

Section Drain.

Context (env : Env).

(** [filterNipKind.includes(v)] *)
Definition kind_filtered (v : value) : bool :=
  match v with
  | Some (JNum k) => bool_decide (k ∈ filterNipKind env)
  | _ => false
  end.

(** The state of the upstream loop: what is left of [queueUpstream] (read
    from its end, so the head of [stack] is the next frame [pop()]
    returns), [reAddUpstream], and the effects so far. *)
Record UpLoop : Type := mkUpLoop {
  up_completion : Completion;
  up_stack : list Frame;
  up_reAdd : list Frame;
  up_trace : list Action
}.

(** The first [if] of the loop body: the frame is put on [reAddUpstream]
    when the connection is not funded and the frame parses to a truthy
    value whose first element is neither ["REQ"] nor ["CLOSE"]. *)
Definition deferred (event : json) : bool :=
  truthy (Some event)
  && negb (is_string (index event 0) "REQ")
  && negb (is_string (index event 0) "CLOSE").

(** The second [if] of the loop body on a funded connection, where [event]
    is still unassigned when the condition is reached: the frame is
    parsed, and for an ["EVENT"] frame whose kind is filtered
    [processSpam] is called.  [None] is the [TypeError] of [e.kind] on a
    missing event. *)
Definition spam_check (i : nat) (event : json) : option (list Action) :=
  if truthy (Some event) && is_string (index event 0) "EVENT" then
    let e := index event 1 in
    match prop e "kind" with
    | None => None
    | Some kind =>
        if kind_filtered kind then
          match prop e "pubkey", prop e "content", prop e "id" with
          | Some p, Some c, Some d => Some [ProcessSpam i p c d]
          | _, _, _ => None
          end
        else Some []
    end
  else Some [].

(** [while ((data = clientObj.queueUpstream.pop())) { ... relay.send(data) }] *)
Fixpoint upstream_loop (i : nat) (is_funded : bool) (stack reAdd : list Frame)
    (tr : list Action) : UpLoop :=
  match stack with
  | [] => mkUpLoop Normal [] reAdd tr
  | data :: rest =>
      if truthy_frame data then
        if is_funded then
          match JSON_parse env data with
          | None => mkUpLoop Throw rest reAdd tr
          | Some event =>
              match spam_check i event with
              | None => mkUpLoop Throw rest reAdd tr
              | Some spam =>
                  upstream_loop i is_funded rest reAdd
                    (tr ++ spam ++ [RelaySend i data])
              end
          end
        else
          match JSON_parse env data with
          | None => mkUpLoop Throw rest reAdd tr
          | Some event =>
              upstream_loop i is_funded rest
                (if deferred event then push reAdd data else reAdd)
                (tr ++ [RelaySend i data])
          end
      else mkUpLoop Normal rest reAdd tr
  end.

(** [while ((data = clientObj.queueDownstream.pop())) ws.send(data)]:
    what is left of the queue (read from its end) and the effects. *)
Fixpoint downstream_loop (i : nat) (stack : list Frame) (tr : list Action)
    : list Frame * list Action :=
  match stack with
  | [] => ([], tr)
  | data :: rest =>
      if truthy_frame data then downstream_loop i rest (tr ++ [WsSend i data])
      else (rest, tr)
  end.

(** The upstream phase: the loop, then
    [clientObj.queueUpstream.push(...reAddUpstream)] unless the loop
    raised. *)
Definition drain_upstream (c : ClientObj) : Completion * ClientObj * list Action :=
  if is_open (relay c) then
    let r := upstream_loop (id c) (funded (ws c)) (rev (queueUpstream c)) [] [] in
    match up_completion r with
    | Normal =>
        (Normal, set_queueUpstream (rev (up_stack r) ++ up_reAdd r) c, up_trace r)
    | Throw => (Throw, set_queueUpstream (rev (up_stack r)) c, up_trace r)
    end
  else (Normal, c, []).

Definition drain_downstream (c : ClientObj) : ClientObj * list Action :=
  if is_open (readyState (ws c)) then
    let '(rest, tr) := downstream_loop (id c) (rev (queueDownstream c)) [] in
    (set_queueDownstream (rev rest) c, tr)
  else (c, []).

(** [drainMessageQueue(clientObj)]: the completion, the connection
    afterwards and the frames sent.  When [getWs()] returns [undefined],
    reading [ws.authenticated] raises a [TypeError]. *)
Definition drainMessageQueue (c : ClientObj) : Completion * ClientObj * list Action :=
  match getWs c with
  | None => (Throw, c, [])
  | Some _ =>
      if negb (authenticated (ws c)) then (Normal, c, [])
      else
        match drain_upstream c with
        | (Throw, c1, tr1) => (Throw, c1, tr1)
        | (Normal, c1, tr1) =>
            let '(c2, tr2) := drain_downstream c1 in
            (Normal, c2, tr1 ++ tr2)
        end
  end.

End Drain.

(** ** Exceptions *)

(** The outcome of code that can raise. *)
Inductive Result (A : Type) : Type :=
  | Ret (a : A)
  | Raise.
Arguments Ret {A} a.
Arguments Raise {A}.

Definition bind {A B} (r : Result A) (k : A -> Result B) : Result B :=
  match r with
  | Ret a => k a
  | Raise => Raise
  end.

Notation "'let*' x ':=' r 'in' k" := (bind r (fun x => k))
  (at level 10, x name, r at level 100, k at level 200).

Definition of_option {A} (o : option A) : Result A :=
  match o with
  | Some a => Ret a
  | None => Raise
  end.

(** [try { body } catch (error) { handler }] *)
Definition try_catch {A} (body handler : Result A) : Result A :=
  match body with
  | Ret a => Ret a
  | Raise => handler
  end.

(** ** Validation of authentication events *)

Section Auth.

Context (env : Env).

(** The callback [([name]) => name === tag] on one element of
    [event.tags]: an array or a string can be destructured, anything else
    is not iterable. *)
Definition tag_named (tag : string) (el : json) : Result bool :=
  match el with
  | JArr _ | JStr _ => Ret (is_string (index el 0) tag)
  | _ => Raise
  end.

(** [tags.find(([name]) => name === tag)] *)
Fixpoint find_tag (tag : string) (tags : list json) : Result value :=
  match tags with
  | [] => Ret None
  | el :: rest =>
      let* found := tag_named tag el in
      if found then Ret (Some el) else find_tag tag rest
  end.

(** [const [, x] = v] *)
Definition second_element (v : value) : Result value :=
  match v with
  | Some (JArr xs) => Ret (index (JArr xs) 1)
  | Some (JStr s) => Ret (index (JStr s) 1)
  | _ => Raise
  end.

(** [const [, x] = event.tags.find(([name]) => name === tag)]; only an
    array has a [find] method. *)
Definition tag_value (event : value) (tag : string) : Result value :=
  let* tags := of_option (prop event "tags") in
  match tags with
  | Some (JArr els) =>
      let* found := find_tag tag els in
      second_element found
  | _ => Raise
  end.

(** The [try] block of [validateAuthEvent]. *)
Definition validateAuthEvent_try (event : value) (w : WebSocket) : Result bool :=
  let* valid := of_option (validateEvent env event) in
  if negb valid then Ret false else
  let* signed := of_option (verifySignature env event) in
  if negb signed then Ret false else
  let* challengeTag := tag_value event "challenge" in
  if negb (truthy challengeTag) || negb (is_string challengeTag (authChallenge w))
  then Ret false else
  let* relayTag := tag_value event "relay" in
  match relayTag with
  | Some r =>
      if negb (truthy relayTag) then Ret false else
      let* host := of_option (URL_host env r) in
      if negb (String.eqb host (proxyUrl_host env)) then Ret false else Ret true
  | None => Ret false
  end.

(** [validateAuthEvent(event, ws)]: the [catch] clause logs and returns
    [false]. *)
Definition validateAuthEvent (event : value) (w : WebSocket) : Result bool :=
  try_catch (validateAuthEvent_try event w) (Ret false).

End Auth.

(** ** The process: connections, timers, waiters *)

(** A pending timer and the connection whose callback it runs:
    the drain interval, the authentication timeout of
    [sendAuthChallenge], and the invoice-expiry timeout, whose closure
    holds the pubkey of the authentication event. *)
Inductive Timer : Type :=
  | DrainTimer (i : nat)
  | AuthTimer (i : nat)
  | PaymentTimer (i : nat) (pubkey : value).

(** A listener registered with [process.once(name, ...)]; its closure
    holds the connection's socket and the handle of its payment timer. *)
Record Listener : Type := mkListener {
  l_name : string;
  l_conn : nat;
  l_timer : nat
}.

(** A handler suspended at an [await]: the balance lookup of the message
    handler, its request for a payment prompt, and the balance lookup of
    the payment timer. *)
Inductive Await : Type :=
  | AwaitBalanceAuth (i : nat) (pubkey : value)
  | AwaitDM (i : nat) (pubkey : value)
  | AwaitBalanceExpiry (i : nat) (pubkey : value).

(** How a collaborator's promise settles: fulfilled with a balance in
    sats ([None] when it is [undefined] or [null]), or rejected. *)
Inductive Outcome : Type :=
  | Fulfilled (balance : option Z)
  | Rejected.

(** The state of the process.  [heap] holds every [clientObj] ever
    created, by id: the callbacks keep their object after it has left the
    registry [clients], whose keys are in [clients].  Timer handles and
    suspended handlers are numbered from [nextHandle]. *)
Record World : Type := mkWorld {
  crashed : bool;
  nextId : nat;
  heap : gmap nat ClientObj;
  clients : gset nat;
  nextHandle : nat;
  timers : gmap nat Timer;
  listeners : list Listener;
  awaits : gmap nat Await;
  log : list Action
}.

Definition set_crashed (b : bool) (w : World) : World :=
  mkWorld b (nextId w) (heap w) (clients w) (nextHandle w) (timers w)
    (listeners w) (awaits w) (log w).
Definition set_nextId (n : nat) (w : World) : World :=
  mkWorld (crashed w) n (heap w) (clients w) (nextHandle w) (timers w)
    (listeners w) (awaits w) (log w).
Definition set_heap (m : gmap nat ClientObj) (w : World) : World :=
  mkWorld (crashed w) (nextId w) m (clients w) (nextHandle w) (timers w)
    (listeners w) (awaits w) (log w).
Definition set_clients (s : gset nat) (w : World) : World :=
  mkWorld (crashed w) (nextId w) (heap w) s (nextHandle w) (timers w)
    (listeners w) (awaits w) (log w).
Definition set_nextHandle (n : nat) (w : World) : World :=
  mkWorld (crashed w) (nextId w) (heap w) (clients w) n (timers w)
    (listeners w) (awaits w) (log w).
Definition set_timers (m : gmap nat Timer) (w : World) : World :=
  mkWorld (crashed w) (nextId w) (heap w) (clients w) (nextHandle w) m
    (listeners w) (awaits w) (log w).
Definition set_listeners (l : list Listener) (w : World) : World :=
  mkWorld (crashed w) (nextId w) (heap w) (clients w) (nextHandle w) (timers w)
    l (awaits w) (log w).
Definition set_awaits (m : gmap nat Await) (w : World) : World :=
  mkWorld (crashed w) (nextId w) (heap w) (clients w) (nextHandle w) (timers w)
    (listeners w) m (log w).
Definition set_log (l : list Action) (w : World) : World :=
  mkWorld (crashed w) (nextId w) (heap w) (clients w) (nextHandle w) (timers w)
    (listeners w) (awaits w) l.

Definition emit (tr : list Action) (w : World) : World :=
  set_log (log w ++ tr) w.

(** [setTimeout]/[setInterval] and a suspension at an [await]. *)
Definition add_timer (t : Timer) (w : World) : World :=
  set_nextHandle (S (nextHandle w)) (set_timers (<[nextHandle w := t]> (timers w)) w).

Definition suspend (a : Await) (w : World) : World :=
  set_nextHandle (S (nextHandle w)) (set_awaits (<[nextHandle w := a]> (awaits w)) w).

(** The process before the first connection ([let id = 1]). *)
Definition init : World := {|
  crashed := false;
  nextId := 1;
  heap := ∅;
  clients := ∅;
  nextHandle := 0;
  timers := ∅;
  listeners := [];
  awaits := ∅;
  log := []
|}.

(** [String(v)], as a template literal converts [v]. *)
Fixpoint to_string (v : json) : string :=
  match v with
  | JNull => "null"
  | JBool true => "true"
  | JBool false => "false"
  | JNum n => NilZero.string_of_int (Z.to_int n)
  | JStr s => s
  | JArr xs =>
      (fix join (l : list json) : string :=
         match l with
         | [] => EmptyString
         | x :: r =>
             let first := match x with JNull => EmptyString | _ => to_string x end in
             match r with
             | [] => first
             | _ :: _ => first +:+ "," +:+ join r
             end
         end) xs
  | JObj _ => "[object Object]"
  end.

(** The name [`${pubkey}.paid`] of the payment notification. *)
Definition paid_event (pubkey : value) : string :=
  match pubkey with
  | Some v => to_string v +:+ ".paid"
  | None => "undefined.paid"
  end.

(** [ws.send(JSON.stringify(["NOTICE", ...]))] and
    [ws.send(JSON.stringify(["AUTH", ws.authChallenge]))] *)
Definition notice_frame : Frame :=
  "[" +:+ quoted "NOTICE" +:+ ","
  +:+ quoted "restricted: we can't serve unauthenticated users. Does your client implement NIP-42?"
  +:+ "]".

Definition challenge_frame (challenge : string) : Frame :=
  "[" +:+ quoted "AUTH" +:+ "," +:+ quoted challenge +:+ "]".

(** ** Teardown, the message handler and the admission flow *)

(** What can happen to the process: an upgrade request whose handshake
    is accepted (the fresh challenge is what [uuidV4()] returns) or
    refused, a socket event, a timer that fires, a promise that settles,
    and the payment webhook. *)
Inductive Event : Type :=
  | Upgrade (challenge : string)
  | UpgradeRefused
  | RelayOpen (i : nat)
  | RelayMessage (i : nat) (data : Frame)
  | RelayClosed (i : nat)
  | WsMessage (i : nat) (data : Frame)
  | WsClosed (i : nat)
  | TimerFired (h : nat)
  | Settled (p : nat) (o : Outcome)
  | Paid (pubKey : string).

Section Proxy.

Context (env : Env).

(** [balance && balance >= collateralRequired] *)
Definition sufficient (balance : option Z) : bool :=
  match balance with
  | Some b => negb (b =? 0) && (collateralRequired env <=? b)
  | None => false
  end.

Definition put (i : nat) (c : ClientObj) (w : World) : World :=
  set_heap (<[i := c]> (heap w)) w.

(** [socket.close()]: raises, or starts the closing handshake. *)
Definition close_socket (throws : bool) (s : ReadyState) : Result ReadyState :=
  if throws then Raise
  else Ret (match s with CLOSED => CLOSED | _ => CLOSING end).

(** [closeConnection(clientObj)], for the object stored at [i].  Without
    a client socket [clientObj.getWs().close()] raises a [TypeError]
    before anything is called, and the [catch] clause goes on to the
    relay. *)
Definition closeConnection (i : nat) (w : World) : Result World :=
  match heap w !! i with
  | None => Ret w
  | Some c =>
      if closed c then Ret w else
      let w1 := emit [ClearInterval (timeout c)]
                  (set_timers (delete (timeout c) (timers w)) w) in
      let w2 := emit [DeleteClient (id c)]
                  (set_clients (clients w1 ∖ {[id c]}) w1) in
      let c1 := set_closed true c in
      let w3 := match getWs c1 with
                | Some _ => emit [WsClose i] w2
                | None => w2
                end in
      let* c2 :=
        try_catch
          (let* s := of_option (getWs c1) in
           let* r := close_socket (ws_close_throws env (readyState s))
                       (readyState s) in
           Ret (set_ws (set_readyState r s) c1))
          (Ret c1) in
      let w4 := emit [RelayClose i] w3 in
      let* c3 :=
        try_catch
          (let* s := close_socket (relay_close_throws env (relay c2)) (relay c2) in
           Ret (set_relay s c2))
          (Ret c2) in
      Ret (put i c3 w4)
  end.

(** [ws.funded = true], from a callback that holds the socket of [i]. *)
Definition fund (i : nat) (w : World) : World :=
  match heap w !! i with
  | Some c => put i (set_ws (set_funded true (ws c)) c) w
  | None => w
  end.

(** [clientObj.queueUpstream.push(data)] *)
Definition enqueue (i : nat) (c : ClientObj) (data : Frame) (w : World) : World :=
  put i (set_queueUpstream (push (queueUpstream c) data) c) w.

(** The [message] handler of the client socket up to its first [await].
    [Raise] is a rejection of the handler's promise. *)
Definition on_message (i : nat) (data : Frame) (w : World) : Result World :=
  match heap w !! i with
  | None => Ret w
  | Some c =>
      if negb (authenticated (ws c)) && includes data (quoted "AUTH") then
        let* msg := of_option (JSON_parse env data) in
        if truthy (Some msg) && is_string (index msg 0) "AUTH" then
          let event := index msg 1 in
          let* valid :=
            if typeof_object event then validateAuthEvent env event (ws c)
            else Ret false in
          if negb valid then closeConnection i w else
          let* pubkey := of_option (prop event "pubkey") in
          if is_string pubkey (bot_publicKey env) then
            Ret (put i (set_ws (set_funded true (set_authenticated true (ws c))) c) w)
          else
            Ret (suspend (AwaitBalanceAuth i pubkey)
                   (emit [GetBalance i pubkey]
                      (put i (set_ws (set_authenticated true (ws c)) c) w)))
        else Ret (enqueue i c data w)
      else Ret (enqueue i c data w)
  end.

(** A suspended handler resumes when its promise settles. *)
Definition resume (a : Await) (o : Outcome) (w : World) : Result World :=
  match a with
  | AwaitBalanceAuth i pubkey =>
      match o with
      | Rejected => Raise
      | Fulfilled balance =>
          if sufficient balance then Ret (fund i w)
          else Ret (suspend (AwaitDM i pubkey) (emit [AskForCollateral i pubkey] w))
      end
  | AwaitDM i pubkey =>
      match o with
      | Rejected => closeConnection i w
      | Fulfilled _ =>
          let h := nextHandle w in
          let w1 := add_timer (PaymentTimer i pubkey) w in
          Ret (set_listeners
                 (listeners w1 ++ [mkListener (paid_event pubkey) i h]) w1)
      end
  | AwaitBalanceExpiry i pubkey =>
      match o with
      | Rejected => Raise
      | Fulfilled balance =>
          if sufficient balance then Ret (fund i w) else closeConnection i w
      end
  end.

(** A rejected handler leaves the process as it was when it raised; the
    handlers here raise before they change anything. *)
Definition settle (before : World) (r : Result World) : World :=
  match r with
  | Ret w => w
  | Raise => before
  end.

(** The callback of timer [h]. *)
Definition fire (h : nat) (w : World) : option World :=
  match timers w !! h with
  | None => None
  | Some (DrainTimer i) =>
      match heap w !! i with
      | None => None
      | Some c =>
          match drainMessageQueue env c with
          | (Normal, c', tr) => Some (emit tr (put i c' w))
          | (Throw, c', tr) => Some (set_crashed true (emit tr (put i c' w)))
          end
      end
  | Some (AuthTimer i) =>
      let w1 := set_timers (delete h (timers w)) w in
      match heap w !! i with
      | None => None
      | Some c =>
          if authenticated (ws c) then Some w1
          else Some (settle w1 (closeConnection i w1))
      end
  | Some (PaymentTimer i pubkey) =>
      let w1 := set_timers (delete h (timers w)) w in
      match heap w !! i with
      | None => None
      | Some c =>
          if funded (ws c) then Some w1
          else Some (suspend (AwaitBalanceExpiry i pubkey)
                       (emit [GetBalance i pubkey] w1))
      end
  end.

(** The listener registered by [process.once]: [ws.funded = true] and
    [clearTimeout(timeout)]. *)
Definition notify (w : World) (l : Listener) : World :=
  let w1 := fund (l_conn l) w in
  emit [ClearTimeout (l_timer l)]
    (set_timers (delete (l_timer l) (timers w1)) w1).

(** [process.emit(`${pubKey}.paid`, req.body)]: every listener of that
    name runs once and is removed. *)
Definition paid (pubKey : string) (w : World) : World :=
  let name := pubKey +:+ ".paid" in
  let hit := List.filter (fun l => String.eqb (l_name l) name) (listeners w) in
  let rest := List.filter (fun l => negb (String.eqb (l_name l) name)) (listeners w) in
  foldl notify (set_listeners rest w) hit.

(** [sendAuthChallenge(ws, clientObj)]: the notice, the fresh challenge
    and the authentication timeout. *)
Definition sendAuthChallenge (i : nat) (challenge : string) (w : World) : World :=
  match heap w !! i with
  | None => w
  | Some c =>
      let w1 := emit [WsSend i notice_frame] w in
      let w2 := put i (set_ws (set_authChallenge challenge (ws c)) c) w1 in
      let w3 := emit [WsSend i (challenge_frame challenge)] w2 in
      add_timer (AuthTimer i) w3
  end.

(** The [connection] handler, which runs once the handshake is
    accepted: [req.ws = ws = _ws], the socket's handlers, and
    [sendAuthChallenge]. *)
Definition connection (i : nat) (challenge : string) (w : World) : World :=
  match heap w !! i with
  | None => w
  | Some c =>
      let s := {| authenticated := false; funded := false;
                  authChallenge := EmptyString; readyState := OPEN |} in
      sendAuthChallenge i challenge (put i (set_ws s c) w)
  end.

(** The [upgrade] handler.  The connection takes the next [id]; the
    object is new ([clients[req.id]] is unset for a fresh id), it is
    registered and its drain interval started before
    [wss.handleUpgrade] looks at the request.  An accepted handshake
    ([Some challenge], the challenge being what [uuidV4()] returns) runs
    the [connection] handler; a refused one ([None]) calls nothing back,
    and the object is left without a client socket. *)
Definition upgrade (handshake : option string) (w : World) : option World :=
  let i := nextId w in
  if bool_decide (i ∈ clients w) then None else
  match heap w !! i with
  | Some _ => None
  | None =>
      let c := {|
        id := i;
        queueUpstream := [];
        queueDownstream := [];
        timeout := nextHandle w;
        closed := false;
        getWs := None;
        relay := CONNECTING
      |} in
      let w1 := set_nextId (S i) w in
      let w2 := set_clients ({[i]} ∪ clients w1) (put i c w1) in
      let w3 := add_timer (DrainTimer i) w2 in
      match handshake with
      | Some challenge => Some (connection i challenge w3)
      | None => Some w3
      end
  end.

(** One turn of the event loop.  [None]: the event cannot occur in [w]
    (no such connection, socket, timer or promise, or the process has
    died of an uncaught exception). *)
Definition step (ev : Event) (w : World) : option World :=
  if crashed w then None else
  match ev with
  | Upgrade challenge => upgrade (Some challenge) w
  | UpgradeRefused => upgrade None w
  | RelayOpen i =>
      match heap w !! i with
      | Some c =>
          match relay c with
          | CONNECTING => Some (put i (set_relay OPEN c) w)
          | _ => None
          end
      | None => None
      end
  | RelayMessage i data =>
      match heap w !! i with
      | Some c => Some (put i (set_queueDownstream (push (queueDownstream c) data) c) w)
      | None => None
      end
  | RelayClosed i =>
      match heap w !! i with
      | Some c =>
          let w1 := put i (set_relay CLOSED c) w in
          Some (settle w1 (closeConnection i w1))
      | None => None
      end
  | WsMessage i data =>
      match heap w !! i with
      | Some c =>
          match getWs c with
          | Some _ => Some (settle w (on_message i data w))
          | None => None
          end
      | None => None
      end
  | WsClosed i =>
      match heap w !! i with
      | Some c =>
          match getWs c with
          | Some s =>
              let w1 := put i (set_ws (set_readyState CLOSED s) c) w in
              Some (settle w1 (closeConnection i w1))
          | None => None
          end
      | None => None
      end
  | TimerFired h => fire h w
  | Settled p o =>
      match awaits w !! p with
      | Some a =>
          let w1 := set_awaits (delete p (awaits w)) w in
          Some (settle w1 (resume a o w1))
      | None => None
      end
  | Paid pubKey => Some (paid pubKey w)
  end.

Fixpoint run (evs : list Event) (w : World) : option World :=
  match evs with
  | [] => Some w
  | ev :: rest =>
      match step ev w with
      | Some w' => run rest w'
      | None => None
      end
  end.

(** The states the process can be in. *)
Definition reachable (w : World) : Prop :=
  exists evs, run evs init = Some w.

End Proxy.

(** ** A concrete environment for the examples *)

Module Sample.

(** [JSON.parse] on the fragment of JSON the example frames are written
    in: arrays, objects, strings without escapes, integers and the three
    literals, with blanks between tokens.  Any other text raises. *)

Definition is_blank (c : ascii) : bool :=
  Ascii.eqb c " "%char.

Definition is_digit (c : ascii) : bool :=
  ((48 <=? nat_of_ascii c) && (nat_of_ascii c <=? 57))%nat.

Fixpoint skip_blanks (s : string) : string :=
  match s with
  | String c r => if is_blank c then skip_blanks r else s
  | EmptyString => s
  end.

(** The characters up to the closing quote, and what follows it. *)
Fixpoint string_body (s : string) : option (string * string) :=
  match s with
  | EmptyString => None
  | String c r =>
      if Ascii.eqb c (ascii_of_nat 34) then Some (EmptyString, r)
      else if Ascii.eqb c (ascii_of_nat 92) then None
      else match string_body r with
           | Some (t, r') => Some (String c t, r')
           | None => None
           end
  end.

Fixpoint digits (s : string) (acc : Z) : Z * string :=
  match s with
  | String c r =>
      if is_digit c then digits r (10 * acc + (Z.of_nat (nat_of_ascii c) - 48))
      else (acc, s)
  | EmptyString => (acc, s)
  end.

Definition drop (n : nat) (s : string) : string :=
  String.substring n (String.length s - n) s.

Fixpoint parse_value (fuel : nat) (s : string) : option (json * string) :=
  match fuel with
  | O => None
  | S fuel' =>
      match skip_blanks s with
      | EmptyString => None
      | String c r as t =>
          if Ascii.eqb c "["%char then
            match skip_blanks r with
            | String "]"%char r' => Some (JArr [], r')
            | _ =>
                match parse_items fuel' r with
                | Some (xs, r') => Some (JArr xs, r')
                | None => None
                end
            end
          else if Ascii.eqb c "{"%char then
            match skip_blanks r with
            | String "}"%char r' => Some (JObj [], r')
            | _ =>
                match parse_members fuel' r with
                | Some (fs, r') => Some (JObj fs, r')
                | None => None
                end
            end
          else if Ascii.eqb c (ascii_of_nat 34) then
            match string_body r with
            | Some (str, r') => Some (JStr str, r')
            | None => None
            end
          else if is_digit c then
            let '(n, r') := digits t 0 in Some (JNum n, r')
          else if Ascii.eqb c "-"%char then
            match r with
            | String d _ =>
                if is_digit d then let '(n, r') := digits r 0 in Some (JNum (- n), r')
                else None
            | EmptyString => None
            end
          else if String.prefix "true" t then Some (JBool true, drop 4 t)
          else if String.prefix "false" t then Some (JBool false, drop 5 t)
          else if String.prefix "null" t then Some (JNull, drop 4 t)
          else None
      end
  end
with parse_items (fuel : nat) (s : string) : option (list json * string) :=
  match fuel with
  | O => None
  | S fuel' =>
      match parse_value fuel' s with
      | Some (x, r) =>
          match skip_blanks r with
          | String ","%char r' =>
              match parse_items fuel' r' with
              | Some (xs, r'') => Some (x :: xs, r'')
              | None => None
              end
          | String "]"%char r' => Some ([x], r')
          | _ => None
          end
      | None => None
      end
  end
with parse_members (fuel : nat) (s : string) : option (list (string * json) * string) :=
  match fuel with
  | O => None
  | S fuel' =>
      match skip_blanks s with
      | String c r =>
          if Ascii.eqb c (ascii_of_nat 34) then
            match string_body r with
            | Some (key, r1) =>
                match skip_blanks r1 with
                | String ":"%char r2 =>
                    match parse_value fuel' r2 with
                    | Some (x, r3) =>
                        match skip_blanks r3 with
                        | String ","%char r4 =>
                            match parse_members fuel' r4 with
                            | Some (fs, r5) => Some ((key, x) :: fs, r5)
                            | None => None
                            end
                        | String "}"%char r4 => Some ([(key, x)], r4)
                        | _ => None
                        end
                    | None => None
                    end
                | _ => None
                end
            | None => None
            end
          else None
      | EmptyString => None
      end
  end.

Definition parse (data : Frame) : option json :=
  match parse_value (S (String.length data)) data with
  | Some (v, rest) =>
      match skip_blanks rest with
      | EmptyString => Some v
      | _ => None
      end
  | None => None
  end.

(** An environment with a collateral of 10 sats in which text notes
    (kind 1) are screened for spam. *)
Definition env : Env := {|
  JSON_parse := parse;
  filterNipKind := [1];
  collateralRequired := 10;
  proxyUrl_host := "proxy.example";
  bot_publicKey := "b07";
  validateEvent := fun v => Some (typeof_object v);
  verifySignature := fun _ => Some true;
  URL_host := fun v =>
    match v with
    | JStr s => if String.prefix "wss://" s then Some (drop 6 s) else None
    | _ => None
    end;
  ws_close_throws := fun _ => false;
  relay_close_throws := fun _ => false
|}.

(** Frames used below: [["REQ","s",{}]], [["CLOSE","s"]] and two
    [EVENT] frames, a text note and a reaction. *)
Definition req_frame : Frame :=
  ("[" +:+ quoted "REQ" +:+ "," +:+ quoted "s" +:+ ",{}]")%string.
Definition close_frame : Frame :=
  ("[" +:+ quoted "CLOSE" +:+ "," +:+ quoted "s" +:+ "]")%string.
Definition event_frame (eid : string) (kind : string) : Frame :=
  ("[" +:+ quoted "EVENT" +:+ ",{" +:+ quoted "id" +:+ ":" +:+ quoted eid
   +:+ "," +:+ quoted "pubkey" +:+ ":" +:+ quoted "ab"
   +:+ "," +:+ quoted "kind" +:+ ":" +:+ kind
   +:+ "," +:+ quoted "content" +:+ ":" +:+ quoted "gm" +:+ "}]")%string.
Definition note_frame : Frame := event_frame "e1" "1".
Definition reaction_frame : Frame := event_frame "e2" "7".

(** An authenticated connection with an open relay link and an open
    client socket. *)
Definition conn (is_funded : bool) (up down : list Frame) : ClientObj := {|
  id := 1;
  queueUpstream := up;
  queueDownstream := down;
  timeout := 0;
  closed := false;
  getWs := Some {| authenticated := true; funded := is_funded;
                   authChallenge := "c0ffee"; readyState := OPEN |};
  relay := OPEN
|}.

(** Authentication events: one that answers the challenge [c0ffee] for
    this proxy, one without a [challenge] tag, one whose [relay] tag is
    not a URL, and one whose [tags] hold a number. *)
Definition auth_event (pubkey : string) (tags : list json) : json :=
  JObj [("pubkey", JStr pubkey); ("tags", JArr tags)]%string.
Definition relay_tag : json := JArr [JStr "relay"; JStr "wss://proxy.example"].
Definition challenge_tag : json := JArr [JStr "challenge"; JStr "c0ffee"].
Definition good_event : json := auth_event "ab" [relay_tag; challenge_tag].
Definition no_challenge_event : json := auth_event "ab" [relay_tag].
Definition bad_url_event : json :=
  auth_event "ab" [JArr [JStr "relay"; JStr "not a url"]; challenge_tag].
Definition bad_tags_event : json := auth_event "ab" [JNum 7; challenge_tag].

(** The same connection before its client has authenticated. *)
Definition pending_conn (up down : list Frame) : ClientObj :=
  set_ws (set_authenticated false (ws (conn false up down))) (conn false up down).

(** An [AUTH] frame whose event answers the challenge [c0ffee]. *)
Definition auth_frame (pubkey : string) : Frame :=
  ("[" +:+ quoted "AUTH" +:+ ",{" +:+ quoted "pubkey" +:+ ":" +:+ quoted pubkey
   +:+ "," +:+ quoted "tags" +:+ ":[[" +:+ quoted "relay" +:+ ","
   +:+ quoted "wss://proxy.example" +:+ "],[" +:+ quoted "challenge" +:+ ","
   +:+ quoted "c0ffee" +:+ "]]}]")%string.




(** Histories of the process: a client connects (connection 1, drain
    timer 0, authentication timer 1); it authenticates with a key (the
    balance lookup is promise 2); the balance is 0 and the bot is asked to
    prompt for payment (promise 3); the prompt is sent (payment timer 4
    and the waiter). *)
Definition connect : list Event := [Upgrade "c0ffee"].

(** An upgrade request whose handshake is refused: connection 1 with its
    drain timer 0 and no client socket. *)
Definition refused : list Event := [UpgradeRefused].
Definition authenticate (pubkey : string) : list Event :=
  connect ++ [WsMessage 1 (auth_frame pubkey)].
Definition prompted : list Event :=
  authenticate "ab" ++ [Settled 2 (Fulfilled (Some 0))].
Definition awaiting_payment : list Event :=
  prompted ++ [Settled 3 (Fulfilled None)].

(** A second client connects (connection 2) and authenticates with the
    same key; both connections end up waiting for payment. *)
Definition two_waiting : list Event :=
  awaiting_payment
  ++ [Upgrade "c0ffee"; WsMessage 2 (auth_frame "ab");
      Settled 7 (Fulfilled None); Settled 8 (Fulfilled None)].

(** A client connects and sends a note without authenticating; the relay
    link opens and the relay sends a frame; the drain timer ticks. *)
Definition early_traffic : list Event :=
  connect
  ++ [RelayOpen 1; WsMessage 1 note_frame; TimerFired 0;
      RelayMessage 1 note_frame; TimerFired 0].

(** The operator connects, the relay link opens and the client goes
    away; afterwards frames still arrive on both sockets, the
    authentication timer fires, a payment is notified and the relay
    closes. *)
Definition closed_early : list Event :=
  authenticate "b07" ++ [RelayOpen 1; WsClosed 1].
Definition late_events : list Event :=
  [WsMessage 1 note_frame; RelayMessage 1 note_frame; TimerFired 1;
   Paid "b07"; RelayClosed 1].

(** The payment timer of connection 1 expires, the balance is still
    short and the connection is torn down; the client then sends another
    [AUTH] frame. *)
Definition expired : list Event :=
  awaiting_payment
  ++ [TimerFired 4; Settled 5 (Fulfilled (Some 3)); WsMessage 1 (auth_frame "ab")].

(** The state of the process after a history. *)
Definition after (e : Env) (evs : list Event) : World :=
  default init (run e evs init).

(** The same environment with no collateral required. *)
Definition free_env : Env := {|
  JSON_parse := parse;
  filterNipKind := [1];
  collateralRequired := 0;
  proxyUrl_host := "proxy.example";
  bot_publicKey := "b07";
  validateEvent := validateEvent env;
  verifySignature := verifySignature env;
  URL_host := URL_host env;
  ws_close_throws := fun _ => false;
  relay_close_throws := fun _ => false
|}.

End Sample.

(** ** Vocabulary of the properties *)

Section Vocabulary.

Context (env : Env).

(** A frame the upstream loop gets past: it is not empty, it parses, and
    on a funded connection the spam check does not raise on it. *)
Definition passes (is_funded : bool) (data : Frame) : Prop :=
  truthy_frame data = true /\
  exists event, JSON_parse env data = Some event /\
    (is_funded = true -> exists spam, spam_check env 0 event = Some spam).

(** Whether the unfunded loop puts the frame back on the queue. *)
Definition deferred_frame (data : Frame) : bool :=
  match JSON_parse env data with
  | Some event => deferred event
  | None => false
  end.

(** The connection object once [closeConnection] has run on it: marked
    closed, its sockets closing unless [close()] raised. *)
Definition torn_down (c : ClientObj) : ClientObj :=
  let closing := fun s => match s with CLOSED => CLOSED | _ => CLOSING end in
  let s1 :=
    match getWs c with
    | Some s =>
        Some (if ws_close_throws env (readyState s) then s
              else set_readyState (closing (readyState s)) s)
    | None => None
    end in
  let s2 :=
    if relay_close_throws env (relay c) then relay c else closing (relay c) in
  mkClient (id c) (queueUpstream c) (queueDownstream c) (timeout c) true s1 s2.

(** The calls [closeConnection] makes for the connection at [i]:
    [close()] is called on the client socket when there is one. *)
Definition teardown_calls (i : nat) (c : ClientObj) : list Action :=
  [ClearInterval (timeout c); DeleteClient (id c)]
  ++ match getWs c with
     | Some _ => [WsClose i]
     | None => []
     end
  ++ [RelayClose i].

End Vocabulary.

(** The calls of [processSpam] in a trace, with their arguments
    [(pubkey, content, id)]. *)
Definition spam_calls (tr : list Action) : list (value * value * value) :=
  omap (fun a => match a with ProcessSpam _ p c d => Some (p, c, d) | _ => None end) tr.

(** The first tag of an event with a given name: the first element of
    [tags] whose own first element is that name. *)
Definition first_tag (tag : string) (tags : list json) : option json :=
  List.find (fun el => is_string (index el 0) tag) tags.

(** A tag that can be destructured: an array or a string. *)
Definition iterable (el : json) : Prop :=
  match el with
  | JArr _ | JStr _ => True
  | _ => False
  end.

(** *** The admission flow of a connection *)

Definition await_owner (a : Await) : nat :=
  match a with
  | AwaitBalanceAuth i _ | AwaitDM i _ | AwaitBalanceExpiry i _ => i
  end.

Definition is_lookup (i : nat) (a : Action) : bool :=
  match a with
  | GetBalance j _ => Nat.eqb i j
  | _ => false
  end.

Definition is_prompt (i : nat) (a : Action) : bool :=
  match a with
  | AskForCollateral j _ => Nat.eqb i j
  | _ => false
  end.

Definition is_call (a : Action) : bool :=
  match a with
  | GetBalance _ _ | AskForCollateral _ _ => true
  | _ => false
  end.

(** How often the balance lookup, and the request for a payment prompt,
    was called on behalf of connection [i]. *)
Definition balance_lookups (i : nat) (tr : list Action) : nat :=
  length (List.filter (is_lookup i) tr).

Definition payment_prompts (i : nat) (tr : list Action) : nat :=
  length (List.filter (is_prompt i) tr).

(** Connection [i] has a payment timer pending, a payment waiter
    registered, a handler suspended. *)
Definition has_payment_timer (i : nat) (w : World) : Prop :=
  exists h pubkey, timers w !! h = Some (PaymentTimer i pubkey).

Definition has_waiter (i : nat) (w : World) : Prop :=
  exists l, l ∈ listeners w /\ l_conn l = i.

Definition has_await (i : nat) (w : World) : Prop :=
  exists p a, awaits w !! p = Some a /\ await_owner a = i.

(** Connection [i] has authenticated. *)
Definition admitted (i : nat) (w : World) : Prop :=
  exists c, heap w !! i = Some c /\ authenticated (ws c) = true.

(** Some part of the admission flow has run for connection [i]. *)
Definition engaged (i : nat) (w : World) : Prop :=
  (0 < balance_lookups i (log w))%nat \/ (0 < payment_prompts i (log w))%nat \/
  has_await i w \/ has_payment_timer i w \/ has_waiter i w.

(** While the handler of [i] is suspended at promise [p], on the balance
    lookup that follows authentication: no payment prompt has been asked
    for, no other handler of [i] is suspended, and [i] has neither payment
    timer nor waiter. *)
Definition first_lookup (i p : nat) (w : World) : Prop :=
  payment_prompts i (log w) = 0%nat /\
  (forall p' a, awaits w !! p' = Some a -> await_owner a = i -> p' = p) /\
  ~ has_payment_timer i w /\ ~ has_waiter i w.

(** What holds of every state the process reaches. *)
Record Inv (w : World) : Prop := mkInv {
  inv_fresh : forall i,
    i ∈ clients w \/ is_Some (heap w !! i) -> (i < nextId w)%nat;
  inv_drain : forall h i,
    timers w !! h = Some (DrainTimer i) ->
    exists c, heap w !! i = Some c /\ timeout c = h;
  inv_handle : forall i c, heap w !! i = Some c -> (timeout c < nextHandle w)%nat;
  inv_timeout : forall i c t,
    heap w !! i = Some c -> timers w !! timeout c = Some t -> t = DrainTimer i;
  inv_admitted : forall i, engaged i w -> admitted i w;
  inv_flow : forall p i pubkey,
    awaits w !! p = Some (AwaitBalanceAuth i pubkey) -> first_lookup i p w
}.

(** The admission flow of [i] is over, or was skipped: [i] has
    authenticated and has no handler suspended, no payment timer and no
    waiter. *)
Definition settled (i : nat) (w : World) : Prop :=
  admitted i w /\ ~ has_await i w /\ ~ has_payment_timer i w /\ ~ has_waiter i w.

(** One turn of the event loop takes [w] to [w']: connections keep their
    drain handle and stay authenticated, and whatever the admission flow
    adds belongs to connection [j], if there is one. *)
Record evolves (oj : option nat) (w w' : World) : Prop := mkEvolves {
  ev_heap : forall i c, heap w !! i = Some c ->
    exists c', heap w' !! i = Some c' /\ timeout c' = timeout c /\
               (authenticated (ws c) = true -> authenticated (ws c') = true) /\
               (funded (ws c) = true -> funded (ws c') = true);
  ev_origin : forall i c', heap w' !! i = Some c' ->
    (exists c, heap w !! i = Some c /\ timeout c' = timeout c) \/
    ((timeout c' < nextHandle w')%nat /\
     forall t, timers w' !! timeout c' = Some t -> t = DrainTimer i);
  ev_nextId : (nextId w <= nextId w')%nat;
  ev_nextHandle : (nextHandle w <= nextHandle w')%nat;
  ev_handles : forall h t, timers w' !! h = Some t ->
    timers w !! h = Some t \/ (nextHandle w <= h)%nat;
  ev_fresh : forall i, i ∈ clients w' \/ is_Some (heap w' !! i) ->
    (i ∈ clients w \/ is_Some (heap w !! i)) \/ (i < nextId w')%nat;
  ev_drain : forall h i, timers w' !! h = Some (DrainTimer i) ->
    timers w !! h = Some (DrainTimer i) \/
    exists c, heap w' !! i = Some c /\ timeout c = h;
  ev_timers : forall h i pubkey, timers w' !! h = Some (PaymentTimer i pubkey) ->
    timers w !! h = Some (PaymentTimer i pubkey) \/ oj = Some i;
  ev_listeners : forall l, l ∈ listeners w' -> l ∈ listeners w \/ oj = Some (l_conn l);
  ev_awaits : forall p a, awaits w' !! p = Some a ->
    awaits w !! p = Some a \/ oj = Some (await_owner a);
  ev_lookups : forall i, oj <> Some i ->
    balance_lookups i (log w') = balance_lookups i (log w);
  ev_prompts : forall i, oj <> Some i ->
    payment_prompts i (log w') = payment_prompts i (log w)
}.


(** When the admission flow moves on for connection [j], that connection
    was not settled before and has authenticated; and if its handler is
    now suspended on the first balance lookup, that is all that has
    happened for it. *)
Definition joins (oj : option nat) (w w' : World) : Prop :=
  forall j, oj = Some j ->
    ~ settled j w /\ admitted j w' /\
    forall p pubkey, awaits w' !! p = Some (AwaitBalanceAuth j pubkey) ->
                     first_lookup j p w'.

Definition turn (w w' : World) : Prop :=
  exists oj, evolves oj w w' /\ joins oj w w'.

(** *** Connections, registry and timers *)

(** The frames sent, to either socket, on behalf of connection [i]. *)
Definition sends_of (i : nat) (tr : list Action) : list Action :=
  List.filter
    (fun a => match a with
              | RelaySend j _ | WsSend j _ => Nat.eqb i j
              | _ => false
              end) tr.

(** How connection objects, the registry, the timers and the log hang
    together in every state the process reaches: each object sits under
    its own id; the registry holds exactly the connections that have not
    been torn down; the drain interval of a connection is pending exactly
    while it has not been torn down; handles are allocated once; and
    only an authenticated connection has had frames sent to the relay. *)
Record Wf (w : World) : Prop := mkWf {
  wf_id : forall i c, heap w !! i = Some c -> id c = i;
  wf_registry : forall i,
    i ∈ clients w <-> exists c, heap w !! i = Some c /\ closed c = false;
  wf_drain : forall h i,
    timers w !! h = Some (DrainTimer i) ->
    exists c, heap w !! i = Some c /\ closed c = false /\ timeout c = h;
  wf_live : forall i c,
    heap w !! i = Some c -> closed c = false ->
    timers w !! timeout c = Some (DrainTimer i);
  wf_timers : forall h t, timers w !! h = Some t -> (h < nextHandle w)%nat;
  wf_timeout : forall i c, heap w !! i = Some c -> (timeout c < nextHandle w)%nat;
  wf_listener : forall l, l ∈ listeners w ->
    (l_timer l < nextHandle w)%nat /\
    forall i, timers w !! l_timer l <> Some (DrainTimer i);
  wf_sent : forall i d, RelaySend i d ∈ log w -> admitted i w
}.

(** A turn of the event loop leaves a torn-down connection torn down and
    sends nothing on its behalf. *)
Definition rests (i : nat) (w w' : World) : Prop :=
  forall c, heap w !! i = Some c -> closed c = true ->
    exists c', heap w' !! i = Some c' /\ closed c' = true /\
               sends_of i (log w') = sends_of i (log w).

(** Every funded connection has authenticated. *)
Definition funded_after_auth (w : World) : Prop :=
  forall i c, heap w !! i = Some c -> funded (ws c) = true ->
              authenticated (ws c) = true.

(** How far the admission flow of connection [i] can have gone: at most
    two balance lookups and one payment prompt; while a handler of [i] is
    suspended it is the only one, there is no payment timer, and the
    second lookup has not happened unless this is it; while the payment
    timer is pending it is the only one and the second lookup has not
    happened. *)
Definition flow_bounds (i : nat) (w : World) : Prop :=
  (balance_lookups i (log w) <= 2)%nat /\
  (payment_prompts i (log w) <= 1)%nat /\
  (forall p a, awaits w !! p = Some a -> await_owner a = i ->
     (forall p' a', awaits w !! p' = Some a' -> await_owner a' = i -> p' = p) /\
     ~ has_payment_timer i w /\
     match a with
     | AwaitBalanceAuth _ _ =>
         (balance_lookups i (log w) <= 1)%nat /\ payment_prompts i (log w) = 0%nat
     | AwaitDM _ _ => (balance_lookups i (log w) <= 1)%nat
     | AwaitBalanceExpiry _ _ => True
     end) /\
  (forall h pubkey, timers w !! h = Some (PaymentTimer i pubkey) ->
     (balance_lookups i (log w) <= 1)%nat /\
     forall h' pubkey', timers w !! h' = Some (PaymentTimer i pubkey') -> h' = h).

(** The four moves of the admission flow of connection [j]: its handler
    starts the first balance lookup; that lookup falls short and the bot
    is asked for a payment prompt; the prompt is sent and the payment
    timer and waiter are set up; the payment timer fires on a connection
    that is not funded and the balance is looked up again. *)
Definition moved (j : nat) (w w' : World) : Prop :=
  (exists c pubkey,
     heap w !! j = Some c /\ authenticated (ws c) = false /\
     w' = suspend (AwaitBalanceAuth j pubkey)
            (emit [GetBalance j pubkey]
               (set_heap (<[j := set_ws (set_authenticated true (ws c)) c]> (heap w)) w)))
  \/ (exists p pubkey,
        awaits w !! p = Some (AwaitBalanceAuth j pubkey) /\
        w' = suspend (AwaitDM j pubkey)
               (emit [AskForCollateral j pubkey]
                  (set_awaits (delete p (awaits w)) w)))
  \/ (exists p pubkey,
        awaits w !! p = Some (AwaitDM j pubkey) /\
        w' = set_listeners
               (listeners w ++ [mkListener (paid_event pubkey) j (nextHandle w)])
               (add_timer (PaymentTimer j pubkey)
                  (set_awaits (delete p (awaits w)) w)))
  \/ (exists h pubkey,
        timers w !! h = Some (PaymentTimer j pubkey) /\
        w' = suspend (AwaitBalanceExpiry j pubkey)
               (emit [GetBalance j pubkey]
                  (set_timers (delete h (timers w)) w))).

(** *** Client sockets *)

(** Connection [i] has its client socket: its handshake was accepted. *)
Definition has_socket (i : nat) (w : World) : Prop :=
  exists c, heap w !! i = Some c /\ is_Some (getWs c).

(** A turn of the event loop neither gives a connection a client socket
    nor takes one away, and an authentication timer it starts belongs to
    a connection that has its client socket. *)
Record sockets_kept (w w' : World) : Prop := mkSocketsKept {
  sk_heap : forall i c, heap w !! i = Some c ->
    exists c', heap w' !! i = Some c' /\ (getWs c' = None <-> getWs c = None);
  sk_auth : forall h i, timers w' !! h = Some (AuthTimer i) ->
    timers w !! h = Some (AuthTimer i) \/ has_socket i w'
}.

(** Every authentication timer belongs to a connection that has its
    client socket. *)
Definition auth_timers_owned (w : World) : Prop :=
  forall h i, timers w !! h = Some (AuthTimer i) -> has_socket i w.
(** * Properties *)

(** ** The example environment parses the example frames *)

Example sample_parse_note :
  Sample.parse Sample.note_frame
  = Some (JArr [JStr "EVENT";
                JObj [("id", JStr "e1"); ("pubkey", JStr "ab");
                      ("kind", JNum 1); ("content", JStr "gm")]%string]).
Proof. reflexivity. Qed.

Example sample_parse_req :
  Sample.parse Sample.req_frame = Some (JArr [JStr "REQ"; JStr "s"; JObj []]).
Proof. reflexivity. Qed.

Example sample_parse_garbage : Sample.parse "hello" = None.
Proof. reflexivity. Qed.

(** ** The drain loop *)

Section DrainFacts.

Context (env : Env).

Lemma pop_push {A} (q : list A) (x : A) : pop (push q x) = (Some x, q).
Proof. unfold pop, push. rewrite rev_app_distr. simpl. by rewrite rev_involutive. Qed.

Lemma pop_nil {A} : pop (@nil A) = (None, []).
Proof. reflexivity. Qed.

Lemma relay_sends_app (t1 t2 : list Action) :
  relay_sends (t1 ++ t2) = relay_sends t1 ++ relay_sends t2.
Proof. apply omap_app. Qed.

Lemma ws_sends_app (t1 t2 : list Action) :
  ws_sends (t1 ++ t2) = ws_sends t1 ++ ws_sends t2.
Proof. apply omap_app. Qed.

Lemma spam_check_sends i event spam :
  spam_check env i event = Some spam -> relay_sends spam = [] /\ ws_sends spam = [].
Proof.
  unfold spam_check. intros H.
  repeat (case_match; simplify_eq); done.
Qed.

Lemma spam_check_id i j event :
  is_Some (spam_check env i event) -> is_Some (spam_check env j event).
Proof.
  unfold spam_check. intros [spam H].
  repeat (case_match; simplify_eq); eauto.
Qed.

(** The upstream loop hands every frame it gets past to the relay, funded
    or not, last-queued first. *)
Lemma upstream_loop_sends i is_funded stack reAdd tr :
  Forall (passes env is_funded) stack ->
  let r := upstream_loop env i is_funded stack reAdd tr in
  up_completion r = Normal /\ up_stack r = [] /\
  relay_sends (up_trace r) = relay_sends tr ++ stack /\
  ws_sends (up_trace r) = ws_sends tr /\
  up_reAdd r =
    reAdd ++ (if is_funded then [] else List.filter (deferred_frame env) stack).
Proof.
  intros Hall. revert reAdd tr.
  induction Hall as [|data rest [Hne (event & Hparse & Hspam)] _ IH]; intros reAdd tr; simpl.
  - repeat split; rewrite ?app_nil_r; try done. destruct is_funded; by rewrite app_nil_r.
  - rewrite Hne, Hparse. destruct is_funded.
    + destruct Hspam as [spam0 Hs0]; [done|].
      destruct (spam_check_id 0 i event) as [spam Hs]; [eauto|].
      rewrite Hs. destruct (spam_check_sends _ _ _ Hs) as [Hr Hw].
      destruct (IH reAdd (tr ++ spam ++ [RelaySend i data])) as (-> & -> & -> & -> & ->).
      repeat split.
      * rewrite !relay_sends_app, Hr. simpl. by rewrite <- app_assoc.
      * rewrite !ws_sends_app, Hw. simpl. by rewrite app_nil_r.
    + set (reAdd' := if deferred event then push reAdd data else reAdd).
      destruct (IH reAdd' (tr ++ [RelaySend i data])) as (-> & -> & -> & -> & ->).
      repeat split.
      * rewrite relay_sends_app. simpl. by rewrite <- app_assoc.
      * rewrite ws_sends_app. simpl. by rewrite app_nil_r.
      * unfold reAdd', deferred_frame at 2. rewrite Hparse.
        destruct (deferred event); [|done].
        unfold push. by rewrite <- app_assoc.
Qed.

(** The upstream phase never writes to the client. *)
Lemma upstream_loop_ws_sends i is_funded stack reAdd tr :
  ws_sends (up_trace (upstream_loop env i is_funded stack reAdd tr)) = ws_sends tr.
Proof.
  revert reAdd tr. induction stack as [|data rest IH]; intros reAdd tr; simpl; [done|].
  destruct (truthy_frame data); [|done].
  destruct is_funded.
  - destruct (JSON_parse env data) as [event|]; [|done].
    destruct (spam_check env i event) as [spam|] eqn:Hs; [|done].
    rewrite IH, !ws_sends_app. destruct (spam_check_sends _ _ _ Hs) as [_ ->].
    simpl. by rewrite app_nil_r.
  - destruct (JSON_parse env data) as [event|]; [|done].
    rewrite IH, ws_sends_app. simpl. by rewrite app_nil_r.
Qed.

(** The downstream loop hands every non-empty frame to the client,
    last-queued first, and leaves nothing behind. *)
Lemma downstream_loop_sends i stack tr :
  Forall (fun data => truthy_frame data = true) stack ->
  downstream_loop i stack tr = ([], tr ++ map (WsSend i) stack).
Proof.
  intros Hall. revert tr.
  induction Hall as [|data rest Hne _ IH]; intros tr; simpl.
  - by rewrite app_nil_r.
  - rewrite Hne, IH. by rewrite <- app_assoc.
Qed.

Lemma ws_sends_map i (l : list Frame) : ws_sends (map (WsSend i) l) = l.
Proof. induction l as [|x l IH]; simpl; [done|]. unfold ws_sends in *. simpl. by rewrite IH. Qed.

Lemma relay_sends_map_ws i (l : list Frame) : relay_sends (map (WsSend i) l) = [].
Proof. induction l as [|x l IH]; simpl; done. Qed.

End DrainFacts.

Section DrainPhases.

Context (env : Env).

(** With the relay link open, the upstream phase of an authenticated
    connection sends every queued frame to the relay in reverse arrival
    order; on a connection that is not funded it then puts the frames that
    are neither [REQ] nor [CLOSE] back, in the order it sent them. *)
Lemma drain_upstream_sends (c : ClientObj) :
  is_open (relay c) = true ->
  Forall (passes env (funded (ws c))) (queueUpstream c) ->
  exists tr,
    drain_upstream env c
    = (Normal,
       set_queueUpstream
         (if funded (ws c) then []
          else List.filter (deferred_frame env) (rev (queueUpstream c))) c,
       tr)
    /\ relay_sends tr = rev (queueUpstream c) /\ ws_sends tr = [].
Proof.
  intros Hopen Hall. unfold drain_upstream. rewrite Hopen.
  assert (Hrev : Forall (passes env (funded (ws c))) (rev (queueUpstream c))).
  { by apply List.Forall_rev. }
  destruct (upstream_loop_sends env (id c) (funded (ws c)) _ [] [] Hrev)
    as (Hk & Hst & Hr & Hw & Hre).
  rewrite Hk, Hst, Hre. simpl. eexists. split; [reflexivity|]. split; done.
Qed.

Lemma drain_upstream_ws_sends (c : ClientObj) :
  ws_sends (drain_upstream env c).2 = [].
Proof.
  unfold drain_upstream. destruct (is_open (relay c)); [|done].
  pose proof (upstream_loop_ws_sends env (id c) (funded (ws c))
                (rev (queueUpstream c)) [] []) as H.
  destruct (up_completion _); simpl; exact H.
Qed.

Lemma drain_upstream_queueDownstream (c : ClientObj) :
  queueDownstream (drain_upstream env c).1.2 = queueDownstream c
  /\ ws (drain_upstream env c).1.2 = ws c.
Proof.
  unfold drain_upstream. destruct (is_open (relay c)); [|done].
  destruct (up_completion _); done.
Qed.

(** A connection on which a flag is set, or whose client socket is open,
    has a client socket. *)
Lemma authenticated_socket (c : ClientObj) :
  authenticated (ws c) = true -> exists s, getWs c = Some s.
Proof. unfold ws. destruct (getWs c); [eauto|done]. Qed.

Lemma funded_socket (c : ClientObj) :
  funded (ws c) = true -> exists s, getWs c = Some s.
Proof. unfold ws. destruct (getWs c); [eauto|done]. Qed.

Lemma no_socket_flags (c : ClientObj) :
  getWs c = None ->
  authenticated (ws c) = false /\ funded (ws c) = false /\
  is_open (readyState (ws c)) = false.
Proof. unfold ws. by intros ->. Qed.

Lemma socket_ws (c : ClientObj) (s : WebSocket) : getWs c = Some s -> ws c = s.
Proof. unfold ws. by intros ->. Qed.

(** Without a client socket the tick raises at once. *)
Lemma drainMessageQueue_no_socket (c : ClientObj) :
  getWs c = None -> drainMessageQueue env c = (Throw, c, []).
Proof. unfold drainMessageQueue. by intros ->. Qed.

End DrainPhases.

(** Unfold a tick of a connection whose socket is known. *)
Ltac drain_with Hs := unfold drainMessageQueue; rewrite Hs; cbv beta iota.

(** C1 (the code departs from the claim).  An authenticated connection
    that is not funded has one buffered [EVENT] frame and an open relay
    link: the drain tick sends the frame to the relay, and also keeps it
    queued.  The loop body notes the frame for re-queueing and then falls
    through to [relay.send(data)]. *)
Theorem drain_forwards_event_frame_when_not_funded :
  let c := Sample.conn false [Sample.note_frame] [] in
  authenticated (ws c) = true /\ funded (ws c) = false /\
  drainMessageQueue Sample.env c = (Normal, c, [RelaySend 1 Sample.note_frame]).
Proof. vm_compute. repeat split. Qed.

(** C2 (the code departs from the claim).  On the same connection two
    consecutive drain ticks send the one buffered frame to the relay
    twice: a deferred frame is sent again on every tick for as long as
    the connection is not funded. *)
Theorem drain_sends_deferred_frame_on_every_tick :
  let c := Sample.conn false [Sample.note_frame] [] in
  let tick1 := drainMessageQueue Sample.env c in
  let tick2 := drainMessageQueue Sample.env tick1.1.2 in
  tick1.1.1 = Normal /\ tick2.1.1 = Normal /\
  relay_sends (tick1.2 ++ tick2.2) = [Sample.note_frame; Sample.note_frame].
Proof. vm_compute. repeat split. Qed.

(** C3 (the code departs from the claim).  Frames leave in reverse
    arrival order: of two frames queued [a] then [b], a funded connection
    sends [b] first, upstream and downstream alike; and a connection that
    is not funded puts two deferred frames back in swapped order. *)
Theorem drain_sends_last_queued_frame_first :
  let a := Sample.req_frame in
  let b := Sample.close_frame in
  let c := Sample.conn true (push (push [] a) b) (push (push [] a) b) in
  let d := Sample.conn false (push (push [] Sample.note_frame) Sample.reaction_frame) [] in
  relay_sends (drainMessageQueue Sample.env c).2 = [b; a] /\
  ws_sends (drainMessageQueue Sample.env c).2 = [b; a] /\
  queueUpstream (drainMessageQueue Sample.env d).1.2
  = [Sample.reaction_frame; Sample.note_frame].
Proof. vm_compute. repeat split. Qed.

(** C5, counterexample.  Before authentication a drain tick forwards
    nothing to the client although the client socket is open: the relay's
    frame stays queued. *)
Lemma drain_forwards_nothing_downstream_before_authentication :
  let c := Sample.pending_conn [] [Sample.note_frame] in
  closed c = false /\ is_open (readyState (ws c)) = true /\
  queueDownstream c = [Sample.note_frame] /\
  ~ (forall data, data ∈ queueDownstream c ->
       data ∈ ws_sends (drainMessageQueue Sample.env c).2).
Proof.
  repeat split. intros H.
  specialize (H Sample.note_frame). vm_compute in H.
  assert (Hin : Sample.note_frame ∈ [Sample.note_frame]) by apply list_elem_of_here.
  apply H in Hin. inversion Hin.
Qed.

(** C5, amended.  A drain tick forwards no relay frame to the client, and
    leaves the downstream queue as it is, when the connection is not
    authenticated or the client socket is not open.  On an authenticated
    connection whose client socket is open, a tick that completes forwards
    every buffered relay frame to the client, funded or not, and empties
    the queue (the frames being non-empty). *)
Theorem drain_downstream_of_authenticated (env : Env) (c : ClientObj) :
  let r := drainMessageQueue env c in
  (authenticated (ws c) && is_open (readyState (ws c)) = false ->
   ws_sends r.2 = [] /\ queueDownstream r.1.2 = queueDownstream c) /\
  (authenticated (ws c) = true -> is_open (readyState (ws c)) = true ->
   r.1.1 = Normal ->
   Forall (fun data => truthy_frame data = true) (queueDownstream c) ->
   ws_sends r.2 = rev (queueDownstream c) /\ queueDownstream r.1.2 = []).
Proof.
  destruct (getWs c) as [s|] eqn:Hs.
  2: { rewrite (drainMessageQueue_no_socket env c Hs).
       destruct (no_socket_flags c Hs) as (Ha & _). rewrite Ha.
       split; [done|]. intros ?; done. }
  drain_with Hs.
  pose proof (drain_upstream_ws_sends env c) as Hws.
  destruct (drain_upstream_queueDownstream env c) as [Hq Hsock].
  destruct (authenticated (ws c)) eqn:Hauth; simpl.
  - destruct (drain_upstream env c) as [[k c1] tr1]. simpl in *.
    destruct k.
    + unfold drain_downstream. rewrite Hsock.
      destruct (is_open (readyState (ws c))) eqn:Hopen.
      * split; [done|]. intros _ _ _ Hall.
        rewrite Hq.
        assert (Hrev : Forall (fun data => truthy_frame data = true)
                         (rev (queueDownstream c))).
        { by apply List.Forall_rev. }
        rewrite (downstream_loop_sends (id c1) _ [] Hrev). simpl.
        rewrite ws_sends_app, Hws, ws_sends_map. done.
      * simpl. rewrite app_nil_r. split; [done|]. intros _ ?; done.
    + simpl. split.
      * intros _. done.
      * intros _ _ ?; done.
  - split; [done|]. intros ?; done.
Qed.

Lemma drain_downstream_of_authenticated_witness :
  (let c := Sample.pending_conn [] [Sample.note_frame] in
   ws_sends (drainMessageQueue Sample.env c).2 = [] /\
   queueDownstream (drainMessageQueue Sample.env c).1.2 = [Sample.note_frame]) /\
  (let c := Sample.conn false [] [Sample.req_frame; Sample.note_frame] in
   ws_sends (drainMessageQueue Sample.env c).2 = [Sample.note_frame; Sample.req_frame] /\
   queueDownstream (drainMessageQueue Sample.env c).1.2 = []).
Proof.
  split.
  - apply (drain_downstream_of_authenticated Sample.env
             (Sample.pending_conn [] [Sample.note_frame])).
    reflexivity.
  - apply (drain_downstream_of_authenticated Sample.env
             (Sample.conn false [] [Sample.req_frame; Sample.note_frame])).
    + reflexivity.
    + reflexivity.
    + reflexivity.
    + repeat constructor.
Defined.

(** ** Validation of authentication events *)

Example validateAuthEvent_good :
  validateAuthEvent Sample.env (Some Sample.good_event) (ws (Sample.conn false [] []))
  = Ret true.
Proof. reflexivity. Qed.

(** Without a [challenge] tag [find] returns [undefined], destructuring it
    raises, and the result is [false]. *)
Example validateAuthEvent_no_challenge :
  let w := ws (Sample.conn false [] []) in
  validateAuthEvent_try Sample.env (Some Sample.no_challenge_event) w = Raise /\
  validateAuthEvent Sample.env (Some Sample.no_challenge_event) w = Ret false.
Proof. split; reflexivity. Qed.

Example validateAuthEvent_bad_url :
  let w := ws (Sample.conn false [] []) in
  validateAuthEvent_try Sample.env (Some Sample.bad_url_event) w = Raise /\
  validateAuthEvent Sample.env (Some Sample.bad_url_event) w = Ret false.
Proof. split; reflexivity. Qed.

Example validateAuthEvent_bad_tags :
  let w := ws (Sample.conn false [] []) in
  validateAuthEvent_try Sample.env (Some Sample.bad_tags_event) w = Raise /\
  validateAuthEvent Sample.env (Some Sample.bad_tags_event) w = Ret false.
Proof. split; reflexivity. Qed.

Example validateAuthEvent_null :
  validateAuthEvent Sample.env (Some JNull) (ws (Sample.conn false [] [])) = Ret false.
Proof. reflexivity. Qed.

(** The [catch] clause turns an exception of the [try] block into
    [false]. *)
Lemma validateAuthEvent_catch (env : Env) (event : value) (w : WebSocket) :
  validateAuthEvent env event w
  = Ret (match validateAuthEvent_try env event w with
         | Ret b => b
         | Raise => false
         end).
Proof. unfold validateAuthEvent, try_catch. by destruct (validateAuthEvent_try env event w). Qed.

(** C10.  [validateAuthEvent] returns a boolean on every event and every
    socket and never raises: the result is what the [try] block returns,
    and [false] whenever the block raises. *)
Theorem validateAuthEvent_total (env : Env) (event : value) (w : WebSocket) :
  validateAuthEvent env event w
  = Ret (match validateAuthEvent_try env event w with
         | Ret b => b
         | Raise => false
         end).
Proof. unfold validateAuthEvent, try_catch. by destruct (validateAuthEvent_try env event w). Qed.

(** The result is [true] only when the block ran to its last line. *)
Lemma validateAuthEvent_true (env : Env) (event : value) (w : WebSocket) :
  validateAuthEvent env event w = Ret true ->
  validateEvent env event = Some true /\ verifySignature env event = Some true /\
  tag_value event "challenge" = Ret (Some (JStr (authChallenge w))) /\
  exists r, tag_value event "relay" = Ret (Some r) /\
            URL_host env r = Some (proxyUrl_host env).
Proof.
  rewrite validateAuthEvent_catch. intros [= H].
  unfold validateAuthEvent_try, bind, of_option in H.
  repeat case_match; simplify_eq; try done.
  repeat match goal with
  | H : negb _ = false |- _ => apply negb_false_iff in H
  | H : _ || _ = false |- _ => apply orb_false_iff in H as [? ?]
  | H : String.eqb _ _ = true |- _ => apply String.eqb_eq in H
  end.
  subst.
  match goal with
  | H : is_string ?a _ = true |- _ =>
      destruct a as [[]|]; simpl in H; try done; apply String.eqb_eq in H; subst
  end.
  repeat split; eauto.
Qed.


(** ** Teardown *)

Section Teardown.

Context (env : Env).

Lemma torn_down_frame (c : ClientObj) :
  id (torn_down env c) = id c /\ timeout (torn_down env c) = timeout c /\
  closed (torn_down env c) = true /\
  authenticated (ws (torn_down env c)) = authenticated (ws c) /\
  funded (ws (torn_down env c)) = funded (ws c) /\
  queueUpstream (torn_down env c) = queueUpstream c /\
  queueDownstream (torn_down env c) = queueDownstream c.
Proof.
  unfold torn_down, ws. simpl.
  destruct (getWs c) as [s|]; simpl; [|done].
  destruct (ws_close_throws env (readyState s)); done.
Qed.

Lemma torn_down_socket (c : ClientObj) :
  getWs (torn_down env c) = None <-> getWs c = None.
Proof. unfold torn_down. simpl. by destruct (getWs c). Qed.

(** What [closeConnection] does to a connection that is not closed yet,
    whether or not a [close()] raises. *)
Lemma closeConnection_open (i : nat) (c : ClientObj) (w : World) :
  heap w !! i = Some c -> closed c = false ->
  closeConnection env i w
  = Ret {| crashed := crashed w;
           nextId := nextId w;
           heap := <[i := torn_down env c]> (heap w);
           clients := clients w ∖ {[id c]};
           nextHandle := nextHandle w;
           timers := delete (timeout c) (timers w);
           listeners := listeners w;
           awaits := awaits w;
           log := log w ++ teardown_calls i c |}.
Proof.
  intros Hc Hopen. unfold closeConnection. rewrite Hc, Hopen.
  unfold torn_down, teardown_calls, close_socket, try_catch, of_option, bind,
    emit, put, set_closed, set_ws, set_relay.
  simpl. destruct (getWs c) as [s|] eqn:Hs; simpl.
  - destruct (ws_close_throws env (readyState s)); simpl;
      destruct (relay_close_throws env (relay c)); simpl;
      rewrite <- ?app_assoc; reflexivity.
  - destruct (relay_close_throws env (relay c)); simpl;
      rewrite <- ?app_assoc; reflexivity.
Qed.

(** On a closed connection, or an unknown one, it returns at once. *)
Lemma closeConnection_closed (i : nat) (w : World) :
  (forall c, heap w !! i = Some c -> closed c = true) ->
  closeConnection env i w = Ret w.
Proof.
  intros H. unfold closeConnection.
  destruct (heap w !! i) as [c|] eqn:Hc; [|done]. by rewrite (H c).
Qed.

Lemma closeConnection_returns (i : nat) (w : World) :
  exists w', closeConnection env i w = Ret w'.
Proof.
  destruct (heap w !! i) as [c|] eqn:Hc.
  - destruct (closed c) eqn:Hcl.
    + exists w. apply closeConnection_closed. intros c' Hc'. by simplify_eq.
    + eexists. by apply closeConnection_open.
  - exists w. apply closeConnection_closed. intros c' Hc'. by simplify_eq.
Qed.

End Teardown.

(** C6.  Teardown is idempotent.  On a connection that is not closed,
    [closeConnection] returns normally, whatever the two [close()] calls
    do; it clears the drain interval, removes the registry entry and calls
    [close()] once on each socket the connection has (a connection whose
    handshake was refused has no client socket, and only its relay
    socket is closed); and a second invocation returns immediately,
    leaving the process, its registry and its log as the first one left
    them. *)
Theorem closeConnection_idempotent (env : Env) (i : nat) (c : ClientObj) (w : World) :
  heap w !! i = Some c -> closed c = false ->
  exists w1,
    closeConnection env i w = Ret w1 /\
    (is_Some (getWs c) ->
     log w1 = log w ++ [ClearInterval (timeout c); DeleteClient (id c);
                        WsClose i; RelayClose i]) /\
    (getWs c = None ->
     log w1 = log w ++ [ClearInterval (timeout c); DeleteClient (id c);
                        RelayClose i]) /\
    clients w1 = clients w ∖ {[id c]} /\
    (exists c1, heap w1 !! i = Some c1 /\ closed c1 = true) /\
    closeConnection env i w1 = Ret w1.
Proof.
  intros Hc Hopen. eexists. split; [by apply closeConnection_open|].
  simpl. unfold teardown_calls. repeat split.
  - by intros [s ->].
  - by intros ->.
  - exists (torn_down env c). split; [apply lookup_insert_eq|done].
  - apply closeConnection_closed. simpl. intros c'.
    rewrite lookup_insert_eq. by intros [= <-].
Qed.

(** ** The admission flow *)

Lemma balance_lookups_app i t1 t2 :
  balance_lookups i (t1 ++ t2) = (balance_lookups i t1 + balance_lookups i t2)%nat.
Proof. unfold balance_lookups. by rewrite List.filter_app, length_app. Qed.

Lemma payment_prompts_app i t1 t2 :
  payment_prompts i (t1 ++ t2) = (payment_prompts i t1 + payment_prompts i t2)%nat.
Proof. unfold payment_prompts. by rewrite List.filter_app, length_app. Qed.

Lemma no_calls_counts i tr :
  forallb (fun a => negb (is_call a)) tr = true ->
  balance_lookups i tr = 0%nat /\ payment_prompts i tr = 0%nat.
Proof.
  unfold balance_lookups, payment_prompts.
  induction tr as [|a tr IH]; simpl; [done|].
  intros [Ha Htr]%andb_prop. destruct (IH Htr) as [IH1 IH2].
  destruct a; simpl in *; try done.
Qed.

Ltac evolves_trivial :=
  first [ by eauto | by (intros; left; eauto) | (simpl; lia) ].

Ltac from_delete :=
  intros; left;
  match goal with
  | H : delete _ _ !! _ = Some _ |- _ => by apply lookup_delete_Some in H as [_ ?]
  end.

Ltac count_calls :=
  rewrite ?balance_lookups_app, ?payment_prompts_app;
  unfold balance_lookups, payment_prompts, teardown_calls;
  repeat match goal with
         | |- context [match getWs ?c with _ => _ end] => destruct (getWs c)
         end;
  simpl; lia.

Lemma evolves_refl oj w : evolves oj w w.
Proof. split; eauto. Qed.

Lemma evolves_weaken oj w w' : evolves None w w' -> evolves oj w w'.
Proof.
  intros H. split; try apply H.
  - intros h i pk Ht. destruct (ev_timers _ _ _ H _ _ _ Ht) as [?|?]; [by left|done].
  - intros l Hl. destruct (ev_listeners _ _ _ H _ Hl) as [?|?]; [by left|done].
  - intros p a Ha. destruct (ev_awaits _ _ _ H _ _ Ha) as [?|?]; [by left|done].
  - intros i _. by apply (ev_lookups _ _ _ H).
  - intros i _. by apply (ev_prompts _ _ _ H).
Qed.

Lemma evolves_trans oj w w1 w2 :
  evolves oj w w1 -> evolves oj w1 w2 -> evolves oj w w2.
Proof.
  intros A B.
  pose proof (ev_nextId _ _ _ A). pose proof (ev_nextId _ _ _ B).
  pose proof (ev_nextHandle _ _ _ A). pose proof (ev_nextHandle _ _ _ B).
  split.
  - intros i c Hc. destruct (ev_heap _ _ _ A _ _ Hc) as (c1 & Hc1 & Ht1 & Ha1 & Hf1).
    destruct (ev_heap _ _ _ B _ _ Hc1) as (c2 & Hc2 & Ht2 & Ha2 & Hf2).
    exists c2. repeat split; [done|congruence|auto|auto].
  - intros i c2 Hc2.
    destruct (ev_origin _ _ _ B _ _ Hc2) as [(c1 & Hc1 & Ht2)|?]; [|by right].
    destruct (ev_origin _ _ _ A _ _ Hc1) as [(c & Hc & Ht1)|[Hlt Hdr]].
    + left. exists c. split; [done|congruence].
    + right. rewrite Ht2. split; [lia|]. intros t Ht.
      destruct (ev_handles _ _ _ B _ _ Ht) as [?|?]; [by apply Hdr|lia].
  - lia.
  - lia.
  - intros h t Ht. destruct (ev_handles _ _ _ B _ _ Ht) as [Ht1|?]; [|right; lia].
    destruct (ev_handles _ _ _ A _ _ Ht1) as [?|?]; [by left|by right].
  - intros i Hi. destruct (ev_fresh _ _ _ B _ Hi) as [Hi1|?]; [|by right].
    destruct (ev_fresh _ _ _ A _ Hi1) as [?|?]; [by left|right; lia].
  - intros h i Ht. destruct (ev_drain _ _ _ B _ _ Ht) as [Ht1|?]; [|by right].
    destruct (ev_drain _ _ _ A _ _ Ht1) as [?|(c1 & Hc1 & Hh)]; [by left|right].
    destruct (ev_heap _ _ _ B _ _ Hc1) as (c2 & Hc2 & Ht2 & _).
    exists c2. split; [done|congruence].
  - intros h i pk Ht. destruct (ev_timers _ _ _ B _ _ _ Ht) as [Ht1|?]; [|by right].
    by apply (ev_timers _ _ _ A).
  - intros l Hl. destruct (ev_listeners _ _ _ B _ Hl) as [Hl1|?]; [|by right].
    by apply (ev_listeners _ _ _ A).
  - intros p a Ha. destruct (ev_awaits _ _ _ B _ _ Ha) as [Ha1|?]; [|by right].
    by apply (ev_awaits _ _ _ A).
  - intros i Hi. by rewrite (ev_lookups _ _ _ B), (ev_lookups _ _ _ A).
  - intros i Hi. by rewrite (ev_prompts _ _ _ B), (ev_prompts _ _ _ A).
Qed.

Lemma evolves_trans_l oj w w1 w2 :
  evolves None w w1 -> evolves oj w1 w2 -> evolves oj w w2.
Proof. intros H1 H2. eapply evolves_trans; [by apply evolves_weaken|done]. Qed.

Lemma evolves_trans_r oj w w1 w2 :
  evolves oj w w1 -> evolves None w1 w2 -> evolves oj w w2.
Proof. intros H1 H2. eapply evolves_trans; [done|by apply evolves_weaken]. Qed.

Section Primitives.

Context (env : Env).

(** A write to a connection object that keeps its drain handle and does
    not undo its authentication. *)
Lemma evolves_put i c c' w :
  heap w !! i = Some c -> timeout c' = timeout c ->
  (authenticated (ws c) = true -> authenticated (ws c') = true) ->
  (funded (ws c) = true -> funded (ws c') = true) ->
  evolves None w (put i c' w).
Proof.
  intros Hc Ht Ha Hf. split; simpl; try evolves_trivial.
  - intros j d Hd. destruct (decide (i = j)) as [<-|Hne].
    + rewrite lookup_insert_eq. simplify_eq. eauto 6.
    + rewrite lookup_insert_ne by done. eauto 6.
  - intros j d Hd. left. destruct (decide (i = j)) as [<-|Hne].
    + rewrite lookup_insert_eq in Hd. simplify_eq. eauto.
    + rewrite lookup_insert_ne in Hd by done. eauto.
  - intros j [Hj|Hj]; left; [by left|right].
    destruct (decide (i = j)) as [<-|Hne]; [by eauto|].
    by rewrite lookup_insert_ne in Hj.
Qed.

Lemma evolves_emit tr w :
  forallb (fun a => negb (is_call a)) tr = true -> evolves None w (emit tr w).
Proof.
  intros Htr. split; simpl; try evolves_trivial.
  - intros i _. rewrite balance_lookups_app.
    destruct (no_calls_counts i tr Htr) as [-> _]. lia.
  - intros i _. rewrite payment_prompts_app.
    destruct (no_calls_counts i tr Htr) as [_ ->]. lia.
Qed.

Lemma evolves_delete_timer h w :
  evolves None w (set_timers (delete h (timers w)) w).
Proof. split; simpl; try evolves_trivial; from_delete. Qed.

Lemma evolves_delete_await p w :
  evolves None w (set_awaits (delete p (awaits w)) w).
Proof. split; simpl; try evolves_trivial; from_delete. Qed.

Lemma evolves_set_listeners ls w :
  (forall l, l ∈ ls -> l ∈ listeners w) -> evolves None w (set_listeners ls w).
Proof. intros H. split; simpl; try evolves_trivial. Qed.

Lemma evolves_fund i w : evolves None w (fund i w).
Proof.
  unfold fund. destruct (heap w !! i) as [c|] eqn:Hc; [|apply evolves_refl].
  by eapply evolves_put.
Qed.

Lemma evolves_closeConnection i w w' :
  closeConnection env i w = Ret w' -> evolves None w w'.
Proof.
  destruct (heap w !! i) as [c|] eqn:Hc.
  - destruct (closed c) eqn:Hcl.
    + rewrite closeConnection_closed; [intros [= <-]; apply evolves_refl|].
      intros c' ?. by simplify_eq.
    + rewrite (closeConnection_open env i c w Hc Hcl). intros [= <-].
      destruct (torn_down_frame env c) as (_ & Ht & _ & Ha & Hf & _).
      split; simpl; try evolves_trivial; try from_delete.
      * intros j d Hd. destruct (decide (i = j)) as [<-|Hne].
        -- rewrite lookup_insert_eq. simplify_eq.
           exists (torn_down env c). rewrite Ht, Ha, Hf. done.
        -- rewrite lookup_insert_ne by done. eauto 6.
      * intros j d Hd. left. destruct (decide (i = j)) as [<-|Hne].
        -- rewrite lookup_insert_eq in Hd. simplify_eq. eauto.
        -- rewrite lookup_insert_ne in Hd by done. eauto.
      * intros j [Hj|Hj]; left.
        -- left. by apply elem_of_difference in Hj as [Hj _].
        -- right. destruct (decide (i = j)) as [<-|Hne]; [by eauto|].
           by rewrite lookup_insert_ne in Hj.
      * intros j _. count_calls.
      * intros j _. count_calls.
  - rewrite closeConnection_closed; [intros [= <-]; apply evolves_refl|].
    intros c' ?. by simplify_eq.
Qed.

Lemma evolves_settle_close i w :
  evolves None w (settle w (closeConnection env i w)).
Proof.
  destruct (closeConnection_returns env i w) as [w' Hw']. rewrite Hw'. simpl.
  by eapply evolves_closeConnection.
Qed.

End Primitives.

Section DrainFrame.

Context (env : Env).

Local Abbreviation no_calls := (forallb (fun a => negb (is_call a))).

Lemma no_calls_app (t1 t2 : list Action) :
  no_calls (t1 ++ t2) = no_calls t1 && no_calls t2.
Proof. apply forallb_app. Qed.

Lemma spam_check_no_calls i event spam :
  spam_check env i event = Some spam -> no_calls spam = true.
Proof.
  unfold spam_check. intros H.
  repeat (case_match; simplify_eq); done.
Qed.

Lemma upstream_loop_no_calls i is_funded stack reAdd tr :
  no_calls tr = true ->
  no_calls (up_trace (upstream_loop env i is_funded stack reAdd tr)) = true.
Proof.
  revert reAdd tr. induction stack as [|data rest IH]; intros reAdd tr Htr; simpl; [done|].
  destruct (truthy_frame data); [|done].
  destruct is_funded.
  - destruct (JSON_parse env data) as [event|]; [|done].
    destruct (spam_check env i event) as [spam|] eqn:Hs; [|done].
    apply IH. rewrite !no_calls_app, Htr, (spam_check_no_calls _ _ _ Hs). done.
  - destruct (JSON_parse env data) as [event|]; [|done].
    apply IH. by rewrite no_calls_app, Htr.
Qed.

Lemma downstream_loop_no_calls i stack tr :
  no_calls tr = true -> no_calls (downstream_loop i stack tr).2 = true.
Proof.
  revert tr. induction stack as [|data rest IH]; intros tr Htr; simpl; [done|].
  destruct (truthy_frame data); [|done].
  apply IH. by rewrite no_calls_app, Htr.
Qed.

(** A drain tick touches the two queues only, and calls neither the
    balance lookup nor the bot. *)
Lemma drainMessageQueue_frame (c : ClientObj) :
  let r := drainMessageQueue env c in
  timeout r.1.2 = timeout c /\ ws r.1.2 = ws c /\ id r.1.2 = id c /\
  closed r.1.2 = closed c /\ relay r.1.2 = relay c /\ no_calls r.2 = true.
Proof.
  destruct (getWs c) as [s|] eqn:Hs;
    [|by rewrite (drainMessageQueue_no_socket env c Hs)].
  drain_with Hs. destruct (authenticated (ws c)); simpl; [|done].
  assert (Hup : let u := drain_upstream env c in
                timeout u.1.2 = timeout c /\ ws u.1.2 = ws c /\ id u.1.2 = id c /\
                closed u.1.2 = closed c /\ relay u.1.2 = relay c /\ no_calls u.2 = true).
  { unfold drain_upstream. destruct (is_open (relay c)); [|done].
    pose proof (upstream_loop_no_calls (id c) (funded (ws c))
                  (rev (queueUpstream c)) [] [] eq_refl) as H.
    destruct (up_completion _); simpl; done. }
  destruct (drain_upstream env c) as [[k c1] tr1]. simpl in Hup.
  destruct Hup as (H1 & H2 & H3 & H4 & H5 & H6).
  destruct k; [|done].
  unfold drain_downstream. destruct (is_open (readyState (ws c1))).
  - pose proof (downstream_loop_no_calls (id c1) (rev (queueDownstream c1)) [] eq_refl) as H.
    destruct (downstream_loop _ _ _) as [rest tr2]. simpl in *.
    by rewrite no_calls_app, H6, H.
  - simpl. by rewrite app_nil_r.
Qed.

Lemma evolves_notify w l : evolves None w (notify w l).
Proof.
  unfold notify.
  eapply evolves_trans; [apply evolves_fund|].
  eapply evolves_trans; [apply evolves_delete_timer|].
  by apply evolves_emit.
Qed.

Lemma evolves_foldl_notify ls w : evolves None w (foldl notify w ls).
Proof.
  revert w. induction ls as [|l ls IH]; intros w; simpl; [apply evolves_refl|].
  eapply evolves_trans; [apply evolves_notify|apply IH].
Qed.

Lemma evolves_paid pubKey w : evolves None w (paid pubKey w).
Proof.
  unfold paid. eapply evolves_trans; [|apply evolves_foldl_notify].
  apply evolves_set_listeners. intros l Hl.
  apply list_elem_of_In, List.filter_In in Hl as [Hl _]. by apply list_elem_of_In.
Qed.

End DrainFrame.

Lemma turn_None w w' : evolves None w w' -> turn w w'.
Proof. intros H. exists None. split; [done|]. intros j [=]. Qed.

Lemma not_engaged_prompts i w :
  ~ engaged i w -> payment_prompts i (log w) = 0%nat.
Proof.
  intros H. destruct (payment_prompts i (log w)) eqn:E; [done|].
  exfalso. apply H. right. left. lia.
Qed.

Lemma admitted_evolves oj i w w' : evolves oj w w' -> admitted i w -> admitted i w'.
Proof.
  intros Hev (c & Hc & Ha).
  destruct (ev_heap _ _ _ Hev _ _ Hc) as (c' & Hc' & _ & Ha' & _).
  exists c'. auto.
Qed.

Section Growth.

Context (env : Env).

(** A handler of [j] calls a collaborator and suspends. *)
Lemma evolves_suspend j call a w :
  await_owner a = j ->
  (forall i, i <> j -> is_lookup i call = false /\ is_prompt i call = false) ->
  evolves (Some j) w (suspend a (emit [call] w)).
Proof.
  intros Ha Hcall. split; simpl; try evolves_trivial.
  - intros p b Hb. destruct (decide (nextHandle w = p)) as [<-|Hne].
    + rewrite lookup_insert_eq in Hb. simplify_eq. by right.
    + rewrite lookup_insert_ne in Hb by done. by left.
  - intros i Hi. rewrite balance_lookups_app. unfold balance_lookups at 2. simpl.
    destruct (Hcall i) as [-> _]; [congruence|]. simpl. lia.
  - intros i Hi. rewrite payment_prompts_app. unfold payment_prompts at 2. simpl.
    destruct (Hcall i) as [_ ->]; [congruence|]. simpl. lia.
Qed.

(** The handler of [j] starts the payment timer and registers the
    waiter. *)
Lemma evolves_await_payment j pubkey w :
  let w1 := add_timer (PaymentTimer j pubkey) w in
  evolves (Some j) w
    (set_listeners
       (listeners w1 ++ [mkListener (paid_event pubkey) j (nextHandle w)]) w1).
Proof.
  split; simpl; try evolves_trivial.
  - intros h t Ht. destruct (decide (nextHandle w = h)) as [<-|Hne].
    + right. lia.
    + left. by rewrite lookup_insert_ne in Ht.
  - intros h i Ht. left. destruct (decide (nextHandle w = h)) as [<-|Hne].
    + by rewrite lookup_insert_eq in Ht.
    + by rewrite lookup_insert_ne in Ht.
  - intros h i pk Ht. destruct (decide (nextHandle w = h)) as [<-|Hne].
    + rewrite lookup_insert_eq in Ht. simplify_eq. by right.
    + rewrite lookup_insert_ne in Ht by done. by left.
  - intros l [Hl|Hl]%elem_of_app; [by left|].
    apply list_elem_of_singleton in Hl as ->. by right.
Qed.

Lemma evolves_set_crashed b w : evolves None w (set_crashed b w).
Proof. split; simpl; eauto. Qed.

(** The process after an upgrade request: the new connection object
    under the next id, registered, with its drain interval; after an
    accepted handshake it has its client socket, has been sent the notice
    and the challenge, and its authentication timer runs. *)
Lemma upgrade_accepted challenge w w' :
  upgrade (Some challenge) w = Some w' ->
  (nextId w ∉ clients w) /\ heap w !! nextId w = None /\
  w' = add_timer (AuthTimer (nextId w))
         (emit [WsSend (nextId w) notice_frame;
                WsSend (nextId w) (challenge_frame challenge)]
            (add_timer (DrainTimer (nextId w))
               (set_clients ({[nextId w]} ∪ clients w)
                  (put (nextId w)
                     (mkClient (nextId w) [] [] (nextHandle w) false
                        (Some (mkWs false false challenge OPEN)) CONNECTING)
                     (set_nextId (S (nextId w)) w))))).
Proof.
  unfold upgrade. case_bool_decide as Hcl; [done|].
  destruct (heap w !! nextId w) eqn:Hfresh; [done|]. intros [= <-].
  split; [done|]. split; [done|].
  unfold connection, sendAuthChallenge, add_timer, emit, put. simpl.
  rewrite !lookup_insert_eq. simpl.
  unfold add_timer, emit, put, set_ws, set_authChallenge. simpl.
  rewrite !insert_insert_eq, <- app_assoc. reflexivity.
Qed.

Lemma upgrade_refused w w' :
  upgrade None w = Some w' ->
  (nextId w ∉ clients w) /\ heap w !! nextId w = None /\
  w' = add_timer (DrainTimer (nextId w))
         (set_clients ({[nextId w]} ∪ clients w)
            (put (nextId w)
               (mkClient (nextId w) [] [] (nextHandle w) false None CONNECTING)
               (set_nextId (S (nextId w)) w))).
Proof.
  unfold upgrade. case_bool_decide as Hcl; [done|].
  destruct (heap w !! nextId w) eqn:Hfresh; [done|]. by intros [= <-].
Qed.

Lemma evolves_upgrade handshake w w' :
  upgrade handshake w = Some w' -> evolves None w w'.
Proof.
  destruct handshake as [challenge|].
  { intros (Hcl & Hfresh & ->)%upgrade_accepted.
    split; simpl.
    - intros i c Hc. destruct (decide (nextId w = i)) as [<-|Hne]; [congruence|].
      rewrite lookup_insert_ne by done. eauto 6.
    - intros i c Hc. destruct (decide (nextId w = i)) as [<-|Hne].
      + rewrite lookup_insert_eq in Hc. simplify_eq. right. simpl. split; [lia|].
        intros t. rewrite lookup_insert_ne by lia. rewrite lookup_insert_eq. congruence.
      + rewrite lookup_insert_ne in Hc by done. left. eauto.
    - lia.
    - lia.
    - intros h t Ht.
      destruct (decide (S (nextHandle w) = h)) as [<-|Hne1]; [right; lia|].
      rewrite lookup_insert_ne in Ht by done.
      destruct (decide (nextHandle w = h)) as [<-|Hne2]; [right; lia|].
      rewrite lookup_insert_ne in Ht by done. by left.
    - intros i [Hi|Hi].
      + apply elem_of_union in Hi as [Hi|Hi]; [|by left; left].
        apply elem_of_singleton in Hi as ->. right. lia.
      + destruct (decide (nextId w = i)) as [<-|Hne]; [right; lia|].
        rewrite lookup_insert_ne in Hi by done. left. by right.
    - intros h i Ht.
      destruct (decide (S (nextHandle w) = h)) as [<-|Hne1].
      { by rewrite lookup_insert_eq in Ht. }
      rewrite lookup_insert_ne in Ht by done.
      destruct (decide (nextHandle w = h)) as [<-|Hne2].
      + rewrite lookup_insert_eq in Ht. simplify_eq. right.
        eexists. rewrite lookup_insert_eq. split; [done|]. done.
      + rewrite lookup_insert_ne in Ht by done. by left.
    - intros h i pk Ht. left.
      destruct (decide (S (nextHandle w) = h)) as [<-|Hne1].
      { by rewrite lookup_insert_eq in Ht. }
      rewrite lookup_insert_ne in Ht by done.
      destruct (decide (nextHandle w = h)) as [<-|Hne2].
      + by rewrite lookup_insert_eq in Ht.
      + by rewrite lookup_insert_ne in Ht.
    - intros l Hl. by left.
    - intros p a Ha. by left.
    - intros i _. count_calls.
    - intros i _. count_calls.
  }
  { intros (Hcl & Hfresh & ->)%upgrade_refused.
    split; simpl.
    + intros i c Hc. destruct (decide (nextId w = i)) as [<-|Hne]; [congruence|].
      rewrite lookup_insert_ne by done. eauto 6.
    + intros i c Hc. destruct (decide (nextId w = i)) as [<-|Hne].
      * rewrite lookup_insert_eq in Hc. simplify_eq. right. simpl. split; [lia|].
        intros t. rewrite lookup_insert_eq. congruence.
      * rewrite lookup_insert_ne in Hc by done. left. eauto.
    + lia.
    + lia.
    + intros h t Ht.
      destruct (decide (nextHandle w = h)) as [<-|Hne2]; [right; lia|].
      rewrite lookup_insert_ne in Ht by done. by left.
    + intros i [Hi|Hi].
      * apply elem_of_union in Hi as [Hi|Hi]; [|by left; left].
        apply elem_of_singleton in Hi as ->. right. lia.
      * destruct (decide (nextId w = i)) as [<-|Hne]; [right; lia|].
        rewrite lookup_insert_ne in Hi by done. left. by right.
    + intros h i Ht.
      destruct (decide (nextHandle w = h)) as [<-|Hne2].
      * rewrite lookup_insert_eq in Ht. simplify_eq. right.
        eexists. rewrite lookup_insert_eq. split; [done|]. done.
      * rewrite lookup_insert_ne in Ht by done. by left.
    + intros h i pk Ht. left.
      destruct (decide (nextHandle w = h)) as [<-|Hne2].
      * by rewrite lookup_insert_eq in Ht.
      * by rewrite lookup_insert_ne in Ht.
    + intros l Hl. by left.
    + intros p a Ha. by left.
    + done.
    + done. }
Qed.

End Growth.

Section Turns.

Context (env : Env).

Lemma is_lookup_other i j pubkey :
  i <> j -> is_lookup i (GetBalance j pubkey) = false
            /\ is_prompt i (GetBalance j pubkey) = false.
Proof. intros Hne. simpl. split; [by apply Nat.eqb_neq|done]. Qed.

Lemma is_prompt_other i j pubkey :
  i <> j -> is_lookup i (AskForCollateral j pubkey) = false
            /\ is_prompt i (AskForCollateral j pubkey) = false.
Proof. intros Hne. simpl. split; [done|by apply Nat.eqb_neq]. Qed.

(** The message handler. *)
Lemma on_message_turn i data w :
  Inv w -> turn w (settle w (on_message env i data w)).
Proof.
  intros HI. unfold on_message.
  destruct (heap w !! i) as [c|] eqn:Hc; [|apply turn_None, evolves_refl].
  assert (Henq : turn w (enqueue i c data w)).
  { apply turn_None. by eapply evolves_put. }
  destruct (negb (authenticated (ws c)) && includes data (quoted "AUTH")) eqn:Hcond;
    [|exact Henq].
  apply andb_prop in Hcond as [Hauth%negb_true_iff _].
  destruct (JSON_parse env data) as [msg|]; cbn [of_option bind settle];
    [|apply turn_None, evolves_refl].
  destruct (truthy (Some msg) && is_string (index msg 0) "AUTH"); [|exact Henq].
  assert (Hvalid : exists b,
    (if typeof_object (index msg 1)
     then validateAuthEvent env (index msg 1) (ws c) else Ret false) = Ret b).
  { destruct (typeof_object (index msg 1)); [|by eauto].
    rewrite validateAuthEvent_catch. eauto. }
  destruct Hvalid as [valid ->]. cbn [bind].
  destruct valid; cbn [negb]; [|apply turn_None, evolves_settle_close].
  destruct (prop (index msg 1) "pubkey") as [pubkey|]; cbn [of_option bind settle];
    [|apply turn_None, evolves_refl].
  destruct (is_string pubkey (bot_publicKey env)); cbn [settle].
  { apply turn_None. by eapply evolves_put. }
  assert (Hnot : ~ admitted i w).
  { intros (c' & Hc' & Ha'). simplify_eq. congruence. }
  assert (Hquiet : ~ engaged i w).
  { intros He. by apply Hnot, (inv_admitted _ HI). }
  exists (Some i). split.
  - eapply evolves_trans_l.
    + eapply (evolves_put i c (set_ws (set_authenticated true (ws c)) c)); done.
    + apply evolves_suspend; [done|]. intros j Hj. by apply is_lookup_other.
  - intros j [= <-]. split; [|split].
    + intros [Ha _]. done.
    + eexists. simpl. rewrite lookup_insert_eq. done.
    + intros p pk Hp. simpl in Hp. repeat split; simpl.
      * rewrite payment_prompts_app, (not_engaged_prompts i w Hquiet). done.
      * intros p' a Ha Ho.
        assert (Hold : forall q b, awaits w !! q = Some b -> await_owner b <> i).
        { intros q b Hb Hob. apply Hquiet. right. right. left. by exists q, b. }
        destruct (decide (nextHandle w = p')) as [<-|Hne'];
          destruct (decide (nextHandle w = p)) as [<-|Hne]; try done.
        -- rewrite lookup_insert_ne in Hp by done. by destruct (Hold _ _ Hp).
        -- rewrite lookup_insert_ne in Ha by done. by destruct (Hold _ _ Ha).
        -- rewrite lookup_insert_ne in Ha by done. by destruct (Hold _ _ Ha).
      * intros Ht. apply Hquiet. right. right. right. by left.
      * intros Hl. apply Hquiet. right. right. right. by right.
Qed.

(** A handler that resumes. *)
Lemma resume_turn p a o w :
  Inv w -> awaits w !! p = Some a ->
  let w1 := set_awaits (delete p (awaits w)) w in
  turn w (settle w1 (resume env a o w1)).
Proof.
  intros HI Hp w1.
  assert (Hev1 : evolves None w w1) by apply evolves_delete_await.
  assert (Hengaged : engaged (await_owner a) w).
  { right. right. left. by exists p, a. }
  assert (Hadm : admitted (await_owner a) w) by by apply (inv_admitted _ HI).
  assert (Hns : ~ settled (await_owner a) w).
  { intros (_ & Hn & _). apply Hn. by exists p, a. }
  destruct a as [i pubkey|i pubkey|i pubkey]; simpl in *.
  - destruct o as [balance|]; simpl; [|by apply turn_None].
    destruct (sufficient env balance); simpl.
    { apply turn_None. eapply evolves_trans; [done|apply evolves_fund]. }
    exists (Some i). split.
    + eapply evolves_trans_l; [done|].
      apply evolves_suspend; [done|]. intros j Hj. by apply is_prompt_other.
    + intros j [= <-]. split; [done|]. split.
      * destruct Hadm as (c & Hc & Ha). by exists c.
      * intros p' pk Hp'. simpl in Hp'. exfalso.
        destruct (decide (nextHandle w = p')) as [<-|Hne].
        { by rewrite lookup_insert_eq in Hp'. }
        rewrite lookup_insert_ne in Hp' by done.
        apply lookup_delete_Some in Hp' as [Hpp Hp'].
        destruct (inv_flow _ HI _ _ _ Hp) as (_ & Huniq & _).
        by specialize (Huniq _ _ Hp' eq_refl).
  - destruct o as [balance|]; simpl;
      [|apply turn_None; eapply evolves_trans; [done|apply evolves_settle_close]].
    exists (Some i). split.
    + eapply evolves_trans_l; [done|]. apply (evolves_await_payment i pubkey w1).
    + intros j [= <-]. split; [done|]. split.
      * destruct Hadm as (c & Hc & Ha). by exists c.
      * intros p' pk Hp'. simpl in Hp'. exfalso.
        apply lookup_delete_Some in Hp' as [Hpp Hp'].
        destruct (inv_flow _ HI _ _ _ Hp') as (_ & Huniq & _).
        by specialize (Huniq _ _ Hp eq_refl).
  - apply turn_None. destruct o as [balance|]; simpl; [|done].
    destruct (sufficient env balance); simpl.
    + eapply evolves_trans; [done|apply evolves_fund].
    + eapply evolves_trans; [done|apply evolves_settle_close].
Qed.

(** A timer that fires. *)
Lemma fire_turn h w w' : Inv w -> fire env h w = Some w' -> turn w w'.
Proof.
  intros HI. unfold fire.
  destruct (timers w !! h) as [[i|i|i pubkey]|] eqn:Ht; [| | |done].
  - destruct (heap w !! i) as [c|] eqn:Hc; [|done].
    pose proof (drainMessageQueue_frame env c) as (H1 & H2 & _ & _ & _ & H6).
    destruct (drainMessageQueue env c) as [[k c'] tr]. simpl in *.
    assert (Hev : evolves None w (emit tr (put i c' w))).
    { eapply evolves_trans; [eapply (evolves_put i c c')|by apply evolves_emit];
        [done|done|by rewrite H2|by rewrite H2]. }
    destruct k; intros [= <-]; apply turn_None; [done|].
    eapply evolves_trans; [done|apply evolves_set_crashed].
  - destruct (heap w !! i) as [c|] eqn:Hc; [|done].
    destruct (authenticated (ws c)); intros [= <-]; apply turn_None.
    + apply evolves_delete_timer.
    + eapply evolves_trans; [apply evolves_delete_timer|apply evolves_settle_close].
  - destruct (heap w !! i) as [c|] eqn:Hc; [|done].
    destruct (funded (ws c)); intros [= <-].
    { apply turn_None, evolves_delete_timer. }
    assert (Hpt : has_payment_timer i w) by by exists h, pubkey.
    exists (Some i). split.
    + eapply evolves_trans_l; [apply evolves_delete_timer|].
      apply evolves_suspend; [done|]. intros j Hj. by apply is_lookup_other.
    + intros j [= <-]. split; [|split].
      * intros (_ & _ & Hn & _). done.
      * assert (Hadm : admitted i w).
        { apply (inv_admitted _ HI). right. right. right. by left. }
        destruct Hadm as (c0 & Hc0 & Ha). by exists c0.
      * intros p' pk Hp'. simpl in Hp'. exfalso.
        destruct (decide (nextHandle w = p')) as [<-|Hne].
        { by rewrite lookup_insert_eq in Hp'. }
        rewrite lookup_insert_ne in Hp' by done.
        by destruct (inv_flow _ HI _ _ _ Hp') as (_ & _ & Hnt & _).
Qed.

(** Every turn of the event loop. *)
Lemma step_turn ev w w' : Inv w -> step env ev w = Some w' -> turn w w'.
Proof.
  intros HI. unfold step. destruct (crashed w); [done|].
  destruct ev as [challenge| |i|i data|i|i data|i|h|p o|pubKey].
  - intros H. by eapply turn_None, evolves_upgrade.
  - intros H. by eapply turn_None, evolves_upgrade.
  - destruct (heap w !! i) as [c|] eqn:Hc; [|done].
    destruct (relay c); try done. intros [= <-].
    apply turn_None. by eapply evolves_put.
  - destruct (heap w !! i) as [c|] eqn:Hc; [|done]. intros [= <-].
    apply turn_None. by eapply evolves_put.
  - destruct (heap w !! i) as [c|] eqn:Hc; [|done]. intros [= <-].
    apply turn_None.
    eapply evolves_trans; [|apply evolves_settle_close]. by eapply evolves_put.
  - destruct (heap w !! i) as [c|] eqn:Hc; [|done].
    destruct (getWs c) as [s|] eqn:Hs; [|done]. intros [= <-].
    by apply on_message_turn.
  - destruct (heap w !! i) as [c|] eqn:Hc; [|done].
    destruct (getWs c) as [s|] eqn:Hs; [|done]. intros [= <-].
    apply turn_None.
    eapply evolves_trans; [|apply evolves_settle_close].
    eapply evolves_put; [done|done|..]; by rewrite (socket_ws c s Hs).
  - by apply fire_turn.
  - destruct (awaits w !! p) as [a|] eqn:Hp; [|done]. intros [= <-].
    by apply resume_turn.
  - intros [= <-]. apply turn_None, evolves_paid.
Qed.

End Turns.

(** Whatever the admission flow holds for a connection other than the one
    that moved was there before. *)
Lemma engaged_before oj i w w' :
  evolves oj w w' -> oj <> Some i -> engaged i w' -> engaged i w.
Proof.
  intros Hev Hne [H|[H|[(p & a & Ha & Ho)|[(h & pk & Ht)|(l & Hl & Ho)]]]].
  - left. by rewrite <- (ev_lookups _ _ _ Hev i Hne).
  - right. left. by rewrite <- (ev_prompts _ _ _ Hev i Hne).
  - right. right. left. destruct (ev_awaits _ _ _ Hev _ _ Ha) as [?|?]; [|congruence].
    by exists p, a.
  - right. right. right. left.
    destruct (ev_timers _ _ _ Hev _ _ _ Ht) as [?|?]; [|congruence]. by exists h, pk.
  - right. right. right. right.
    destruct (ev_listeners _ _ _ Hev _ Hl) as [?|?]; [|congruence]. by exists l.
Qed.

Lemma first_lookup_evolves oj i p w w' :
  evolves oj w w' -> oj <> Some i -> first_lookup i p w -> first_lookup i p w'.
Proof.
  intros Hev Hne (Hp & Huniq & Hnt & Hnl). repeat split.
  - by rewrite (ev_prompts _ _ _ Hev i Hne).
  - intros p' a Ha Ho. destruct (ev_awaits _ _ _ Hev _ _ Ha) as [?|?]; [|congruence].
    by eapply Huniq.
  - intros (h & pk & Ht). apply Hnt.
    destruct (ev_timers _ _ _ Hev _ _ _ Ht) as [?|?]; [|congruence]. by exists h, pk.
  - intros (l & Hl & Ho). apply Hnl.
    destruct (ev_listeners _ _ _ Hev _ Hl) as [?|?]; [|congruence]. by exists l.
Qed.

(** The invariant survives every turn. *)
Lemma turn_Inv w w' : Inv w -> turn w w' -> Inv w'.
Proof.
  intros HI (oj & Hev & Hj).
  pose proof (ev_nextId _ _ _ Hev). pose proof (ev_nextHandle _ _ _ Hev).
  split.
  - intros i Hi. destruct (ev_fresh _ _ _ Hev _ Hi) as [Hi'|?]; [|done].
    pose proof (inv_fresh _ HI _ Hi'). lia.
  - intros h i Ht. destruct (ev_drain _ _ _ Hev _ _ Ht) as [Ht'|?]; [|done].
    destruct (inv_drain _ HI _ _ Ht') as (c & Hc & Hh).
    destruct (ev_heap _ _ _ Hev _ _ Hc) as (c' & Hc' & Ht2 & _).
    exists c'. split; [done|congruence].
  - intros i c' Hc'. destruct (ev_origin _ _ _ Hev _ _ Hc') as [(c & Hc & Ht)|[? _]];
      [|done].
    pose proof (inv_handle _ HI _ _ Hc). lia.
  - intros i c' t Hc' Ht.
    destruct (ev_origin _ _ _ Hev _ _ Hc') as [(c & Hc & Hto)|[_ Hd]]; [|by apply Hd].
    destruct (ev_handles _ _ _ Hev _ _ Ht) as [Ht'|Hge].
    + rewrite Hto in Ht'. by eapply (inv_timeout _ HI).
    + pose proof (inv_handle _ HI _ _ Hc). lia.
  - intros i He. destruct (decide (oj = Some i)) as [Hoj|Hne].
    + by destruct (Hj i Hoj) as (_ & ? & _).
    + eapply admitted_evolves; [done|].
      apply (inv_admitted _ HI). by eapply engaged_before.
  - intros p i pk Hp. destruct (decide (oj = Some i)) as [Hoj|Hne].
    + destruct (Hj i Hoj) as (_ & _ & Hf). by eapply Hf.
    + destruct (ev_awaits _ _ _ Hev _ _ Hp) as [Hp'|?]; [|simpl in *; congruence].
      eapply first_lookup_evolves; [done|done|]. by eapply (inv_flow _ HI).
Qed.

Lemma Inv_init : Inv init.
Proof.
  split; simpl.
  - intros i [Hi|[c Hc]]; [set_solver|by rewrite lookup_empty in Hc].
  - intros h i Ht. by rewrite lookup_empty in Ht.
  - intros i c Hc. by rewrite lookup_empty in Hc.
  - intros i c t Hc. by rewrite lookup_empty in Hc.
  - intros i [H|[H|[(p & a & Ha & _)|[(h & pk & Ht)|(l & Hl & _)]]]].
    + unfold balance_lookups in H. simpl in H. lia.
    + unfold payment_prompts in H. simpl in H. lia.
    + simpl in Ha. by rewrite lookup_empty in Ha.
    + simpl in Ht. by rewrite lookup_empty in Ht.
    + simpl in Hl. by apply elem_of_nil in Hl.
  - intros p i pk Hp. by rewrite lookup_empty in Hp.
Qed.

Section Runs.

Context (env : Env).

Lemma run_app evs1 evs2 w :
  run env (evs1 ++ evs2) w
  = match run env evs1 w with
    | Some w1 => run env evs2 w1
    | None => None
    end.
Proof.
  revert w. induction evs1 as [|ev evs1 IH]; intros w; simpl; [done|].
  destruct (step env ev w); [apply IH|done].
Qed.

Lemma run_Inv evs w w' : Inv w -> run env evs w = Some w' -> Inv w'.
Proof.
  revert w. induction evs as [|ev evs IH]; intros w HI; simpl.
  - by intros [= <-].
  - destruct (step env ev w) as [w1|] eqn:Hs; [|done].
    apply IH. eapply turn_Inv; [done|]. by eapply step_turn.
Qed.

Lemma reachable_Inv w : reachable env w -> Inv w.
Proof. intros [evs Hr]. eapply run_Inv; [apply Inv_init|done]. Qed.

Lemma reachable_run evs w w' :
  reachable env w -> run env evs w = Some w' -> reachable env w'.
Proof.
  intros [evs0 Hr] Hrun. exists (evs0 ++ evs). by rewrite run_app, Hr.
Qed.

(** An upgrade request can always be handled while the process lives:
    the next id is fresh. *)
Lemma upgrade_enabled handshake w :
  reachable env w -> is_Some (upgrade handshake w).
Proof.
  intros HI%reachable_Inv. unfold upgrade.
  assert (Hcl : nextId w ∉ clients w).
  { intros Hin. pose proof (inv_fresh _ HI (nextId w) (or_introl Hin)). lia. }
  rewrite bool_decide_eq_false_2 by done.
  destruct (heap w !! nextId w) eqn:Hh; [|by destruct handshake; eauto].
  pose proof (inv_fresh _ HI (nextId w) (or_intror (mk_is_Some _ _ Hh))). lia.
Qed.

(** Once a connection is settled it stays settled, and neither the
    balance lookup nor the bot is called for it again. *)
Lemma turn_settled i w w' :
  settled i w -> turn w w' ->
  settled i w' /\
  balance_lookups i (log w') = balance_lookups i (log w) /\
  payment_prompts i (log w') = payment_prompts i (log w).
Proof.
  intros Hs (oj & Hev & Hj).
  assert (Hne : oj <> Some i).
  { intros Hoj. by destruct (Hj i Hoj) as (Hn & _). }
  destruct Hs as (Ha & Hna & Hnt & Hnl).
  split; [|split].
  - split; [by eapply admitted_evolves|]. repeat split.
    + intros (p & a & Hp & Ho). apply Hna.
      destruct (ev_awaits _ _ _ Hev _ _ Hp) as [?|?]; [|congruence]. by exists p, a.
    + intros (h & pk & Ht). apply Hnt.
      destruct (ev_timers _ _ _ Hev _ _ _ Ht) as [?|?]; [|congruence]. by exists h, pk.
    + intros (l & Hl & Ho). apply Hnl.
      destruct (ev_listeners _ _ _ Hev _ Hl) as [?|?]; [|congruence]. by exists l.
  - by apply (ev_lookups _ _ _ Hev).
  - by apply (ev_prompts _ _ _ Hev).
Qed.

Lemma run_settled evs i w w' :
  Inv w -> settled i w -> run env evs w = Some w' ->
  settled i w' /\
  balance_lookups i (log w') = balance_lookups i (log w) /\
  payment_prompts i (log w') = payment_prompts i (log w).
Proof.
  revert w. induction evs as [|ev evs IH]; intros w HI Hs; simpl.
  - by intros [= <-].
  - destruct (step env ev w) as [w1|] eqn:Hstep; [|done]. intros Hrun.
    pose proof (step_turn env _ _ _ HI Hstep) as Ht.
    destruct (turn_settled _ _ _ Hs Ht) as (Hs1 & Hl1 & Hp1).
    destruct (IH w1 (turn_Inv _ _ HI Ht) Hs1 Hrun) as (Hs2 & Hl2 & Hp2).
    split; [done|]. split; congruence.
Qed.

End Runs.

(** ** Admission: the operator bypass and a sufficient balance *)


Lemma not_admitted_quiet i c w :
  Inv w -> heap w !! i = Some c -> authenticated (ws c) = false -> ~ engaged i w.
Proof.
  intros HI Hc Ha He. destruct (inv_admitted _ HI _ He) as (c' & Hc' & Ha').
  simplify_eq. congruence.
Qed.

Lemma not_engaged_lookups i w :
  ~ engaged i w -> balance_lookups i (log w) = 0%nat.
Proof.
  intros H. destruct (balance_lookups i (log w)) eqn:E; [done|].
  exfalso. apply H. left. lia.
Qed.




(** C7, counterexample.  With no collateral required, a balance of 0 is
    at least the required collateral, yet the connection is not marked
    funded and the bot is asked to send a payment prompt. *)
Lemma zero_balance_is_prompted_for_payment :
  let w := Sample.after Sample.free_env (Sample.authenticate "ab") in
  let w1 := default w (step Sample.free_env (Settled 2 (Fulfilled (Some 0))) w) in
  awaits w !! 2%nat = Some (AwaitBalanceAuth 1 (Some (JStr "ab"))) /\
  collateralRequired Sample.free_env <= 0 /\
  (funded ∘ ws <$> heap w1 !! 1%nat) = Some false /\
  payment_prompts 1 (log w1) = 1%nat /\
  awaits w1 !! 3%nat = Some (AwaitDM 1 (Some (JStr "ab"))).
Proof. vm_compute. repeat split; discriminate. Qed.

(** C7, amended.  When the balance lookup that follows the authentication
    of a connection returns a balance that is not zero and is at least the
    required collateral, the connection is marked funded and the payment
    path is never taken for it: the bot is never asked for a payment
    prompt, and the connection never has a payment timer or a payment
    waiter. *)
Theorem sufficient_balance_skips_payment
    (env : Env) (w : World) (p i : nat) (pubkey : value) (balance : Z) :
  reachable env w -> crashed w = false ->
  awaits w !! p = Some (AwaitBalanceAuth i pubkey) ->
  balance <> 0 -> collateralRequired env <= balance ->
  exists w1 c1,
    step env (Settled p (Fulfilled (Some balance))) w = Some w1 /\
    heap w1 !! i = Some c1 /\ funded (ws c1) = true /\
    forall evs w2, run env evs w1 = Some w2 ->
      payment_prompts i (log w2) = 0%nat /\
      ~ has_payment_timer i w2 /\ ~ has_waiter i w2.
Proof.
  intros Hreach Hlive Hp Hnz Hge.
  pose proof (reachable_Inv env w Hreach) as HI.
  destruct (inv_flow _ HI _ _ _ Hp) as (Hprompts & Huniq & Hnt & Hnl).
  assert (Hadm : admitted i w).
  { apply (inv_admitted _ HI). right. right. left. by exists p, (AwaitBalanceAuth i pubkey). }
  destruct Hadm as (c & Hc & Ha).
  set (w0 := set_awaits (delete p (awaits w)) w).
  set (c1 := set_ws (set_funded true (ws c)) c).
  assert (Hsuff : sufficient env (Some balance) = true).
  { unfold sufficient. apply andb_true_intro. split.
    - apply negb_true_iff. by apply Z.eqb_neq.
    - by apply Z.leb_le. }
  assert (Hstep : step env (Settled p (Fulfilled (Some balance))) w = Some (put i c1 w0)).
  { unfold step. rewrite Hlive, Hp. cbn [resume]. rewrite Hsuff. cbn [settle].
    unfold fund. fold w0. replace (heap w0 !! i) with (Some c) by done. done. }
  exists (put i c1 w0), c1. split; [done|]. split; [apply lookup_insert_eq|].
  split; [done|].
  intros evs w2 Hrun.
  assert (HI1 : Inv (put i c1 w0)).
  { eapply turn_Inv; [done|]. by eapply step_turn. }
  assert (Hs : settled i (put i c1 w0)).
  { split; [exists c1; split; [apply lookup_insert_eq|done]|].
    repeat split.
    - intros (p' & a & Hp' & Ho). simpl in Hp'.
      apply lookup_delete_Some in Hp' as [Hne Hp'].
      by specialize (Huniq _ _ Hp' Ho).
    - done.
    - done. }
  destruct (run_settled env evs i _ _ HI1 Hs Hrun) as ((_ & _ & Ht & Hl) & _ & Hpr).
  split; [|done]. by rewrite Hpr.
Qed.

Lemma sufficient_balance_skips_payment_witness :
  exists w1 c1,
    step Sample.env (Settled 2 (Fulfilled (Some 21)))
      (Sample.after Sample.env (Sample.authenticate "ab")) = Some w1 /\
    heap w1 !! 1%nat = Some c1 /\ funded (ws c1) = true /\
    forall evs w2, run Sample.env evs w1 = Some w2 ->
      payment_prompts 1 (log w2) = 0%nat /\
      ~ has_payment_timer 1 w2 /\ ~ has_waiter 1 w2.
Proof.
  apply (sufficient_balance_skips_payment Sample.env
           (Sample.after Sample.env (Sample.authenticate "ab")) 2 1
           (Some (JStr "ab")) 21).
  - exists (Sample.authenticate "ab"). vm_compute. reflexivity.
  - vm_compute. reflexivity.
  - vm_compute. reflexivity.
  - lia.
  - simpl. lia.
Defined.

(** ** The flags of a connection *)

Lemma run_flags (env : Env) evs w w' i c :
  Inv w -> run env evs w = Some w' -> heap w !! i = Some c ->
  exists c', heap w' !! i = Some c' /\
    (authenticated (ws c) = true -> authenticated (ws c') = true) /\
    (funded (ws c) = true -> funded (ws c') = true).
Proof.
  revert w c. induction evs as [|ev evs IH]; intros w c HI; simpl.
  - intros [= <-] Hc. eauto.
  - destruct (step env ev w) as [w1|] eqn:Hstep; [|done]. intros Hrun Hc.
    pose proof (step_turn env _ _ _ HI Hstep) as Ht.
    pose proof (turn_Inv _ _ HI Ht) as HI1.
    destruct Ht as (oj & Hev & _).
    destruct (ev_heap _ _ _ Hev _ _ Hc) as (c1 & Hc1 & _ & Ha1 & Hf1).
    destruct (IH w1 c1 HI1 Hrun Hc1) as (c' & Hc' & Ha' & Hf').
    exists c'. split; [done|]. split; auto.
Qed.

(** C9.  The flags of a connection only ever go from false to true:
    whatever happens to the process afterwards (drain ticks, timers,
    settled promises, the webhook, teardown), a connection that is
    authenticated stays authenticated and one that is funded stays
    funded. *)
Theorem flags_are_never_reset
    (env : Env) (evs : list Event) (w w' : World) (i : nat) (c : ClientObj) :
  reachable env w -> run env evs w = Some w' -> heap w !! i = Some c ->
  exists c', heap w' !! i = Some c' /\
    (authenticated (ws c) = true -> authenticated (ws c') = true) /\
    (funded (ws c) = true -> funded (ws c') = true).
Proof. intros Hr. apply run_flags. by eapply reachable_Inv. Qed.

Lemma flags_are_never_reset_witness :
  exists c', heap (Sample.after Sample.env
                     (Sample.authenticate "b07"
                      ++ [TimerFired 0; Paid "ab"; WsClosed 1; TimerFired 1]))
             !! 1%nat = Some c' /\
    (true = true -> authenticated (ws c') = true) /\
    (true = true -> funded (ws c') = true).
Proof.
  apply (flags_are_never_reset Sample.env
           [TimerFired 0; Paid "ab"; WsClosed 1; TimerFired 1]
           (Sample.after Sample.env (Sample.authenticate "b07")) _ 1
           (mkClient 1 [] [] 0 false (Some (mkWs true true "c0ffee" OPEN)) CONNECTING)).
  - exists (Sample.authenticate "b07"). vm_compute. reflexivity.
  - vm_compute. reflexivity.
  - vm_compute. reflexivity.
Defined.

(** ** What teardown cancels *)

Lemma closeConnection_idempotent_witness :
  (let c := mkClient 1 [] [] 0 false (Some (mkWs false false "c0ffee" OPEN))
              CONNECTING in
   let w := Sample.after Sample.env Sample.connect in
   exists w1,
     closeConnection Sample.env 1 w = Ret w1 /\
     (is_Some (getWs c) ->
      log w1 = log w ++ [ClearInterval (timeout c); DeleteClient (id c);
                         WsClose 1; RelayClose 1]) /\
     (getWs c = None ->
      log w1 = log w ++ [ClearInterval (timeout c); DeleteClient (id c);
                         RelayClose 1]) /\
     clients w1 = clients w ∖ {[id c]} /\
     (exists c1, heap w1 !! 1%nat = Some c1 /\ closed c1 = true) /\
     closeConnection Sample.env 1 w1 = Ret w1) /\
  (let c := mkClient 1 [] [] 0 false None CONNECTING in
   let w := Sample.after Sample.env Sample.refused in
   exists w1,
     closeConnection Sample.env 1 w = Ret w1 /\
     (is_Some (getWs c) ->
      log w1 = log w ++ [ClearInterval (timeout c); DeleteClient (id c);
                         WsClose 1; RelayClose 1]) /\
     (getWs c = None ->
      log w1 = log w ++ [ClearInterval (timeout c); DeleteClient (id c);
                         RelayClose 1]) /\
     clients w1 = clients w ∖ {[id c]} /\
     (exists c1, heap w1 !! 1%nat = Some c1 /\ closed c1 = true) /\
     closeConnection Sample.env 1 w1 = Ret w1).
Proof.
  split.
  - apply (closeConnection_idempotent Sample.env 1
             (mkClient 1 [] [] 0 false (Some (mkWs false false "c0ffee" OPEN))
                CONNECTING)
             (Sample.after Sample.env Sample.connect)).
    + vm_compute. reflexivity.
    + reflexivity.
  - apply (closeConnection_idempotent Sample.env 1
             (mkClient 1 [] [] 0 false None CONNECTING)
             (Sample.after Sample.env Sample.refused)).
    + vm_compute. reflexivity.
    + reflexivity.
Defined.

(** C4, counterexample.  A connection is waiting for payment when its
    client goes away.  After teardown the drain timer (handle 0) is gone,
    but the authentication timer (handle 1), the payment timer (handle 4)
    and the payment waiter are still there; the payment timer then fires
    and looks the balance up once more, and the webhook marks the closed
    connection funded. *)
Lemma teardown_leaves_payment_timer_and_waiter :
  let w := Sample.after Sample.env Sample.awaiting_payment in
  let w1 := settle w (closeConnection Sample.env 1 w) in
  (closed <$> heap w1 !! 1%nat) = Some true /\
  timers w1 !! 0%nat = None /\
  timers w1 !! 1%nat = Some (AuthTimer 1) /\
  timers w1 !! 4%nat = Some (PaymentTimer 1 (Some (JStr "ab"))) /\
  listeners w1 = [mkListener "ab.paid" 1 4] /\
  (log <$> step Sample.env (TimerFired 4) w1)
  = Some (log w1 ++ [GetBalance 1 (Some (JStr "ab"))]) /\
  (funded ∘ ws <$> heap w1 !! 1%nat) = Some false /\
  (funded ∘ ws <$> heap (paid "ab" w1) !! 1%nat) = Some true.
Proof. vm_compute. repeat split. Qed.

(** C4, amended.  After teardown of a connection completes, its drain
    timer is cancelled.  Nothing else is: every other pending timer (the
    authentication timer and the payment timer among them), every
    registered payment waiter and every suspended handler is left in
    place. *)
Theorem teardown_cancels_the_drain_timer_only
    (env : Env) (w : World) (i : nat) (c : ClientObj) :
  reachable env w -> heap w !! i = Some c -> closed c = false ->
  exists w1,
    closeConnection env i w = Ret w1 /\
    (forall h, timers w1 !! h <> Some (DrainTimer i)) /\
    (forall h t, t <> DrainTimer i -> timers w !! h = Some t -> timers w1 !! h = Some t) /\
    listeners w1 = listeners w /\ awaits w1 = awaits w.
Proof.
  intros HI%reachable_Inv Hc Hopen. eexists.
  split; [by apply closeConnection_open|]. simpl. repeat split.
  - intros h Ht. apply lookup_delete_Some in Ht as [Hne Ht].
    destruct (inv_drain _ HI _ _ Ht) as (c' & Hc' & Hh). by simplify_eq.
  - intros h t Hnd Ht. apply lookup_delete_Some. split; [|done].
    intros <-. by pose proof (inv_timeout _ HI _ _ _ Hc Ht).
Qed.

Lemma teardown_cancels_the_drain_timer_only_witness :
  exists w1,
    closeConnection Sample.env 1 (Sample.after Sample.env Sample.awaiting_payment)
    = Ret w1 /\
    (forall h, timers w1 !! h <> Some (DrainTimer 1)) /\
    (forall h t, t <> DrainTimer 1 ->
       timers (Sample.after Sample.env Sample.awaiting_payment) !! h = Some t ->
       timers w1 !! h = Some t) /\
    listeners w1 = listeners (Sample.after Sample.env Sample.awaiting_payment) /\
    awaits w1 = awaits (Sample.after Sample.env Sample.awaiting_payment).
Proof.
  apply (teardown_cancels_the_drain_timer_only Sample.env
           (Sample.after Sample.env Sample.awaiting_payment) 1
           (mkClient 1 [] [] 0 false (Some (mkWs true false "c0ffee" OPEN)) CONNECTING)).
  - exists Sample.awaiting_payment. vm_compute. reflexivity.
  - vm_compute. reflexivity.
  - reflexivity.
Defined.

(** * Further properties of the code *)

(** ** The drain loop on every input *)

Section DrainMore.

Context (env : Env).

Lemma spam_check_relabel i j event :
  spam_check env i event = None -> spam_check env j event = None.
Proof.
  unfold spam_check. intros H.
  repeat (case_match; simplify_eq); done.
Qed.

(** Whatever the upstream loop hands to the relay is, in order, what it
    has popped: the trace grows by a prefix of the stack. *)
Lemma upstream_loop_prefix i is_funded stack reAdd tr :
  let r := upstream_loop env i is_funded stack reAdd tr in
  exists taken,
    relay_sends (up_trace r) = relay_sends tr ++ taken /\
    taken `prefix_of` stack.
Proof.
  revert reAdd tr. induction stack as [|data rest IH]; intros reAdd tr; simpl.
  - exists []. by rewrite app_nil_r.
  - assert (Hstop : exists taken : list Frame,
              relay_sends tr = relay_sends tr ++ taken /\ taken `prefix_of` data :: rest).
    { exists []. rewrite app_nil_r. split; [done|apply prefix_nil]. }
    destruct (truthy_frame data); [|done].
    destruct is_funded.
    + destruct (JSON_parse env data) as [event|]; [|done].
      destruct (spam_check env i event) as [spam|] eqn:Hs; [|done].
      destruct (IH reAdd (tr ++ spam ++ [RelaySend i data])) as (taken & Ht & Hp).
      exists (data :: taken). split; [|by apply prefix_cons].
      rewrite Ht, !relay_sends_app.
      destruct (spam_check_sends env _ _ _ Hs) as [-> _]. simpl.
      by rewrite <- app_assoc.
    + destruct (JSON_parse env data) as [event|]; [|done].
      destruct (IH (if deferred event then push reAdd data else reAdd)
                  (tr ++ [RelaySend i data])) as (taken & Ht & Hp).
      exists (data :: taken). split; [|by apply prefix_cons].
      rewrite Ht, relay_sends_app. simpl. by rewrite <- app_assoc.
Qed.

Lemma downstream_loop_prefix i stack tr :
  exists taken,
    ws_sends (downstream_loop i stack tr).2 = ws_sends tr ++ taken /\
    relay_sends (downstream_loop i stack tr).2 = relay_sends tr /\
    taken `prefix_of` stack.
Proof.
  revert tr. induction stack as [|data rest IH]; intros tr; simpl.
  - exists []. by rewrite app_nil_r.
  - destruct (truthy_frame data).
    + destruct (IH (tr ++ [WsSend i data])) as (taken & Ht & Hr & Hp).
      exists (data :: taken). split; [|split; [|by apply prefix_cons]].
      * rewrite Ht, ws_sends_app. simpl. by rewrite <- app_assoc.
      * rewrite Hr, relay_sends_app. simpl. by rewrite app_nil_r.
    + exists []. simpl. rewrite app_nil_r. split; [done|]. split; [done|apply prefix_nil].
Qed.

End DrainMore.

(** X1.  A drain tick sends nothing of its own: what it hands to the
    relay is an initial part of the upstream queue read from its end, and
    what it hands to the client is an initial part of the downstream queue
    read from its end.  No client frame goes back to the client and no
    relay frame back to the relay. *)
Theorem drain_sends_only_queued_frames (env : Env) (c : ClientObj) :
  let r := drainMessageQueue env c in
  relay_sends r.2 `prefix_of` rev (queueUpstream c) /\
  ws_sends r.2 `prefix_of` rev (queueDownstream c).
Proof.
  destruct (getWs c) as [s|] eqn:Hs;
    [|rewrite (drainMessageQueue_no_socket env c Hs); split; apply prefix_nil].
  drain_with Hs.
  destruct (authenticated (ws c)); simpl; [|split; apply prefix_nil].
  assert (Hup : relay_sends (drain_upstream env c).2 `prefix_of` rev (queueUpstream c)).
  { unfold drain_upstream. destruct (is_open (relay c)); [|apply prefix_nil].
    destruct (upstream_loop_prefix env (id c) (funded (ws c))
                (rev (queueUpstream c)) [] []) as (taken & Ht & Hp).
    simpl in Ht. destruct (up_completion _); simpl; by rewrite Ht. }
  pose proof (drain_upstream_ws_sends env c) as Hws.
  destruct (drain_upstream_queueDownstream env c) as [Hq Hsock].
  destruct (drain_upstream env c) as [[k c1] tr1]. simpl in *.
  destruct k; simpl; [|rewrite Hws; split; [done|apply prefix_nil]].
  unfold drain_downstream. destruct (is_open (readyState (ws c1))).
  - destruct (downstream_loop_prefix (id c1) (rev (queueDownstream c1)) [])
      as (taken & Ht & Hr & Hp).
    destruct (downstream_loop _ _ _) as [rest tr2]. simpl in *.
    rewrite relay_sends_app, ws_sends_app, Hws, Ht, Hr, app_nil_r, Hq in *.
    done.
  - simpl. rewrite app_nil_r, Hws. split; [done|apply prefix_nil].
Qed.

Section DrainUpstream.

Context (env : Env).

Lemma spam_calls_app (t1 t2 : list Action) :
  spam_calls (t1 ++ t2) = spam_calls t1 ++ spam_calls t2.
Proof. apply omap_app. Qed.

Lemma downstream_loop_other i stack tr :
  relay_sends (downstream_loop i stack tr).2 = relay_sends tr /\
  spam_calls (downstream_loop i stack tr).2 = spam_calls tr.
Proof.
  revert tr. induction stack as [|data rest IH]; intros tr; simpl; [done|].
  destruct (truthy_frame data); [|done].
  destruct (IH (tr ++ [WsSend i data])) as [-> ->].
  rewrite relay_sends_app, spam_calls_app. simpl. by rewrite !app_nil_r.
Qed.

(** The downstream phase leaves the outcome of the upstream phase alone. *)
Lemma drainMessageQueue_upstream (c : ClientObj) :
  authenticated (ws c) = true ->
  let r := drainMessageQueue env c in
  let u := drain_upstream env c in
  r.1.1 = u.1.1 /\ queueUpstream r.1.2 = queueUpstream u.1.2 /\
  relay_sends r.2 = relay_sends u.2 /\ spam_calls r.2 = spam_calls u.2.
Proof.
  intros Hauth. destruct (authenticated_socket c Hauth) as [s Hsock].
  drain_with Hsock. rewrite Hauth. simpl.
  destruct (drain_upstream env c) as [[k c1] tr1]. simpl.
  destruct k; [|done].
  unfold drain_downstream. destruct (is_open (readyState (ws c1))).
  - destruct (downstream_loop_other (id c1) (rev (queueDownstream c1)) []) as [Hr Hs].
    destruct (downstream_loop _ _ _) as [rest tr2]. simpl in *.
    by rewrite relay_sends_app, spam_calls_app, Hr, Hs, !app_nil_r.
  - simpl. by rewrite app_nil_r.
Qed.

(** On a connection that is not funded the loop never calls
    [processSpam]. *)
Lemma upstream_loop_unfunded_no_spam i stack reAdd tr :
  spam_calls (up_trace (upstream_loop env i false stack reAdd tr)) = spam_calls tr.
Proof.
  revert reAdd tr. induction stack as [|data rest IH]; intros reAdd tr; simpl; [done|].
  destruct (truthy_frame data); [|done].
  destruct (JSON_parse env data) as [event|]; [|done].
  rewrite IH, spam_calls_app. simpl. by rewrite app_nil_r.
Qed.

End DrainUpstream.

(** X2.  On a funded, authenticated connection whose relay link is open,
    a drain tick empties the upstream queue and hands every frame to the
    relay exactly once, last-queued first (each frame being non-empty
    JSON on which the spam check does not raise). *)
Theorem drain_funded_empties_upstream (env : Env) (c : ClientObj) :
  authenticated (ws c) = true -> funded (ws c) = true ->
  is_open (relay c) = true ->
  Forall (passes env true) (queueUpstream c) ->
  let r := drainMessageQueue env c in
  r.1.1 = Normal /\ relay_sends r.2 = rev (queueUpstream c) /\
  queueUpstream r.1.2 = [].
Proof.
  intros Hauth Hfund Hopen Hall.
  destruct (drainMessageQueue_upstream env c Hauth) as (Hk & Hq & Hr & _).
  rewrite <- Hfund in Hall.
  destruct (drain_upstream_sends env c Hopen Hall) as (tr & Hu & Hs & _).
  rewrite Hu, Hfund in *. simpl in *. by rewrite Hk, Hq, Hr.
Qed.

Lemma drain_funded_empties_upstream_witness :
  let c := Sample.conn true [Sample.req_frame; Sample.note_frame] [] in
  (drainMessageQueue Sample.env c).1.1 = Normal /\
  relay_sends (drainMessageQueue Sample.env c).2 = rev (queueUpstream c) /\
  queueUpstream (drainMessageQueue Sample.env c).1.2 = [].
Proof.
  apply (drain_funded_empties_upstream Sample.env
           (Sample.conn true [Sample.req_frame; Sample.note_frame] [])).
  - reflexivity.
  - reflexivity.
  - reflexivity.
  - repeat constructor; vm_compute; eauto.
Defined.

(** X3.  On an authenticated connection that is not funded, with the
    relay link open, a drain tick leaves in the upstream queue exactly the
    frames that parse to a truthy value whose first element is neither
    the string [REQ] nor the string [CLOSE], in the reverse of their
    former order.  [REQ] and [CLOSE] frames leave the queue, and so do
    frames that parse to [null], [false], [0] or the empty string. *)
Theorem drain_unfunded_keeps_other_frames (env : Env) (c : ClientObj) :
  authenticated (ws c) = true -> funded (ws c) = false ->
  is_open (relay c) = true ->
  Forall (passes env false) (queueUpstream c) ->
  let r := drainMessageQueue env c in
  r.1.1 = Normal /\
  queueUpstream r.1.2
  = List.filter
      (fun data =>
         match JSON_parse env data with
         | Some event =>
             truthy (Some event)
             && negb (is_string (index event 0) "REQ")
             && negb (is_string (index event 0) "CLOSE")
         | None => false
         end)
      (rev (queueUpstream c)).
Proof.
  intros Hauth Hfund Hopen Hall.
  destruct (drainMessageQueue_upstream env c Hauth) as (Hk & Hq & _ & _).
  rewrite <- Hfund in Hall.
  destruct (drain_upstream_sends env c Hopen Hall) as (tr & Hu & _ & _).
  rewrite Hu, Hfund in *. simpl in *. by rewrite Hk, Hq.
Qed.

Lemma drain_unfunded_keeps_other_frames_witness :
  let c := Sample.conn false
             [Sample.note_frame; Sample.req_frame; "null"%string;
              Sample.reaction_frame; "0"%string; Sample.close_frame] [] in
  (drainMessageQueue Sample.env c).1.1 = Normal /\
  queueUpstream (drainMessageQueue Sample.env c).1.2
  = List.filter
      (fun data =>
         match JSON_parse Sample.env data with
         | Some event =>
             truthy (Some event)
             && negb (is_string (index event 0) "REQ")
             && negb (is_string (index event 0) "CLOSE")
         | None => false
         end)
      (rev (queueUpstream c)).
Proof.
  apply (drain_unfunded_keeps_other_frames Sample.env
           (Sample.conn false
              [Sample.note_frame; Sample.req_frame; "null"%string;
               Sample.reaction_frame; "0"%string; Sample.close_frame] [])).
  - reflexivity.
  - reflexivity.
  - reflexivity.
  - repeat constructor; vm_compute; eauto; discriminate.
Defined.

(** Of two notes, a subscription request, a subscription close and the
    frames [null] and [0], the two notes stay queued. *)
Example drain_unfunded_keeps_other_frames_sample :
  queueUpstream
    (drainMessageQueue Sample.env
       (Sample.conn false
          [Sample.note_frame; Sample.req_frame; "null"%string;
           Sample.reaction_frame; "0"%string; Sample.close_frame] [])).1.2
  = [Sample.reaction_frame; Sample.note_frame].
Proof. vm_compute. reflexivity. Qed.

(** X4.  While the relay link is not open a drain tick sends nothing to
    the relay and leaves the upstream queue as it is.  On a connection
    that has its client socket the tick completes normally; on a
    connection without one (its handshake was refused) the tick raises
    before it does anything, whatever the state of the relay link. *)
Theorem drain_waits_for_the_relay (env : Env) (c : ClientObj) :
  let r := drainMessageQueue env c in
  (is_open (relay c) = false ->
   relay_sends r.2 = [] /\ queueUpstream r.1.2 = queueUpstream c /\
   (r.1.1 = Normal <-> is_Some (getWs c))) /\
  (getWs c = None -> r = (Throw, c, [])).
Proof.
  split; [|apply drainMessageQueue_no_socket].
  intros Hclosed. destruct (getWs c) as [s|] eqn:Hs.
  2: { rewrite (drainMessageQueue_no_socket env c Hs). simpl.
       split; [done|]. split; [done|]. split; [done|]. by intros [? ?]. }
  destruct (authenticated (ws c)) eqn:Hauth.
  - destruct (drainMessageQueue_upstream env c Hauth) as (Hk & Hq & Hr & _).
    simpl. rewrite Hk, Hq, Hr. unfold drain_upstream. rewrite Hclosed. simpl.
    repeat split; eauto.
  - drain_with Hs. rewrite Hauth. simpl. repeat split; eauto.
Qed.

Lemma drain_waits_for_the_relay_witness :
  (let c := set_relay CONNECTING (Sample.conn true [Sample.note_frame] []) in
   relay_sends (drainMessageQueue Sample.env c).2 = [] /\
   queueUpstream (drainMessageQueue Sample.env c).1.2 = queueUpstream c /\
   ((drainMessageQueue Sample.env c).1.1 = Normal <-> is_Some (getWs c))) /\
  (let c := mkClient 1 [] [Sample.note_frame] 0 false None OPEN in
   drainMessageQueue Sample.env c = (Throw, c, [])).
Proof.
  split.
  - apply (drain_waits_for_the_relay Sample.env
             (set_relay CONNECTING (Sample.conn true [Sample.note_frame] []))).
    reflexivity.
  - apply (drain_waits_for_the_relay Sample.env
             (mkClient 1 [] [Sample.note_frame] 0 false None OPEN)).
    reflexivity.
Defined.

(** X5.  A drain tick never calls [processSpam] for a connection that is
    not funded. *)
Theorem drain_unfunded_never_screens (env : Env) (c : ClientObj) :
  funded (ws c) = false -> spam_calls (drainMessageQueue env c).2 = [].
Proof.
  intros Hfund. destruct (authenticated (ws c)) eqn:Hauth.
  - destruct (drainMessageQueue_upstream env c Hauth) as (_ & _ & _ & ->).
    unfold drain_upstream. destruct (is_open (relay c)); [|done].
    rewrite Hfund.
    pose proof (upstream_loop_unfunded_no_spam env (id c) (rev (queueUpstream c)) [] [])
      as H.
    destruct (up_completion _); simpl; exact H.
  - unfold drainMessageQueue. rewrite Hauth. by destruct (getWs c).
Qed.

Lemma drain_unfunded_never_screens_witness :
  spam_calls (drainMessageQueue Sample.env (Sample.conn false [Sample.note_frame] [])).2
  = [].
Proof.
  apply (drain_unfunded_never_screens Sample.env (Sample.conn false [Sample.note_frame] [])).
  reflexivity.
Defined.

(** X6.  On a funded, authenticated connection with the relay link open,
    a single queued [EVENT] frame whose event has a filtered kind makes
    the tick call [processSpam] exactly once, with the event's pubkey,
    content and id; the frame is sent to the relay and leaves the
    queue. *)
Theorem drain_screens_filtered_event
    (env : Env) (c : ClientObj) (data : Frame) (fields : list (string * json))
    (rest : list json) (kind : Z) :
  authenticated (ws c) = true -> funded (ws c) = true ->
  is_open (relay c) = true ->
  queueUpstream c = [data] -> truthy_frame data = true ->
  JSON_parse env data = Some (JArr (JStr "EVENT" :: JObj fields :: rest)) ->
  assoc fields "kind" = Some (JNum kind) -> kind ∈ filterNipKind env ->
  let r := drainMessageQueue env c in
  r.1.1 = Normal /\
  spam_calls r.2
  = [(assoc fields "pubkey", assoc fields "content", assoc fields "id")] /\
  relay_sends r.2 = [data] /\ queueUpstream r.1.2 = [].
Proof.
  intros Hauth Hfund Hopen Hq Hne Hparse Hkind Hin.
  destruct (drainMessageQueue_upstream env c Hauth) as (Hk & Hqu & Hr & Hs).
  simpl. rewrite Hk, Hqu, Hr, Hs.
  unfold drain_upstream. rewrite Hopen, Hfund, Hq. simpl.
  rewrite Hne, Hparse. unfold spam_check. simpl. rewrite Hkind. simpl.
  rewrite bool_decide_eq_true_2 by done. done.
Qed.

Lemma drain_screens_filtered_event_witness :
  let r := drainMessageQueue Sample.env (Sample.conn true [Sample.note_frame] []) in
  r.1.1 = Normal /\
  spam_calls r.2 = [(Some (JStr "ab"), Some (JStr "gm"), Some (JStr "e1"))] /\
  relay_sends r.2 = [Sample.note_frame] /\ queueUpstream r.1.2 = [].
Proof.
  apply (drain_screens_filtered_event Sample.env
           (Sample.conn true [Sample.note_frame] []) Sample.note_frame
           [("id", JStr "e1"); ("pubkey", JStr "ab"); ("kind", JNum 1);
            ("content", JStr "gm")]%string [] 1).
  - reflexivity.
  - reflexivity.
  - reflexivity.
  - reflexivity.
  - reflexivity.
  - vm_compute. reflexivity.
  - reflexivity.
  - apply list_elem_of_here.
Defined.

(** ** A frame that is not JSON *)

Lemma drain_raises_on_malformed_frame (env : Env) (c : ClientObj) (q : list Frame)
    (data : Frame) :
  authenticated (ws c) = true -> is_open (relay c) = true ->
  queueUpstream c = push q data -> truthy_frame data = true ->
  JSON_parse env data = None ->
  drainMessageQueue env c = (Throw, set_queueUpstream q c, []).
Proof.
  intros Hauth Hopen Hq Hne Hparse.
  destruct (authenticated_socket c Hauth) as [s Hs]. drain_with Hs.
  unfold drain_upstream. rewrite Hauth, Hopen, Hq. simpl.
  unfold push. rewrite rev_app_distr. simpl. rewrite Hne.
  destruct (funded (ws c)); rewrite Hparse; simpl; by rewrite rev_involutive.
Qed.

(** X7.  The last frame a client queued is not JSON (and not empty); the
    connection is authenticated and its relay link is open.  Then the next
    drain tick of that connection raises out of the timer callback: the
    frame is dropped from the queue, nothing is sent to either socket, and
    the process handles no further event. *)
Theorem malformed_frame_ends_the_process
    (env : Env) (w : World) (h i : nat) (c : ClientObj) (q : list Frame)
    (data : Frame) :
  crashed w = false ->
  timers w !! h = Some (DrainTimer i) -> heap w !! i = Some c ->
  authenticated (ws c) = true -> is_open (relay c) = true ->
  queueUpstream c = push q data -> truthy_frame data = true ->
  JSON_parse env data = None ->
  exists w',
    step env (TimerFired h) w = Some w' /\
    heap w' !! i = Some (set_queueUpstream q c) /\ log w' = log w /\
    forall ev, step env ev w' = None.
Proof.
  intros Hlive Ht Hc Hauth Hopen Hq Hne Hparse.
  eexists. split.
  - unfold step, fire. rewrite Hlive, Ht, Hc.
    rewrite (drain_raises_on_malformed_frame env c q data) by done. reflexivity.
  - simpl. split; [apply lookup_insert_eq|]. split; [apply app_nil_r|].
    intros ev. reflexivity.
Qed.

Lemma malformed_frame_ends_the_process_witness :
  let w := Sample.after Sample.env
             (Sample.authenticate "b07" ++ [RelayOpen 1; WsMessage 1 "hello"]) in
  exists w',
    step Sample.env (TimerFired 0) w = Some w' /\
    heap w' !! 1%nat
    = Some (set_queueUpstream []
              (mkClient 1 ["hello"%string] [] 0 false
                 (Some (mkWs true true "c0ffee" OPEN)) OPEN)) /\
    log w' = log w /\
    forall ev, step Sample.env ev w' = None.
Proof.
  apply (malformed_frame_ends_the_process Sample.env
           (Sample.after Sample.env
              (Sample.authenticate "b07" ++ [RelayOpen 1; WsMessage 1 "hello"]))
           0 1
           (mkClient 1 ["hello"%string] [] 0 false (Some (mkWs true true "c0ffee" OPEN)) OPEN)
           [] "hello").
  - vm_compute. reflexivity.
  - vm_compute. reflexivity.
  - vm_compute. reflexivity.
  - reflexivity.
  - reflexivity.
  - reflexivity.
  - reflexivity.
  - reflexivity.
Defined.

(** ** The message handler *)



(** X9.  A frame that arrives on the client socket of a connection
    that has not authenticated, and which contains the text ["AUTH"] but
    is not JSON, is dropped: the handler rejects, and the process is
    exactly as it was (the frame is not queued, the connection stays
    open). *)
Theorem unparsable_auth_frame_is_dropped
    (env : Env) (w : World) (i : nat) (c : ClientObj) (data : Frame) :
  crashed w = false -> heap w !! i = Some c -> is_Some (getWs c) ->
  authenticated (ws c) = false ->
  includes data (quoted "AUTH") = true -> JSON_parse env data = None ->
  step env (WsMessage i data) w = Some w.
Proof.
  intros Hlive Hc [s Hs] Hauth Hinc Hparse.
  unfold step. rewrite Hlive, Hc, Hs. unfold on_message.
  by rewrite Hc, Hauth, Hinc, Hparse.
Qed.

Lemma unparsable_auth_frame_is_dropped_witness :
  step Sample.env (WsMessage 1 (quoted "AUTH" +:+ " me"))
    (Sample.after Sample.env Sample.connect)
  = Some (Sample.after Sample.env Sample.connect).
Proof.
  apply (unparsable_auth_frame_is_dropped Sample.env
           (Sample.after Sample.env Sample.connect) 1
           (mkClient 1 [] [] 0 false (Some (mkWs false false "c0ffee" OPEN)) CONNECTING)).
  - reflexivity.
  - vm_compute. reflexivity.
  - by eexists.
  - reflexivity.
  - vm_compute. reflexivity.
  - vm_compute. reflexivity.
Defined.

(** ** The webhook *)

Lemma set_listeners_same (w : World) : set_listeners (listeners w) w = w.
Proof. by destruct w. Qed.

Lemma notify_listeners w l : listeners (notify w l) = listeners w.
Proof. unfold notify, fund. simpl. by destruct (heap w !! l_conn l). Qed.

Lemma foldl_notify_listeners ls w : listeners (foldl notify w ls) = listeners w.
Proof.
  revert w. induction ls as [|l ls IH]; intros w; simpl; [done|].
  by rewrite IH, notify_listeners.
Qed.

Lemma filter_filter_neg {A} (f : A -> bool) (l : list A) :
  List.filter f (List.filter (fun x => negb (f x)) l) = [].
Proof.
  induction l as [|x l IH]; simpl; [done|].
  destruct (f x) eqn:Hx; simpl; [done|]. by rewrite Hx.
Qed.

Lemma filter_filter_same {A} (f : A -> bool) (l : list A) :
  List.filter f (List.filter f l) = List.filter f l.
Proof.
  induction l as [|x l IH]; simpl; [done|].
  destruct (f x) eqn:Hx; simpl; [|done]. by rewrite Hx, IH.
Qed.

Lemma filter_all {A} (f : A -> bool) (l : list A) :
  (forall x, x ∈ l -> f x = true) -> List.filter f l = l.
Proof.
  induction l as [|x l IH]; intros H; simpl; [done|].
  rewrite (H x) by apply list_elem_of_here.
  rewrite IH; [done|]. intros y Hy. apply H. by apply list_elem_of_further.
Qed.

Lemma filter_none {A} (f : A -> bool) (l : list A) :
  (forall x, x ∈ l -> f x = false) -> List.filter f l = [].
Proof.
  induction l as [|x l IH]; intros H; simpl; [done|].
  rewrite (H x) by apply list_elem_of_here.
  apply IH. intros y Hy. apply H. by apply list_elem_of_further.
Qed.

(** X10.  The payment waiter is consumed once: a second notification for
    the same pubkey finds no listener and changes nothing. *)
Theorem paid_twice_is_paid_once (pubKey : string) (w : World) :
  paid pubKey (paid pubKey w) = paid pubKey w.
Proof.
  unfold paid at 1.
  assert (Hl : listeners (paid pubKey w)
               = List.filter (fun l => negb (String.eqb (l_name l) (pubKey +:+ ".paid")))
                   (listeners w)).
  { unfold paid. by rewrite foldl_notify_listeners. }
  rewrite Hl.
  rewrite (filter_filter_neg (fun l => String.eqb (l_name l) (pubKey +:+ ".paid"))).
  rewrite (filter_filter_same
             (fun l => negb (String.eqb (l_name l) (pubKey +:+ ".paid")))).
  simpl. rewrite <- Hl. apply set_listeners_same.
Qed.

(** X11.  A notification for a pubkey nobody is waiting on leaves the
    process as it is. *)
Theorem paid_without_waiter (pubKey : string) (w : World) :
  (forall l, l ∈ listeners w -> l_name l <> pubKey +:+ ".paid") ->
  paid pubKey w = w.
Proof.
  intros Hno. unfold paid.
  rewrite (filter_none (fun l => String.eqb (l_name l) (pubKey +:+ ".paid"))).
  - rewrite filter_all; [apply set_listeners_same|].
    intros l Hl. apply negb_true_iff. apply String.eqb_neq. by apply Hno.
  - intros l Hl. apply String.eqb_neq. by apply Hno.
Qed.

Lemma paid_without_waiter_witness :
  paid "cd" (Sample.after Sample.env Sample.awaiting_payment)
  = Sample.after Sample.env Sample.awaiting_payment.
Proof.
  apply (paid_without_waiter "cd" (Sample.after Sample.env Sample.awaiting_payment)).
  intros l Hl. vm_compute in Hl.
  apply list_elem_of_singleton in Hl as ->. vm_compute. discriminate.
Defined.

Lemma notify_timers w l : timers (notify w l) = delete (l_timer l) (timers w).
Proof. unfold notify, fund. simpl. by destruct (heap w !! l_conn l). Qed.

Lemma foldl_notify_timers_sub ls w h t :
  timers (foldl notify w ls) !! h = Some t -> timers w !! h = Some t.
Proof.
  revert w. induction ls as [|l ls IH]; intros w; simpl; [done|].
  intros H%IH. rewrite notify_timers in H.
  by apply lookup_delete_Some in H as [_ ?].
Qed.

Lemma foldl_notify_clears ls w l :
  l ∈ ls -> timers (foldl notify w ls) !! l_timer l = None.
Proof.
  revert w. induction ls as [|l' ls IH]; intros w Hl; simpl.
  - by apply elem_of_nil in Hl.
  - apply elem_of_cons in Hl as [<-|Hl]; [|by apply IH].
    destruct (timers (foldl notify (notify w l) ls) !! l_timer l) as [t|] eqn:Ht; [|done].
    apply foldl_notify_timers_sub in Ht.
    by rewrite notify_timers, lookup_delete_eq in Ht.
Qed.

Lemma foldl_notify_funds ls w l c :
  l ∈ ls -> heap w !! l_conn l = Some c ->
  exists c', heap (foldl notify w ls) !! l_conn l = Some c' /\ funded (ws c') = true.
Proof.
  revert w c. induction ls as [|l' ls IH]; intros w c Hl Hc; simpl.
  - by apply elem_of_nil in Hl.
  - apply elem_of_cons in Hl as [<-|Hl].
    + assert (Hn : heap (notify w l) !! l_conn l
                   = Some (set_ws (set_funded true (ws c)) c)).
      { unfold notify, fund. rewrite Hc. simpl. apply lookup_insert_eq. }
      destruct (ev_heap _ _ _ (evolves_foldl_notify ls (notify w l)) _ _ Hn)
        as (c' & Hc' & _ & _ & Hf).
      exists c'. split; [done|]. by apply Hf.
    + destruct (ev_heap _ _ _ (evolves_notify w l') _ _ Hc) as (c1 & Hc1 & _).
      by eapply IH.
Qed.

(** X12.  A payment notification for a pubkey marks funded the
    connection of every waiter registered under that pubkey (two
    connections that authenticated with the same key are both funded by
    one payment), cancels their payment timers and removes the waiters. *)
Theorem paid_funds_every_waiter (pubKey : string) (w : World) (l : Listener)
    (c : ClientObj) :
  l ∈ listeners w -> l_name l = pubKey +:+ ".paid" ->
  heap w !! l_conn l = Some c ->
  (exists c', heap (paid pubKey w) !! l_conn l = Some c' /\ funded (ws c') = true) /\
  timers (paid pubKey w) !! l_timer l = None /\
  l ∉ listeners (paid pubKey w).
Proof.
  intros Hl Hname Hc. unfold paid.
  assert (Hhit : l ∈ List.filter (fun l => String.eqb (l_name l) (pubKey +:+ ".paid"))
                       (listeners w)).
  { apply list_elem_of_In, List.filter_In. split; [by apply list_elem_of_In|].
    by apply String.eqb_eq. }
  split; [|split].
  - by eapply foldl_notify_funds.
  - by apply foldl_notify_clears.
  - rewrite foldl_notify_listeners. simpl.
    intros Hin. apply list_elem_of_In, List.filter_In in Hin as [_ Hneq].
    apply negb_true_iff, String.eqb_neq in Hneq. done.
Qed.

Lemma paid_funds_every_waiter_witness :
  let w := Sample.after Sample.env Sample.two_waiting in
  ((exists c', heap (paid "ab" w) !! 1%nat = Some c' /\ funded (ws c') = true) /\
   timers (paid "ab" w) !! 4%nat = None /\
   mkListener "ab.paid" 1 4 ∉ listeners (paid "ab" w)) /\
  ((exists c', heap (paid "ab" w) !! 2%nat = Some c' /\ funded (ws c') = true) /\
   timers (paid "ab" w) !! 9%nat = None /\
   mkListener "ab.paid" 2 9 ∉ listeners (paid "ab" w)).
Proof.
  split.
  - apply (paid_funds_every_waiter "ab" (Sample.after Sample.env Sample.two_waiting)
             (mkListener "ab.paid" 1 4)
             (mkClient 1 [] [] 0 false (Some (mkWs true false "c0ffee" OPEN)) CONNECTING)).
    + vm_compute. apply list_elem_of_here.
    + reflexivity.
    + vm_compute. reflexivity.
  - apply (paid_funds_every_waiter "ab" (Sample.after Sample.env Sample.two_waiting)
             (mkListener "ab.paid" 2 9)
             (mkClient 2 [] [] 5 false (Some (mkWs true false "c0ffee" OPEN)) CONNECTING)).
    + vm_compute. apply list_elem_of_further, list_elem_of_here.
    + reflexivity.
    + vm_compute. reflexivity.
Defined.

(** ** Timers *)

(** X13.  When the authentication timer of a connection fires: if the
    connection has authenticated, nothing happens (the timer is spent);
    if it has not, the connection is torn down, with [close()] called
    on its client socket and on its relay socket. *)
Theorem auth_timeout_tears_down_unauthenticated
    (env : Env) (w : World) (h i : nat) (c : ClientObj) :
  crashed w = false -> timers w !! h = Some (AuthTimer i) -> heap w !! i = Some c ->
  (authenticated (ws c) = true ->
   step env (TimerFired h) w = Some (set_timers (delete h (timers w)) w)) /\
  (authenticated (ws c) = false -> closed c = false ->
   exists w1 c1,
     step env (TimerFired h) w = Some w1 /\
     heap w1 !! i = Some c1 /\ closed c1 = true /\ (id c ∉ clients w1) /\
     (is_Some (getWs c) ->
      log w1 = log w ++ [ClearInterval (timeout c); DeleteClient (id c);
                         WsClose i; RelayClose i]) /\
     (getWs c = None ->
      log w1 = log w ++ [ClearInterval (timeout c); DeleteClient (id c);
                         RelayClose i])).
Proof.
  intros Hlive Ht Hc. split.
  - intros Hauth. unfold step, fire. by rewrite Hlive, Ht, Hc, Hauth.
  - intros Hauth Hopen.
    set (w0 := set_timers (delete h (timers w)) w).
    exists (settle w0 (closeConnection env i w0)), (torn_down env c). split.
    + unfold step, fire. by rewrite Hlive, Ht, Hc, Hauth.
    + rewrite (closeConnection_open env i c w0) by done. cbn [settle heap log clients].
      destruct (torn_down_frame env c) as (_ & _ & Hcl & _).
      split; [apply lookup_insert_eq|]. split; [done|]. split.
      { intros Hin. apply elem_of_difference in Hin as [_ Hin].
        apply Hin. by apply elem_of_singleton. }
      unfold teardown_calls. split; [by intros [s ->]|by intros ->].
Qed.

Lemma auth_timeout_tears_down_unauthenticated_witness :
  (step Sample.env (TimerFired 1) (Sample.after Sample.env (Sample.authenticate "b07"))
   = Some (set_timers
             (delete 1%nat (timers (Sample.after Sample.env (Sample.authenticate "b07"))))
             (Sample.after Sample.env (Sample.authenticate "b07")))) /\
  (let c := mkClient 1 [] [] 0 false (Some (mkWs false false "c0ffee" OPEN))
              CONNECTING in
   exists w1 c1,
     step Sample.env (TimerFired 1) (Sample.after Sample.env Sample.connect) = Some w1 /\
     heap w1 !! 1%nat = Some c1 /\ closed c1 = true /\ (1%nat ∉ clients w1) /\
     (is_Some (getWs c) ->
      log w1 = log (Sample.after Sample.env Sample.connect)
               ++ [ClearInterval 0; DeleteClient 1; WsClose 1; RelayClose 1]) /\
     (getWs c = None ->
      log w1 = log (Sample.after Sample.env Sample.connect)
               ++ [ClearInterval 0; DeleteClient 1; RelayClose 1])).
Proof.
  split.
  - apply (auth_timeout_tears_down_unauthenticated Sample.env
             (Sample.after Sample.env (Sample.authenticate "b07")) 1 1
             (mkClient 1 [] [] 0 false (Some (mkWs true true "c0ffee" OPEN)) CONNECTING)).
    + reflexivity.
    + vm_compute. reflexivity.
    + vm_compute. reflexivity.
    + reflexivity.
  - apply (auth_timeout_tears_down_unauthenticated Sample.env
             (Sample.after Sample.env Sample.connect) 1 1
             (mkClient 1 [] [] 0 false (Some (mkWs false false "c0ffee" OPEN)) CONNECTING)).
    + reflexivity.
    + vm_compute. reflexivity.
    + vm_compute. reflexivity.
    + reflexivity.
    + reflexivity.
Defined.

(** X14.  When the payment timer of a connection that is not funded
    fires, the balance is looked up once more.  If the balance is then
    sufficient the connection is marked funded and stays open; if not (or
    if there is none) the connection is torn down. *)
Theorem payment_expiry_rechecks_balance
    (env : Env) (w : World) (h i : nat) (pubkey : value) (c : ClientObj)
    (balance : option Z) :
  crashed w = false -> timers w !! h = Some (PaymentTimer i pubkey) ->
  heap w !! i = Some c -> funded (ws c) = false -> closed c = false ->
  exists w1 w2 c2,
    step env (TimerFired h) w = Some w1 /\
    log w1 = log w ++ [GetBalance i pubkey] /\ timers w1 !! h = None /\
    step env (Settled (nextHandle w) (Fulfilled balance)) w1 = Some w2 /\
    heap w2 !! i = Some c2 /\
    funded (ws c2) = sufficient env balance /\
    closed c2 = negb (sufficient env balance).
Proof.
  intros Hlive Ht Hc Hfund Hopen.
  set (w0 := set_timers (delete h (timers w)) w).
  set (w1 := suspend (AwaitBalanceExpiry i pubkey) (emit [GetBalance i pubkey] w0)).
  set (w1' := set_awaits (delete (nextHandle w) (awaits w1)) w1).
  assert (Hc1 : heap w1' !! i = Some c) by done.
  exists w1, (settle w1' (resume env (AwaitBalanceExpiry i pubkey) (Fulfilled balance) w1')).
  destruct (sufficient env balance) eqn:Hs.
  - exists (set_ws (set_funded true (ws c)) c). repeat split.
    + unfold step, fire. by rewrite Hlive, Ht, Hc, Hfund.
    + simpl. apply lookup_delete_eq.
    + unfold step. simpl. by rewrite Hlive, lookup_insert_eq.
    + cbn [resume]. rewrite Hs. cbn [settle]. unfold fund. rewrite Hc1.
      apply lookup_insert_eq.
    + done.
  - destruct (torn_down_frame env c) as (_ & _ & Hcl & _ & Hf & _).
    exists (torn_down env c). repeat split.
    + unfold step, fire. by rewrite Hlive, Ht, Hc, Hfund.
    + simpl. apply lookup_delete_eq.
    + unfold step. simpl. by rewrite Hlive, lookup_insert_eq.
    + cbn [resume]. rewrite Hs.
      rewrite (closeConnection_open env i c w1') by done. apply lookup_insert_eq.
    + by rewrite Hf.
Qed.

Lemma payment_expiry_rechecks_balance_witness :
  exists w1 w2 c2,
    step Sample.env (TimerFired 4) (Sample.after Sample.env Sample.awaiting_payment)
    = Some w1 /\
    log w1 = log (Sample.after Sample.env Sample.awaiting_payment)
             ++ [GetBalance 1 (Some (JStr "ab"))] /\
    timers w1 !! 4%nat = None /\
    step Sample.env
      (Settled (nextHandle (Sample.after Sample.env Sample.awaiting_payment))
         (Fulfilled (Some 3))) w1 = Some w2 /\
    heap w2 !! 1%nat = Some c2 /\
    funded (ws c2) = sufficient Sample.env (Some 3) /\
    closed c2 = negb (sufficient Sample.env (Some 3)).
Proof.
  apply (payment_expiry_rechecks_balance Sample.env
           (Sample.after Sample.env Sample.awaiting_payment) 4 1 (Some (JStr "ab"))
           (mkClient 1 [] [] 0 false (Some (mkWs true false "c0ffee" OPEN)) CONNECTING)
           (Some 3)).
  - reflexivity.
  - vm_compute. reflexivity.
  - vm_compute. reflexivity.
  - reflexivity.
  - reflexivity.
Defined.

(** ** New connections *)

(** X15.  While the process lives an upgrade request can always be
    handled.  When its handshake is accepted, the new connection gets the
    next id, which no connection has had before; it is registered,
    unauthenticated, unfunded and open, with empty queues; its drain and
    authentication timers are started; the first two frames it is sent
    are the notice and the challenge; and no other connection is
    touched. *)
Theorem upgrade_greets_a_fresh_connection
    (env : Env) (w : World) (challenge : string) :
  reachable env w -> crashed w = false ->
  exists w',
    step env (Upgrade challenge) w = Some w' /\
    heap w !! nextId w = None /\ (nextId w ∉ clients w) /\
    nextId w' = S (nextId w) /\ (nextId w ∈ clients w') /\
    heap w' !! nextId w
    = Some (mkClient (nextId w) [] [] (nextHandle w) false
              (Some (mkWs false false challenge OPEN)) CONNECTING) /\
    timers w' !! nextHandle w = Some (DrainTimer (nextId w)) /\
    timers w' !! S (nextHandle w) = Some (AuthTimer (nextId w)) /\
    log w' = log w ++ [WsSend (nextId w) notice_frame;
                       WsSend (nextId w) (challenge_frame challenge)] /\
    forall j, j <> nextId w -> heap w' !! j = heap w !! j.
Proof.
  intros Hr Hlive.
  destruct (upgrade_enabled env (Some challenge) w Hr) as [w' Hw'].
  exists w'. split; [unfold step; by rewrite Hlive|].
  apply upgrade_accepted in Hw' as (Hcl & Hh & ->).
  simpl. repeat split; try done.
  - set_solver.
  - apply lookup_insert_eq.
  - rewrite lookup_insert_ne by lia. apply lookup_insert_eq.
  - apply lookup_insert_eq.
  - intros j Hj. by rewrite lookup_insert_ne.
Qed.

Lemma upgrade_greets_a_fresh_connection_witness :
  let w := Sample.after Sample.env Sample.awaiting_payment in
  exists w',
    step Sample.env (Upgrade "decaf") w = Some w' /\
    heap w !! nextId w = None /\ (nextId w ∉ clients w) /\
    nextId w' = S (nextId w) /\ (nextId w ∈ clients w') /\
    heap w' !! nextId w
    = Some (mkClient (nextId w) [] [] (nextHandle w) false
              (Some (mkWs false false "decaf" OPEN)) CONNECTING) /\
    timers w' !! nextHandle w = Some (DrainTimer (nextId w)) /\
    timers w' !! S (nextHandle w) = Some (AuthTimer (nextId w)) /\
    log w' = log w ++ [WsSend (nextId w) notice_frame;
                       WsSend (nextId w) (challenge_frame "decaf")] /\
    forall j, j <> nextId w -> heap w' !! j = heap w !! j.
Proof.
  apply (upgrade_greets_a_fresh_connection Sample.env
           (Sample.after Sample.env Sample.awaiting_payment) "decaf").
  - exists Sample.awaiting_payment. vm_compute. reflexivity.
  - reflexivity.
Defined.

(** X24.  When the handshake of an upgrade request is refused, the
    connection object has already been created: it is registered under
    the next id and its drain interval runs, but it has no client socket,
    no authentication timer is started and nothing is sent.  The first
    tick of its drain interval then raises out of the timer callback,
    and the process handles no further event. *)
Theorem refused_upgrade_ends_the_process (env : Env) (w : World) :
  reachable env w -> crashed w = false ->
  exists w1 w2,
    step env UpgradeRefused w = Some w1 /\
    heap w1 !! nextId w
    = Some (mkClient (nextId w) [] [] (nextHandle w) false None CONNECTING) /\
    (nextId w ∈ clients w1) /\
    timers w1 = <[nextHandle w := DrainTimer (nextId w)]> (timers w) /\
    log w1 = log w /\
    step env (TimerFired (nextHandle w)) w1 = Some w2 /\
    crashed w2 = true /\ log w2 = log w /\
    forall ev, step env ev w2 = None.
Proof.
  intros Hr Hlive.
  destruct (upgrade_enabled env None w Hr) as [w1 Hw1].
  pose proof Hw1 as (Hcl & Hh & ->)%upgrade_refused.
  eexists. eexists. split; [unfold step; by rewrite Hlive|].
  split; [apply lookup_insert_eq|]. split; [set_solver|].
  split; [done|]. split; [done|]. split.
  - unfold step, fire. cbn [crashed add_timer set_nextHandle set_timers set_clients
      put set_heap set_nextId timers heap].
    rewrite Hlive, !lookup_insert_eq.
    rewrite drainMessageQueue_no_socket by done. reflexivity.
  - simpl. split; [done|]. split; [apply app_nil_r|]. done.
Qed.

Lemma refused_upgrade_ends_the_process_witness :
  let w := Sample.after Sample.env Sample.awaiting_payment in
  exists w1 w2,
    step Sample.env UpgradeRefused w = Some w1 /\
    heap w1 !! nextId w
    = Some (mkClient (nextId w) [] [] (nextHandle w) false None CONNECTING) /\
    (nextId w ∈ clients w1) /\
    timers w1 = <[nextHandle w := DrainTimer (nextId w)]> (timers w) /\
    log w1 = log w /\
    step Sample.env (TimerFired (nextHandle w)) w1 = Some w2 /\
    crashed w2 = true /\ log w2 = log w /\
    forall ev, step Sample.env ev w2 = None.
Proof.
  apply (refused_upgrade_ends_the_process Sample.env
           (Sample.after Sample.env Sample.awaiting_payment)).
  - exists Sample.awaiting_payment. vm_compute. reflexivity.
  - reflexivity.
Defined.

(** ** Connections, registry and timers *)

Section WellFormed.

Context (env : Env).

Lemma admitted_put i c c' j w :
  heap w !! i = Some c ->
  (authenticated (ws c) = true -> authenticated (ws c') = true) ->
  admitted j w -> admitted j (put i c' w).
Proof.
  intros Hc Ha (d & Hd & Had). unfold admitted. simpl.
  destruct (decide (i = j)) as [<-|Hne].
  - rewrite lookup_insert_eq. simplify_eq. eauto.
  - rewrite lookup_insert_ne by done. eauto.
Qed.

(** A write to a connection object that keeps its id, its drain handle
    and whether it is closed. *)
Lemma Wf_put i c c' w :
  Wf w -> heap w !! i = Some c ->
  id c' = id c -> timeout c' = timeout c -> closed c' = closed c ->
  (authenticated (ws c) = true -> authenticated (ws c') = true) ->
  Wf (put i c' w).
Proof.
  intros H Hc Hid Ht Hcl Ha. split; simpl.
  - intros j d. destruct (decide (i = j)) as [<-|Hne].
    + rewrite lookup_insert_eq. intros [= <-]. rewrite Hid. by eapply wf_id.
    + rewrite lookup_insert_ne by done. by apply wf_id.
  - intros j. rewrite (wf_registry _ H). destruct (decide (i = j)) as [<-|Hne].
    + rewrite lookup_insert_eq. split.
      * intros (d & Hd & Hdc). simplify_eq. exists c'. by rewrite Hcl.
      * intros (d & [= <-] & Hdc). exists c. by rewrite <- Hcl.
    + by rewrite lookup_insert_ne.
  - intros h j Hh. destruct (wf_drain _ H _ _ Hh) as (d & Hd & Hdc & Hdt).
    destruct (decide (i = j)) as [<-|Hne].
    + rewrite lookup_insert_eq. simplify_eq. exists c'. by rewrite Hcl, Ht.
    + rewrite lookup_insert_ne by done. eauto.
  - intros j d. destruct (decide (i = j)) as [<-|Hne].
    + rewrite lookup_insert_eq. intros [= <-] Hdc. rewrite Ht.
      apply (wf_live _ H); [done|congruence].
    + rewrite lookup_insert_ne by done. by apply wf_live.
  - apply (wf_timers _ H).
  - intros j d. destruct (decide (i = j)) as [<-|Hne].
    + rewrite lookup_insert_eq. intros [= <-]. rewrite Ht. by eapply wf_timeout.
    + rewrite lookup_insert_ne by done. by apply wf_timeout.
  - apply (wf_listener _ H).
  - intros j d Hin. eapply admitted_put; [done|done|]. by eapply wf_sent.
Qed.

Lemma Wf_emit tr w :
  Wf w -> (forall i d, RelaySend i d ∈ tr -> admitted i w) -> Wf (emit tr w).
Proof.
  intros H Htr. split; simpl; try apply H.
  intros i d [Hin|Hin]%elem_of_app; [by eapply (wf_sent _ H)|by eapply Htr].
Qed.

(** A one-shot timer that is spent, or cleared: any timer but a drain
    interval. *)
Lemma Wf_delete_timer h w :
  Wf w -> (forall i, timers w !! h <> Some (DrainTimer i)) ->
  Wf (set_timers (delete h (timers w)) w).
Proof.
  intros H Hnd. split; simpl; try apply H.
  - intros h' i Hh. apply lookup_delete_Some in Hh as [_ Hh]. by apply (wf_drain _ H).
  - intros i c Hc Hcl. pose proof (wf_live _ H _ _ Hc Hcl) as Hl.
    rewrite lookup_delete_ne; [done|]. intros Heq. apply (Hnd i). by rewrite Heq.
  - intros h' t Hh. apply lookup_delete_Some in Hh as [_ Hh]. by eapply wf_timers.
  - intros l Hl. destruct (wf_listener _ H _ Hl) as [Hlt Hn]. split; [done|].
    intros i Hh. apply lookup_delete_Some in Hh as [_ Hh]. by apply (Hn i).
Qed.

Lemma Wf_delete_await p w : Wf w -> Wf (set_awaits (delete p (awaits w)) w).
Proof. intros H. split; simpl; apply H. Qed.

Lemma Wf_set_crashed b w : Wf w -> Wf (set_crashed b w).
Proof. intros H. split; simpl; apply H. Qed.

Lemma Wf_set_listeners ls w :
  Wf w -> (forall l, l ∈ ls -> l ∈ listeners w) -> Wf (set_listeners ls w).
Proof.
  intros H Hsub. split; simpl; try apply H.
  intros l Hl. apply (wf_listener _ H). by apply Hsub.
Qed.

Lemma Wf_suspend a w : Wf w -> Wf (suspend a w).
Proof.
  intros H. split; simpl; try apply H.
  - intros h t Hh. pose proof (wf_timers _ H _ _ Hh). lia.
  - intros i c Hc. pose proof (wf_timeout _ H _ _ Hc). lia.
  - intros l Hl. destruct (wf_listener _ H _ Hl) as [Hlt Hn]. split; [lia|done].
Qed.

(** [setTimeout] for an authentication or payment timer. *)
Lemma Wf_add_timer t w :
  Wf w -> (forall i, t <> DrainTimer i) -> Wf (add_timer t w).
Proof.
  intros H Hnd. split; simpl; try apply H.
  - intros h i Hh. destruct (decide (nextHandle w = h)) as [<-|Hne].
    + rewrite lookup_insert_eq in Hh. simplify_eq. by destruct (Hnd i).
    + rewrite lookup_insert_ne in Hh by done. by apply (wf_drain _ H).
  - intros i c Hc Hcl. pose proof (wf_timeout _ H _ _ Hc).
    rewrite lookup_insert_ne by lia. by apply (wf_live _ H).
  - intros h t' Hh. destruct (decide (nextHandle w = h)) as [<-|Hne]; [lia|].
    rewrite lookup_insert_ne in Hh by done. pose proof (wf_timers _ H _ _ Hh). lia.
  - intros i c Hc. pose proof (wf_timeout _ H _ _ Hc). lia.
  - intros l Hl. destruct (wf_listener _ H _ Hl) as [Hlt Hn]. split; [lia|].
    intros i. rewrite lookup_insert_ne by lia. apply Hn.
Qed.

Lemma Wf_add_listener l w :
  Wf w -> (l_timer l < nextHandle w)%nat ->
  (forall i, timers w !! l_timer l <> Some (DrainTimer i)) ->
  Wf (set_listeners (listeners w ++ [l]) w).
Proof.
  intros H Hlt Hn. split; simpl; try apply H.
  intros l' [Hl|Hl]%elem_of_app; [by apply (wf_listener _ H)|].
  apply list_elem_of_singleton in Hl as ->. done.
Qed.

Lemma Wf_fund i w : Wf w -> Wf (fund i w).
Proof.
  intros H. unfold fund. destruct (heap w !! i) as [c|] eqn:Hc; [|done].
  by eapply Wf_put.
Qed.

Lemma Wf_closeConnection i w w' :
  Wf w -> closeConnection env i w = Ret w' -> Wf w'.
Proof.
  intros H. destruct (heap w !! i) as [c|] eqn:Hc.
  2:{ rewrite closeConnection_closed; [by intros [= <-]|]. intros c' ?. by simplify_eq. }
  destruct (closed c) eqn:Hcl.
  { rewrite closeConnection_closed; [by intros [= <-]|]. intros c' ?. by simplify_eq. }
  rewrite (closeConnection_open env i c w Hc Hcl). intros [= <-].
  destruct (torn_down_frame env c) as (Hid & Ht & Htc & Ha & _).
  pose proof (wf_id _ H _ _ Hc) as Hidc.
  pose proof (wf_live _ H _ _ Hc Hcl) as Hlive.
  split; simpl.
  - intros j d. destruct (decide (i = j)) as [<-|Hne].
    + rewrite lookup_insert_eq. intros [= <-]. by rewrite Hid.
    + rewrite lookup_insert_ne by done. by apply wf_id.
  - intros j. rewrite elem_of_difference, elem_of_singleton, (wf_registry _ H), Hidc.
    destruct (decide (i = j)) as [<-|Hne].
    + rewrite lookup_insert_eq. split; [by intros [_ ?]|].
      intros (d & [= <-] & Hd). congruence.
    + rewrite lookup_insert_ne by done. split; [by intros [? _]|]. intros ?. split; [done|congruence].
  - intros h j Hh. apply lookup_delete_Some in Hh as [Hne Hh].
    destruct (wf_drain _ H _ _ Hh) as (d & Hd & Hdc & Hdt).
    destruct (decide (i = j)) as [<-|Hnj]; [simplify_eq|].
    rewrite lookup_insert_ne by done. eauto.
  - intros j d. destruct (decide (i = j)) as [<-|Hne].
    + rewrite lookup_insert_eq. intros [= <-]. congruence.
    + rewrite lookup_insert_ne by done. intros Hd Hdc.
      pose proof (wf_live _ H _ _ Hd Hdc) as Hl.
      rewrite lookup_delete_ne; [done|]. intros Heq. rewrite Heq in Hlive. congruence.
  - intros h t Hh. apply lookup_delete_Some in Hh as [_ Hh]. by eapply wf_timers.
  - intros j d. destruct (decide (i = j)) as [<-|Hne].
    + rewrite lookup_insert_eq. intros [= <-]. rewrite Ht. by eapply wf_timeout.
    + rewrite lookup_insert_ne by done. by apply wf_timeout.
  - intros l Hl. destruct (wf_listener _ H _ Hl) as [Hlt Hn]. split; [done|].
    intros j Hh. apply lookup_delete_Some in Hh as [_ Hh]. by apply (Hn j).
  - intros j d Hin. apply elem_of_app in Hin as [Hin|Hin].
    + destruct (wf_sent _ H _ _ Hin) as (c0 & Hc0 & Ha0). unfold admitted. simpl.
      destruct (decide (i = j)) as [<-|Hne].
      * rewrite lookup_insert_eq. simplify_eq. exists (torn_down env c). by rewrite Ha.
      * rewrite lookup_insert_ne by done. eauto.
    + unfold teardown_calls in Hin. revert Hin.
      destruct (getWs c); simpl; intros Hin;
        repeat (apply elem_of_cons in Hin as [Hin|Hin]; [done|]);
        by apply elem_of_nil in Hin.
Qed.

Lemma Wf_settle_close i w : Wf w -> Wf (settle w (closeConnection env i w)).
Proof.
  intros H. destruct (closeConnection_returns env i w) as [w' Hw']. rewrite Hw'.
  by eapply Wf_closeConnection.
Qed.

End WellFormed.

Section WellFormedSteps.

Context (env : Env).

Lemma Wf_notify w l :
  Wf w -> (forall i, timers w !! l_timer l <> Some (DrainTimer i)) -> Wf (notify w l).
Proof.
  intros H Hn. unfold notify. apply Wf_emit.
  - apply Wf_delete_timer; [by apply Wf_fund|].
    intros i. unfold fund. destruct (heap w !! l_conn l); apply Hn.
  - intros i d Hin. apply list_elem_of_singleton in Hin. done.
Qed.

Lemma Wf_foldl_notify ls w :
  Wf w -> (forall l i, l ∈ ls -> timers w !! l_timer l <> Some (DrainTimer i)) ->
  Wf (foldl notify w ls).
Proof.
  revert w. induction ls as [|l ls IH]; intros w H Hn; simpl; [done|].
  apply IH.
  - apply Wf_notify; [done|]. intros i. apply Hn, list_elem_of_here.
  - intros l' i Hl'. rewrite notify_timers. intros Hh.
    apply lookup_delete_Some in Hh as [_ Hh].
    by apply (Hn l' i (list_elem_of_further _ _ _ Hl')).
Qed.

Lemma Wf_paid pubKey w : Wf w -> Wf (paid pubKey w).
Proof.
  intros H. unfold paid. apply Wf_foldl_notify.
  - apply Wf_set_listeners; [done|]. intros l Hl.
    apply list_elem_of_In, List.filter_In in Hl as [Hl _]. by apply list_elem_of_In.
  - intros l i Hl. simpl.
    apply list_elem_of_In, List.filter_In in Hl as [Hl _]. apply list_elem_of_In in Hl.
    by destruct (wf_listener _ H _ Hl) as [_ Hn].
Qed.

Lemma Wf_upgrade handshake w w' : Wf w -> upgrade handshake w = Some w' -> Wf w'.
Proof.
  intros H. destruct handshake as [challenge|].
  { intros (Hcl & Hfresh & ->)%upgrade_accepted.
    split; simpl.
    - intros i c. destruct (decide (nextId w = i)) as [<-|Hne].
      + rewrite lookup_insert_eq. by intros [= <-].
      + rewrite lookup_insert_ne by done. by apply wf_id.
    - intros i. rewrite elem_of_union, elem_of_singleton, (wf_registry _ H).
      destruct (decide (nextId w = i)) as [<-|Hne].
      + rewrite lookup_insert_eq. split; [eauto|by left].
      + rewrite lookup_insert_ne by done. split; [by intros [?|?]|by right].
    - intros h i Hh.
      destruct (decide (S (nextHandle w) = h)) as [<-|Hne1].
      { by rewrite lookup_insert_eq in Hh. }
      rewrite lookup_insert_ne in Hh by done.
      destruct (decide (nextHandle w = h)) as [<-|Hne2].
      + rewrite lookup_insert_eq in Hh. simplify_eq.
        eexists. rewrite lookup_insert_eq. done.
      + rewrite lookup_insert_ne in Hh by done.
        destruct (wf_drain _ H _ _ Hh) as (c & Hc & Hcc & Hct).
        exists c. rewrite lookup_insert_ne; [done|]. intros <-. congruence.
    - intros i c. destruct (decide (nextId w = i)) as [<-|Hne].
      + rewrite lookup_insert_eq. intros [= <-] _. simpl.
        rewrite lookup_insert_ne by lia. apply lookup_insert_eq.
      + rewrite lookup_insert_ne by done. intros Hc Hcc.
        pose proof (wf_timeout _ H _ _ Hc).
        rewrite !lookup_insert_ne by lia. by apply (wf_live _ H).
    - intros h t Hh.
      destruct (decide (S (nextHandle w) = h)) as [<-|Hne1]; [lia|].
      rewrite lookup_insert_ne in Hh by done.
      destruct (decide (nextHandle w = h)) as [<-|Hne2]; [lia|].
      rewrite lookup_insert_ne in Hh by done.
      pose proof (wf_timers _ H _ _ Hh). lia.
    - intros i c. destruct (decide (nextId w = i)) as [<-|Hne].
      + rewrite lookup_insert_eq. intros [= <-]. simpl. lia.
      + rewrite lookup_insert_ne by done. intros Hc.
        pose proof (wf_timeout _ H _ _ Hc). lia.
    - intros l Hl. destruct (wf_listener _ H _ Hl) as [Hlt Hn]. split; [lia|].
      intros i. rewrite !lookup_insert_ne by lia. apply Hn.
    - intros i d Hin. apply elem_of_app in Hin as [Hin|Hin].
      + destruct (wf_sent _ H _ _ Hin) as (c & Hc & Ha). exists c. simpl.
        rewrite lookup_insert_ne; [done|]. intros <-. congruence.
      + repeat (apply elem_of_cons in Hin as [Hin|Hin]; [done|]).
        by apply elem_of_nil in Hin. }
  intros (Hcl & Hfresh & ->)%upgrade_refused.
  split; simpl.
  - intros i c. destruct (decide (nextId w = i)) as [<-|Hne].
    + rewrite lookup_insert_eq. by intros [= <-].
    + rewrite lookup_insert_ne by done. by apply wf_id.
  - intros i. rewrite elem_of_union, elem_of_singleton, (wf_registry _ H).
    destruct (decide (nextId w = i)) as [<-|Hne].
    + rewrite lookup_insert_eq. split; [eauto|by left].
    + rewrite lookup_insert_ne by done. split; [by intros [?|?]|by right].
  - intros h i Hh.
    destruct (decide (nextHandle w = h)) as [<-|Hne2].
    + rewrite lookup_insert_eq in Hh. simplify_eq.
      eexists. rewrite lookup_insert_eq. done.
    + rewrite lookup_insert_ne in Hh by done.
      destruct (wf_drain _ H _ _ Hh) as (c & Hc & Hcc & Hct).
      exists c. rewrite lookup_insert_ne; [done|]. intros <-. congruence.
  - intros i c. destruct (decide (nextId w = i)) as [<-|Hne].
    + rewrite lookup_insert_eq. intros [= <-] _. simpl. apply lookup_insert_eq.
    + rewrite lookup_insert_ne by done. intros Hc Hcc.
      pose proof (wf_timeout _ H _ _ Hc).
      rewrite !lookup_insert_ne by lia. by apply (wf_live _ H).
  - intros h t Hh.
    destruct (decide (nextHandle w = h)) as [<-|Hne2]; [lia|].
    rewrite lookup_insert_ne in Hh by done.
    pose proof (wf_timers _ H _ _ Hh). lia.
  - intros i c. destruct (decide (nextId w = i)) as [<-|Hne].
    + rewrite lookup_insert_eq. intros [= <-]. simpl. lia.
    + rewrite lookup_insert_ne by done. intros Hc.
      pose proof (wf_timeout _ H _ _ Hc). lia.
  - intros l Hl. destruct (wf_listener _ H _ Hl) as [Hlt Hn]. split; [lia|].
    intros i. rewrite !lookup_insert_ne by lia. apply Hn.
  - intros i d Hin.
    destruct (wf_sent _ H _ _ Hin) as (c & Hc & Ha). exists c. simpl.
    rewrite lookup_insert_ne; [done|]. intros <-. congruence.
Qed.

(** The frames of a drain tick are sent on behalf of the connection it
    runs for, and only when that connection is authenticated. *)
Lemma upstream_loop_ids i is_funded stack reAdd tr :
  (forall j d, RelaySend j d ∈ tr -> j = i) ->
  forall j d,
    RelaySend j d ∈ up_trace (upstream_loop env i is_funded stack reAdd tr) -> j = i.
Proof.
  revert reAdd tr. induction stack as [|data rest IH]; intros reAdd tr Htr; simpl; [done|].
  destruct (truthy_frame data); [|done].
  destruct is_funded.
  - destruct (JSON_parse env data) as [event|]; [|done].
    destruct (spam_check env i event) as [spam|] eqn:Hs; [|done].
    apply IH. intros j d [Hin|[Hin|Hin]%elem_of_app]%elem_of_app.
    + by eapply Htr.
    + unfold spam_check in Hs. repeat (case_match; simplify_eq).
      * apply list_elem_of_singleton in Hin. done.
      * by apply elem_of_nil in Hin.
      * by apply elem_of_nil in Hin.
    + apply list_elem_of_singleton in Hin. by simplify_eq.
  - destruct (JSON_parse env data) as [event|]; [|done].
    apply IH. intros j d [Hin|Hin]%elem_of_app; [by eapply Htr|].
    apply list_elem_of_singleton in Hin. by simplify_eq.
Qed.

Lemma downstream_loop_relay i stack tr j d :
  RelaySend j d ∈ (downstream_loop i stack tr).2 -> RelaySend j d ∈ tr.
Proof.
  revert tr. induction stack as [|data rest IH]; intros tr; simpl; [done|].
  destruct (truthy_frame data); [|done].
  intros Hin%IH. apply elem_of_app in Hin as [?|Hin]; [done|].
  apply list_elem_of_singleton in Hin. done.
Qed.

Lemma drainMessageQueue_relay_sends (c : ClientObj) j d :
  RelaySend j d ∈ (drainMessageQueue env c).2 ->
  j = id c /\ authenticated (ws c) = true /\ is_open (relay c) = true.
Proof.
  destruct (getWs c) as [s|] eqn:Hs.
  2:{ rewrite (drainMessageQueue_no_socket env c Hs).
      intros Hin. by apply elem_of_nil in Hin. }
  drain_with Hs. destruct (authenticated (ws c)); simpl.
  2:{ intros Hin. by apply elem_of_nil in Hin. }
  assert (Hup : RelaySend j d ∈ (drain_upstream env c).2 ->
                j = id c /\ is_open (relay c) = true).
  { unfold drain_upstream. destruct (is_open (relay c)).
    - intros Hin. split; [|done].
      eapply (upstream_loop_ids (id c) (funded (ws c)) (rev (queueUpstream c)) [] []).
      + intros ? ? Hnil. by apply elem_of_nil in Hnil.
      + destruct (up_completion _); exact Hin.
    - intros Hin. by apply elem_of_nil in Hin. }
  destruct (drain_upstream env c) as [[k c1] tr1]. simpl in *.
  destruct k; simpl.
  - unfold drain_downstream. destruct (is_open (readyState (ws c1))).
    + pose proof (downstream_loop_relay (id c1) (rev (queueDownstream c1)) [] j d) as Hd.
      destruct (downstream_loop _ _ _) as [rest tr2]. simpl in *.
      intros [Hin|Hin]%elem_of_app.
      * destruct (Hup Hin). done.
      * apply Hd in Hin. by apply elem_of_nil in Hin.
    + simpl. rewrite app_nil_r. intros Hin. destruct (Hup Hin). done.
  - intros Hin. destruct (Hup Hin). done.
Qed.

End WellFormedSteps.

Section WellFormedRuns.

Context (env : Env).

Lemma no_relay_send_in (tr : list Action) :
  forallb (fun a => match a with RelaySend _ _ => false | _ => true end) tr = true ->
  forall (i : nat) (d : Frame) (w : World), RelaySend i d ∈ tr -> admitted i w.
Proof.
  intros Hall i d w Hin. exfalso.
  rewrite forallb_forall in Hall. apply list_elem_of_In in Hin.
  by specialize (Hall _ Hin).
Qed.

Lemma Wf_on_message i data w : Wf w -> Wf (settle w (on_message env i data w)).
Proof.
  intros H. unfold on_message.
  destruct (heap w !! i) as [c|] eqn:Hc; [|done].
  assert (Henq : Wf (enqueue i c data w)) by by eapply Wf_put.
  destruct (negb (authenticated (ws c)) && includes data (quoted "AUTH")); [|exact Henq].
  destruct (JSON_parse env data) as [msg|]; cbn [of_option bind settle]; [|done].
  destruct (truthy (Some msg) && is_string (index msg 0) "AUTH"); [|exact Henq].
  assert (Hvalid : exists b,
    (if typeof_object (index msg 1)
     then validateAuthEvent env (index msg 1) (ws c) else Ret false) = Ret b).
  { destruct (typeof_object (index msg 1)); [|by eauto].
    rewrite validateAuthEvent_catch. eauto. }
  destruct Hvalid as [valid ->]. cbn [bind].
  destruct valid; cbn [negb]; [|by apply Wf_settle_close].
  destruct (prop (index msg 1) "pubkey") as [pubkey|]; cbn [of_option bind settle];
    [|done].
  destruct (is_string pubkey (bot_publicKey env)); cbn [settle].
  - by eapply Wf_put.
  - apply Wf_suspend, Wf_emit; [by eapply Wf_put|].
    intros j d Hin. eapply (no_relay_send_in [GetBalance i pubkey]); [reflexivity|exact Hin].
Qed.

Lemma Wf_resume p a o w :
  Wf w ->
  let w1 := set_awaits (delete p (awaits w)) w in
  Wf (settle w1 (resume env a o w1)).
Proof.
  intros H w1. assert (H1 : Wf w1) by by apply Wf_delete_await.
  destruct a as [i pubkey|i pubkey|i pubkey]; simpl.
  - destruct o as [balance|]; simpl; [|done].
    destruct (sufficient env balance); simpl; [by apply Wf_fund|].
    apply Wf_suspend, Wf_emit; [done|].
    intros j d Hin. eapply (no_relay_send_in [AskForCollateral i pubkey]); [reflexivity|exact Hin].
  - destruct o as [balance|]; simpl; [|by apply Wf_settle_close].
    apply (Wf_add_listener (mkListener (paid_event pubkey) i (nextHandle w))
             (add_timer (PaymentTimer i pubkey) w1)).
    + by apply Wf_add_timer.
    + simpl. lia.
    + intros j. simpl. by rewrite lookup_insert_eq.
  - destruct o as [balance|]; simpl; [|done].
    destruct (sufficient env balance); simpl; [by apply Wf_fund|by apply Wf_settle_close].
Qed.

Lemma Wf_fire h w w' : Wf w -> fire env h w = Some w' -> Wf w'.
Proof.
  intros H. unfold fire.
  destruct (timers w !! h) as [[i|i|i pubkey]|] eqn:Ht; [| | |done].
  - destruct (heap w !! i) as [c|] eqn:Hc; [|done].
    pose proof (drainMessageQueue_frame env c) as (H1 & H2 & H3 & H4 & _ & _).
    pose proof (drainMessageQueue_relay_sends env c) as Hsends.
    destruct (drainMessageQueue env c) as [[k c'] tr]. simpl in *.
    assert (Hw : Wf (emit tr (put i c' w))).
    { apply Wf_emit; [eapply Wf_put; try done; by rewrite H2|].
      intros j d Hin. destruct (Hsends j d Hin) as (-> & Ha & _).
      rewrite (wf_id _ H _ _ Hc). exists c'. simpl. rewrite lookup_insert_eq.
      by rewrite H2. }
    destruct k; intros [= <-]; [done|by apply Wf_set_crashed].
  - destruct (heap w !! i) as [c|] eqn:Hc; [|done].
    assert (Hd : Wf (set_timers (delete h (timers w)) w)).
    { apply Wf_delete_timer; [done|]. intros j. by rewrite Ht. }
    destruct (authenticated (ws c)); intros [= <-]; [done|by apply Wf_settle_close].
  - destruct (heap w !! i) as [c|] eqn:Hc; [|done].
    assert (Hd : Wf (set_timers (delete h (timers w)) w)).
    { apply Wf_delete_timer; [done|]. intros j. by rewrite Ht. }
    destruct (funded (ws c)); intros [= <-]; [done|].
    apply Wf_suspend, Wf_emit; [done|].
    intros j d Hin. eapply (no_relay_send_in [GetBalance i pubkey]); [reflexivity|exact Hin].
Qed.

Lemma Wf_step ev w w' : Wf w -> step env ev w = Some w' -> Wf w'.
Proof.
  intros H. unfold step. destruct (crashed w); [done|].
  destruct ev as [challenge| |i|i data|i|i data|i|h|p o|pubKey].
  - by apply Wf_upgrade.
  - by apply Wf_upgrade.
  - destruct (heap w !! i) as [c|] eqn:Hc; [|done].
    destruct (relay c); try done. intros [= <-]. by eapply Wf_put.
  - destruct (heap w !! i) as [c|] eqn:Hc; [|done]. intros [= <-]. by eapply Wf_put.
  - destruct (heap w !! i) as [c|] eqn:Hc; [|done]. intros [= <-].
    apply Wf_settle_close. by eapply Wf_put.
  - destruct (heap w !! i) as [c|] eqn:Hc; [|done].
    destruct (getWs c) as [s|] eqn:Hs; [|done]. intros [= <-].
    by apply Wf_on_message.
  - destruct (heap w !! i) as [c|] eqn:Hc; [|done].
    destruct (getWs c) as [s|] eqn:Hs; [|done]. intros [= <-].
    rewrite <- (socket_ws c s Hs).
    apply Wf_settle_close. by eapply Wf_put.
  - by apply Wf_fire.
  - destruct (awaits w !! p) as [a|] eqn:Hp; [|done]. intros [= <-].
    by apply Wf_resume.
  - intros [= <-]. by apply Wf_paid.
Qed.

Lemma Wf_init : Wf init.
Proof.
  split; simpl.
  - intros i c Hc. by rewrite lookup_empty in Hc.
  - intros i. split; [set_solver|]. intros (c & Hc & _). by rewrite lookup_empty in Hc.
  - intros h i Hh. by rewrite lookup_empty in Hh.
  - intros i c Hc. by rewrite lookup_empty in Hc.
  - intros h t Hh. by rewrite lookup_empty in Hh.
  - intros i c Hc. by rewrite lookup_empty in Hc.
  - intros l Hl. by apply elem_of_nil in Hl.
  - intros i d Hin. by apply elem_of_nil in Hin.
Qed.

Lemma run_Wf evs w w' : Wf w -> run env evs w = Some w' -> Wf w'.
Proof.
  revert w. induction evs as [|ev evs IH]; intros w H; simpl.
  - by intros [= <-].
  - destruct (step env ev w) as [w1|] eqn:Hs; [|done].
    apply IH. by eapply Wf_step.
Qed.

Lemma reachable_Wf w : reachable env w -> Wf w.
Proof. intros [evs Hr]. eapply run_Wf; [apply Wf_init|done]. Qed.

End WellFormedRuns.

(** X16.  In every state the process reaches, the registry holds exactly
    the connections that have not been torn down, each under its own
    id. *)
Theorem registry_holds_the_open_connections (env : Env) (w : World) (i : nat) :
  reachable env w ->
  (i ∈ clients w <-> exists c, heap w !! i = Some c /\ closed c = false /\ id c = i).
Proof.
  intros H%reachable_Wf. rewrite (wf_registry _ H). split.
  - intros (c & Hc & Hcl). exists c. repeat split; [done|done|by eapply wf_id].
  - intros (c & Hc & Hcl & _). eauto.
Qed.

Lemma registry_holds_the_open_connections_witness :
  (2%nat ∈ clients (Sample.after Sample.env (Sample.two_waiting ++ [WsClosed 1]))
   <-> exists c, heap (Sample.after Sample.env (Sample.two_waiting ++ [WsClosed 1]))
                 !! 2%nat = Some c /\ closed c = false /\ id c = 2%nat).
Proof.
  apply (registry_holds_the_open_connections Sample.env
           (Sample.after Sample.env (Sample.two_waiting ++ [WsClosed 1])) 2).
  exists (Sample.two_waiting ++ [WsClosed 1]). vm_compute. reflexivity.
Defined.

(** X17.  In every state the process reaches, the drain interval of a
    connection is pending exactly while the connection has not been torn
    down: no other timer, webhook or teardown of another connection ever
    stops it, and teardown always does. *)
Theorem drain_timer_runs_until_teardown
    (env : Env) (w : World) (i : nat) (c : ClientObj) :
  reachable env w -> heap w !! i = Some c ->
  (closed c = false <-> timers w !! timeout c = Some (DrainTimer i)).
Proof.
  intros H%reachable_Wf Hc. split.
  - by apply (wf_live _ H).
  - intros Ht. destruct (wf_drain _ H _ _ Ht) as (c' & Hc' & Hcl & _). by simplify_eq.
Qed.

Lemma drain_timer_runs_until_teardown_witness :
  let w := Sample.after Sample.env (Sample.two_waiting ++ [Paid "ab"; WsClosed 1]) in
  (false = false <-> timers w !! 5%nat = Some (DrainTimer 2)).
Proof.
  apply (drain_timer_runs_until_teardown Sample.env
           (Sample.after Sample.env (Sample.two_waiting ++ [Paid "ab"; WsClosed 1])) 2
           (mkClient 2 [] [] 5 false (Some (mkWs true true "c0ffee" OPEN)) CONNECTING)).
  - exists (Sample.two_waiting ++ [Paid "ab"; WsClosed 1]). vm_compute. reflexivity.
  - vm_compute. reflexivity.
Defined.

(** X18.  No frame is ever sent to the relay on behalf of a connection
    that has not authenticated. *)
Theorem nothing_upstream_before_authentication
    (env : Env) (w : World) (i : nat) (c : ClientObj) (data : Frame) :
  reachable env w -> heap w !! i = Some c -> authenticated (ws c) = false ->
  RelaySend i data ∉ log w.
Proof.
  intros H%reachable_Wf Hc Hauth Hin.
  destruct (wf_sent _ H _ _ Hin) as (c' & Hc' & Ha). simplify_eq. congruence.
Qed.

Lemma nothing_upstream_before_authentication_witness :
  RelaySend 1 Sample.note_frame
  ∉ log (Sample.after Sample.env Sample.early_traffic).
Proof.
  apply (nothing_upstream_before_authentication Sample.env
           (Sample.after Sample.env Sample.early_traffic) 1
           (mkClient 1 [Sample.note_frame] [Sample.note_frame] 0 false
              (Some (mkWs false false "c0ffee" OPEN)) OPEN)).
  - exists Sample.early_traffic. vm_compute. reflexivity.
  - vm_compute. reflexivity.
  - reflexivity.
Defined.

(** ** After teardown *)

Section AfterTeardown.

Context (env : Env).

Lemma sends_of_teardown_calls i j c : sends_of i (teardown_calls j c) = [].
Proof. unfold teardown_calls. by destruct (getWs c). Qed.

Lemma sends_of_app i t1 t2 : sends_of i (t1 ++ t2) = sends_of i t1 ++ sends_of i t2.
Proof. apply List.filter_app. Qed.

Lemma rests_refl i w : rests i w w.
Proof. intros c Hc Hcl. eauto. Qed.

Lemma rests_trans i w w1 w2 : rests i w w1 -> rests i w1 w2 -> rests i w w2.
Proof.
  intros H1 H2 c Hc Hcl. destruct (H1 c Hc Hcl) as (c1 & Hc1 & Hcl1 & Hs1).
  destruct (H2 c1 Hc1 Hcl1) as (c2 & Hc2 & Hcl2 & Hs2).
  exists c2. split; [done|]. split; [done|congruence].
Qed.

Lemma rests_put i j c c' w :
  heap w !! j = Some c -> (closed c = true -> closed c' = true) ->
  rests i w (put j c' w).
Proof.
  intros Hc Hcl d Hd Hdc. simpl. destruct (decide (j = i)) as [->|Hne].
  - rewrite lookup_insert_eq. simplify_eq. eauto.
  - rewrite lookup_insert_ne by done. eauto.
Qed.

Lemma rests_emit i tr w : sends_of i tr = [] -> rests i w (emit tr w).
Proof.
  intros Htr c Hc Hcl. exists c. simpl. rewrite sends_of_app, Htr, app_nil_r. done.
Qed.

(** A change to the timers, the waiters, the suspended handlers or the
    counters. *)
Lemma rests_same i w w' : heap w' = heap w -> log w' = log w -> rests i w w'.
Proof. intros Hh Hl c Hc Hcl. exists c. by rewrite Hh, Hl. Qed.

Lemma rests_fund i j w : rests i w (fund j w).
Proof.
  unfold fund. destruct (heap w !! j) as [c|] eqn:Hc; [|apply rests_refl].
  by eapply rests_put.
Qed.

Lemma rests_closeConnection i j w w' :
  closeConnection env j w = Ret w' -> rests i w w'.
Proof.
  destruct (heap w !! j) as [c|] eqn:Hc.
  2:{ rewrite closeConnection_closed; [intros [= <-]; apply rests_refl|].
      intros c' ?. by simplify_eq. }
  destruct (closed c) eqn:Hcl.
  { rewrite closeConnection_closed; [intros [= <-]; apply rests_refl|].
    intros c' ?. by simplify_eq. }
  rewrite (closeConnection_open env j c w Hc Hcl). intros [= <-].
  intros d Hd Hdc. simpl. rewrite sends_of_app, sends_of_teardown_calls, app_nil_r.
  destruct (decide (j = i)) as [->|Hne].
  - simplify_eq. congruence.
  - rewrite lookup_insert_ne by done. eauto.
Qed.

Lemma rests_settle_close i j w : rests i w (settle w (closeConnection env j w)).
Proof.
  destruct (closeConnection_returns env j w) as [w' Hw']. rewrite Hw'.
  by eapply rests_closeConnection.
Qed.

Lemma rests_notify i w l : rests i w (notify w l).
Proof.
  unfold notify. eapply rests_trans; [apply rests_fund|].
  eapply rests_trans; [|by apply rests_emit]. by apply rests_same.
Qed.

Lemma rests_foldl_notify i ls w : rests i w (foldl notify w ls).
Proof.
  revert w. induction ls as [|l ls IH]; intros w; simpl; [apply rests_refl|].
  eapply rests_trans; [apply rests_notify|apply IH].
Qed.

(** The frames of a drain tick are sent on behalf of its own
    connection. *)
Lemma upstream_loop_sends_of i j is_funded stack reAdd tr :
  i <> j ->
  sends_of i (up_trace (upstream_loop env j is_funded stack reAdd tr)) = sends_of i tr.
Proof.
  intros Hne. assert (Hb : Nat.eqb i j = false) by by apply Nat.eqb_neq.
  revert reAdd tr. induction stack as [|data rest IH]; intros reAdd tr; simpl; [done|].
  destruct (truthy_frame data); [|done].
  destruct is_funded.
  - destruct (JSON_parse env data) as [event|]; [|done].
    destruct (spam_check env j event) as [spam|] eqn:Hs; [|done].
    rewrite IH, !sends_of_app. simpl. rewrite Hb.
    assert (Hspam : sends_of i spam = []).
    { unfold spam_check in Hs. repeat (case_match; simplify_eq); done. }
    by rewrite Hspam, !app_nil_r.
  - destruct (JSON_parse env data) as [event|]; [|done].
    rewrite IH, sends_of_app. simpl. by rewrite Hb, app_nil_r.
Qed.

Lemma downstream_loop_sends_of i j stack tr :
  i <> j -> sends_of i (downstream_loop j stack tr).2 = sends_of i tr.
Proof.
  intros Hne. assert (Hb : Nat.eqb i j = false) by by apply Nat.eqb_neq.
  revert tr. induction stack as [|data rest IH]; intros tr; simpl; [done|].
  destruct (truthy_frame data); [|done].
  rewrite IH, sends_of_app. simpl. by rewrite Hb, app_nil_r.
Qed.

Lemma drainMessageQueue_sends_of i (c : ClientObj) :
  i <> id c -> sends_of i (drainMessageQueue env c).2 = [].
Proof.
  intros Hne. destruct (getWs c) as [s|] eqn:Hs;
    [|by rewrite (drainMessageQueue_no_socket env c Hs)].
  drain_with Hs. destruct (authenticated (ws c)); simpl; [|done].
  assert (Hup : sends_of i (drain_upstream env c).2 = []
                /\ id (drain_upstream env c).1.2 = id c).
  { unfold drain_upstream. destruct (is_open (relay c)); [|done].
    pose proof (upstream_loop_sends_of i (id c) (funded (ws c))
                  (rev (queueUpstream c)) [] [] Hne) as H.
    destruct (up_completion _); simpl; done. }
  destruct (drain_upstream env c) as [[k c1] tr1]. simpl in *.
  destruct Hup as [Hup Hid]. destruct k; [|done].
  unfold drain_downstream. destruct (is_open (readyState (ws c1))).
  - pose proof (downstream_loop_sends_of i (id c1) (rev (queueDownstream c1)) []) as Hd.
    destruct (downstream_loop _ _ _) as [rest tr2]. simpl in *.
    rewrite sends_of_app, Hup, Hd; [done|congruence].
  - simpl. by rewrite app_nil_r.
Qed.

Lemma rests_on_message i j data w : rests i w (settle w (on_message env j data w)).
Proof.
  unfold on_message.
  destruct (heap w !! j) as [c|] eqn:Hc; [|apply rests_refl].
  assert (Henq : rests i w (enqueue j c data w)) by by eapply rests_put.
  destruct (negb (authenticated (ws c)) && includes data (quoted "AUTH")); [|exact Henq].
  destruct (JSON_parse env data) as [msg|]; cbn [of_option bind settle];
    [|apply rests_refl].
  destruct (truthy (Some msg) && is_string (index msg 0) "AUTH"); [|exact Henq].
  assert (Hvalid : exists b,
    (if typeof_object (index msg 1)
     then validateAuthEvent env (index msg 1) (ws c) else Ret false) = Ret b).
  { destruct (typeof_object (index msg 1)); [|by eauto].
    rewrite validateAuthEvent_catch. eauto. }
  destruct Hvalid as [valid ->]. cbn [bind].
  destruct valid; cbn [negb]; [|apply rests_settle_close].
  destruct (prop (index msg 1) "pubkey") as [pubkey|]; cbn [of_option bind settle];
    [|apply rests_refl].
  destruct (is_string pubkey (bot_publicKey env)); cbn [settle].
  - by eapply rests_put.
  - set (c1 := set_ws (set_authenticated true (ws c)) c).
    eapply (rests_trans i w (put j c1 w)); [by eapply rests_put|].
    eapply (rests_trans i _ (emit [GetBalance j pubkey] (put j c1 w)));
      [by apply rests_emit|].
    by apply rests_same.
Qed.

Lemma rests_resume i p a o w :
  let w1 := set_awaits (delete p (awaits w)) w in
  rests i w (settle w1 (resume env a o w1)).
Proof.
  intros w1. assert (H1 : rests i w w1) by by apply rests_same.
  destruct a as [j pubkey|j pubkey|j pubkey]; simpl.
  - destruct o as [balance|]; simpl; [|done].
    destruct (sufficient env balance); simpl.
    + eapply rests_trans; [done|apply rests_fund].
    + eapply rests_trans; [done|].
      eapply (rests_trans i _ (emit [AskForCollateral j pubkey] w1));
        [by apply rests_emit|].
      by apply rests_same.
  - destruct o as [balance|]; simpl.
    + eapply rests_trans; [done|]. by apply rests_same.
    + eapply rests_trans; [done|apply rests_settle_close].
  - destruct o as [balance|]; simpl; [|done].
    destruct (sufficient env balance); simpl.
    + eapply rests_trans; [done|apply rests_fund].
    + eapply rests_trans; [done|apply rests_settle_close].
Qed.

Lemma rests_fire i h w w' : Wf w -> fire env h w = Some w' -> rests i w w'.
Proof.
  intros H. unfold fire.
  destruct (timers w !! h) as [[j|j|j pubkey]|] eqn:Ht; [| | |done].
  - destruct (heap w !! j) as [c|] eqn:Hc; [|done].
    destruct (wf_drain _ H _ _ Ht) as (c0 & Hc0 & Hopen & _). simplify_eq.
    pose proof (drainMessageQueue_frame env c) as (_ & _ & _ & H4 & _ & _).
    pose proof (drainMessageQueue_sends_of i c) as Hs.
    rewrite (wf_id _ H _ _ Hc) in Hs.
    destruct (drainMessageQueue env c) as [[k c'] tr]. simpl in *.
    assert (Hr : rests i w (emit tr (put j c' w))).
    { intros d Hd Hdc. assert (Hne : i <> j) by (intros ->; simplify_eq; congruence).
      simpl. rewrite lookup_insert_ne by done.
      exists d. rewrite sends_of_app, (Hs Hne), app_nil_r. done. }
    destruct k; intros [= <-]; [done|].
    eapply rests_trans; [done|]. by apply rests_same.
  - destruct (heap w !! j) as [c|] eqn:Hc; [|done].
    assert (Hd : rests i w (set_timers (delete h (timers w)) w)) by by apply rests_same.
    destruct (authenticated (ws c)); intros [= <-]; [done|].
    eapply rests_trans; [done|apply rests_settle_close].
  - destruct (heap w !! j) as [c|] eqn:Hc; [|done].
    assert (Hd : rests i w (set_timers (delete h (timers w)) w)) by by apply rests_same.
    destruct (funded (ws c)); intros [= <-]; [done|].
    eapply rests_trans; [done|].
    eapply (rests_trans i _ (emit [GetBalance j pubkey]
                               (set_timers (delete h (timers w)) w)));
      [by apply rests_emit|].
    by apply rests_same.
Qed.

Lemma rests_step i ev w w' : Wf w -> step env ev w = Some w' -> rests i w w'.
Proof.
  intros H. unfold step. destruct (crashed w); [done|].
  destruct ev as [challenge| |j|j data|j|j data|j|h|p o|pubKey].
  - intros (Hcl & Hfresh & ->)%upgrade_accepted.
    intros c Hc Hcc. assert (Hne : nextId w <> i) by (intros <-; congruence).
    simpl. rewrite lookup_insert_ne by done. exists c.
    rewrite sends_of_app. simpl.
    replace (Nat.eqb i (nextId w)) with false; [by rewrite app_nil_r|].
    symmetry. apply Nat.eqb_neq. done.
  - intros (Hcl & Hfresh & ->)%upgrade_refused.
    intros c Hc Hcc. assert (Hne : nextId w <> i) by (intros <-; congruence).
    simpl. rewrite lookup_insert_ne by done. by exists c.
  - destruct (heap w !! j) as [c|] eqn:Hc; [|done].
    destruct (relay c); try done. intros [= <-]. by eapply rests_put.
  - destruct (heap w !! j) as [c|] eqn:Hc; [|done]. intros [= <-]. by eapply rests_put.
  - destruct (heap w !! j) as [c|] eqn:Hc; [|done]. intros [= <-].
    eapply rests_trans; [|apply rests_settle_close]. by eapply rests_put.
  - destruct (heap w !! j) as [c|] eqn:Hc; [|done].
    destruct (getWs c) as [s|] eqn:Hs; [|done]. intros [= <-].
    apply rests_on_message.
  - destruct (heap w !! j) as [c|] eqn:Hc; [|done].
    destruct (getWs c) as [s|] eqn:Hs; [|done]. intros [= <-].
    rewrite <- (socket_ws c s Hs).
    eapply rests_trans; [|apply rests_settle_close]. by eapply rests_put.
  - by apply rests_fire.
  - destruct (awaits w !! p) as [a|] eqn:Hp; [|done]. intros [= <-].
    apply rests_resume.
  - intros [= <-]. unfold paid.
    eapply rests_trans; [|apply rests_foldl_notify]. by apply rests_same.
Qed.

Lemma rests_run i evs w w' : Wf w -> run env evs w = Some w' -> rests i w w'.
Proof.
  revert w. induction evs as [|ev evs IH]; intros w H; simpl.
  - intros [= <-]. apply rests_refl.
  - destruct (step env ev w) as [w1|] eqn:Hs; [|done]. intros Hrun.
    eapply rests_trans; [by eapply rests_step|].
    apply IH; [by eapply Wf_step|done].
Qed.

End AfterTeardown.

(** X19.  Teardown is final: once a connection is closed it stays closed,
    and whatever happens afterwards (frames still arriving on its
    sockets, its timers firing, the webhook) no frame is sent on its
    behalf again, to the relay or to the client. *)
Theorem nothing_is_sent_after_teardown
    (env : Env) (evs : list Event) (w w' : World) (i : nat) (c : ClientObj) :
  reachable env w -> heap w !! i = Some c -> closed c = true ->
  run env evs w = Some w' ->
  exists c', heap w' !! i = Some c' /\ closed c' = true /\
             sends_of i (log w') = sends_of i (log w).
Proof.
  intros H%reachable_Wf Hc Hcl Hrun. by eapply (rests_run env i evs w w').
Qed.

Lemma nothing_is_sent_after_teardown_witness :
  exists c', heap (Sample.after Sample.env (Sample.closed_early ++ Sample.late_events))
             !! 1%nat = Some c' /\ closed c' = true /\
             sends_of 1 (log (Sample.after Sample.env
                                (Sample.closed_early ++ Sample.late_events)))
             = sends_of 1 (log (Sample.after Sample.env Sample.closed_early)).
Proof.
  apply (nothing_is_sent_after_teardown Sample.env Sample.late_events
           (Sample.after Sample.env Sample.closed_early)
           (Sample.after Sample.env (Sample.closed_early ++ Sample.late_events)) 1
           (mkClient 1 [] [] 0 true (Some (mkWs true true "c0ffee" CLOSED)) CLOSING)).
  - exists Sample.closed_early. vm_compute. reflexivity.
  - vm_compute. reflexivity.
  - reflexivity.
  - vm_compute. reflexivity.
Defined.

(** ** Which authentication events are accepted *)

Lemma find_tag_first_tag tag tags v :
  find_tag tag tags = Ret v -> v = first_tag tag tags.
Proof.
  induction tags as [|el rest IH]; simpl; [by intros [= <-]|].
  unfold first_tag in *. simpl.
  destruct el; simpl; try done;
    match goal with
    | |- context [is_string ?x tag] => destruct (is_string x tag)
    end; try (by intros [= <-]); apply IH.
Qed.

Lemma find_tag_iterable tag tags :
  Forall iterable tags -> find_tag tag tags = Ret (first_tag tag tags).
Proof.
  induction 1 as [|el rest Hel _ IH]; simpl; [done|].
  unfold first_tag in *. simpl.
  destruct el; simpl in *; try done;
    match goal with
    | |- context [is_string ?x tag] => destruct (is_string x tag)
    end; done.
Qed.

Lemma tag_value_first_tag event tag v :
  tag_value event tag = Ret v ->
  exists tags el,
    prop event "tags" = Some (Some (JArr tags)) /\
    first_tag tag tags = Some el /\ index el 1 = v.
Proof.
  unfold tag_value.
  destruct (prop event "tags") as [[[| | | |tags|]|]|]; simpl; try done.
  destruct (find_tag tag tags) as [found|] eqn:Hf; simpl; [|done].
  apply find_tag_first_tag in Hf. subst found.
  destruct (first_tag tag tags) as [[| | | | |]|] eqn:Hft; simpl; try done;
    intros [= <-]; eauto.
Qed.

(** X20.  [validateAuthEvent] accepts an event only if [validateEvent]
    and [verifySignature] accept it, its [tags] are an array, the first
    [challenge] tag carries exactly the challenge issued to this socket,
    and the first [relay] tag carries a URL whose host is the proxy's. *)
Theorem validateAuthEvent_sound (env : Env) (event : value) (w : WebSocket) :
  validateAuthEvent env event w = Ret true ->
  validateEvent env event = Some true /\ verifySignature env event = Some true /\
  exists tags ch r url,
    prop event "tags" = Some (Some (JArr tags)) /\
    first_tag "challenge" tags = Some ch /\
    index ch 1 = Some (JStr (authChallenge w)) /\
    first_tag "relay" tags = Some r /\
    index r 1 = Some url /\ URL_host env url = Some (proxyUrl_host env).
Proof.
  intros (Hv & Hs & Hch & url & Hr & Hhost)%validateAuthEvent_true.
  split; [done|]. split; [done|].
  apply tag_value_first_tag in Hch as (tags & ch & Htags & Hfc & Hc).
  apply tag_value_first_tag in Hr as (tags' & r & Htags' & Hfr & Hrv).
  rewrite Htags in Htags'. simplify_eq.
  exists tags', ch, r, url. done.
Qed.

Lemma validateAuthEvent_sound_witness :
  validateEvent Sample.env (Some Sample.good_event) = Some true /\
  verifySignature Sample.env (Some Sample.good_event) = Some true /\
  exists tags ch r url,
    prop (Some Sample.good_event) "tags" = Some (Some (JArr tags)) /\
    first_tag "challenge" tags = Some ch /\
    index ch 1 = Some (JStr "c0ffee") /\
    first_tag "relay" tags = Some r /\
    index r 1 = Some url /\ URL_host Sample.env url = Some "proxy.example"%string.
Proof.
  apply (validateAuthEvent_sound Sample.env (Some Sample.good_event)
           (mkWs false false "c0ffee" OPEN)).
  reflexivity.
Defined.

(** X21.  Conversely, an event that [validateEvent] and [verifySignature]
    accept, whose tags are all arrays or strings, whose first [challenge]
    tag carries the socket's challenge (which is not empty) and whose
    first [relay] tag carries a URL with the proxy's host, is accepted. *)
Theorem validateAuthEvent_complete
    (env : Env) (event : value) (w : WebSocket) (tags : list json) (ch r url : json) :
  validateEvent env event = Some true -> verifySignature env event = Some true ->
  prop event "tags" = Some (Some (JArr tags)) -> Forall iterable tags ->
  first_tag "challenge" tags = Some ch ->
  index ch 1 = Some (JStr (authChallenge w)) -> authChallenge w <> EmptyString ->
  first_tag "relay" tags = Some r ->
  index r 1 = Some url -> truthy (Some url) = true ->
  URL_host env url = Some (proxyUrl_host env) ->
  validateAuthEvent env event w = Ret true.
Proof.
  intros Hv Hs Htags Hall Hfc Hc Hne Hfr Hr Hurl Hhost.
  assert (Hit : forall el, el ∈ tags -> iterable el).
  { by apply Forall_forall. }
  assert (Hsec : forall tag el, first_tag tag tags = Some el ->
                   tag_value event tag = Ret (index el 1)).
  { intros tag el Hf. unfold tag_value. rewrite Htags. simpl.
    rewrite (find_tag_iterable tag tags Hall), Hf. simpl.
    assert (Hin : el ∈ tags).
    { apply list_elem_of_In. by apply (List.find_some _ _ Hf). }
    specialize (Hit el Hin). by destruct el. }
  assert (Ht : truthy (Some (JStr (authChallenge w))) = true).
  { simpl. apply negb_true_iff. by apply String.eqb_neq. }
  assert (Hi : is_string (Some (JStr (authChallenge w))) (authChallenge w) = true).
  { simpl. apply String.eqb_refl. }
  rewrite validateAuthEvent_catch. unfold validateAuthEvent_try.
  rewrite Hv, Hs. cbn [of_option bind negb].
  rewrite (Hsec _ _ Hfc), Hc. cbn [bind]. rewrite Ht, Hi. cbn [negb orb].
  rewrite (Hsec _ _ Hfr), Hr. cbn [bind]. rewrite Hurl. cbn [negb].
  rewrite Hhost. cbn [of_option bind]. by rewrite String.eqb_refl.
Qed.

Lemma validateAuthEvent_complete_witness :
  validateAuthEvent Sample.env (Some Sample.good_event) (mkWs false false "c0ffee" OPEN)
  = Ret true.
Proof.
  apply (validateAuthEvent_complete Sample.env (Some Sample.good_event)
           (mkWs false false "c0ffee" OPEN)
           [Sample.relay_tag; Sample.challenge_tag]
           Sample.challenge_tag Sample.relay_tag (JStr "wss://proxy.example")).
  - reflexivity.
  - reflexivity.
  - reflexivity.
  - repeat constructor.
  - reflexivity.
  - reflexivity.
  - discriminate.
  - reflexivity.
  - reflexivity.
  - reflexivity.
  - reflexivity.
Defined.

(** Only the first tag of a name counts: an event whose first [challenge]
    tag is wrong is rejected even if a later one is right. *)
Example validateAuthEvent_first_challenge_only :
  validateAuthEvent Sample.env
    (Some (Sample.auth_event "ab"
             [Sample.relay_tag; JArr [JStr "challenge"; JStr "wrong"];
              Sample.challenge_tag]))
    (mkWs false false "c0ffee" OPEN)
  = Ret false.
Proof. reflexivity. Qed.

(** ** Funding presupposes authentication *)

Section Funding.

Context (env : Env).

Lemma faa_put i c' w :
  funded_after_auth w ->
  (funded (ws c') = true -> authenticated (ws c') = true) ->
  funded_after_auth (put i c' w).
Proof.
  intros F Hc' j d. simpl. destruct (decide (i = j)) as [<-|Hne].
  - rewrite lookup_insert_eq. by intros [= <-].
  - rewrite lookup_insert_ne by done. apply F.
Qed.

Lemma faa_same w w' : heap w' = heap w -> funded_after_auth w -> funded_after_auth w'.
Proof. intros Hh F i c. rewrite Hh. apply F. Qed.

Lemma faa_fund i w :
  funded_after_auth w -> admitted i w -> funded_after_auth (fund i w).
Proof.
  intros F (c & Hc & Ha). unfold fund. rewrite Hc. by apply faa_put.
Qed.

Lemma faa_closeConnection i w w' :
  funded_after_auth w -> closeConnection env i w = Ret w' -> funded_after_auth w'.
Proof.
  intros F. destruct (heap w !! i) as [c|] eqn:Hc.
  2:{ rewrite closeConnection_closed; [by intros [= <-]|]. intros c' ?. by simplify_eq. }
  destruct (closed c) eqn:Hcl.
  { rewrite closeConnection_closed; [by intros [= <-]|]. intros c' ?. by simplify_eq. }
  rewrite (closeConnection_open env i c w Hc Hcl). intros [= <-].
  destruct (torn_down_frame env c) as (_ & _ & _ & Ha & Hf & _).
  intros j d. simpl. destruct (decide (i = j)) as [<-|Hne].
  - rewrite lookup_insert_eq. intros [= <-]. rewrite Ha, Hf. exact (F _ _ Hc).
  - rewrite lookup_insert_ne by done. apply F.
Qed.

Lemma faa_settle_close i w :
  funded_after_auth w -> funded_after_auth (settle w (closeConnection env i w)).
Proof.
  intros F. destruct (closeConnection_returns env i w) as [w' Hw']. rewrite Hw'.
  by eapply faa_closeConnection.
Qed.

Lemma faa_foldl_notify ls w :
  funded_after_auth w -> (forall l, l ∈ ls -> admitted (l_conn l) w) ->
  funded_after_auth (foldl notify w ls).
Proof.
  revert w. induction ls as [|l ls IH]; intros w F Hadm; simpl; [done|].
  apply IH.
  - unfold notify. eapply faa_same; [reflexivity|]. eapply faa_same; [reflexivity|].
    apply faa_fund; [done|]. apply Hadm, list_elem_of_here.
  - intros l' Hl'. eapply admitted_evolves; [apply evolves_notify|].
    by apply Hadm, list_elem_of_further.
Qed.

Lemma faa_step ev w w' :
  Inv w -> funded_after_auth w -> step env ev w = Some w' -> funded_after_auth w'.
Proof.
  intros HI F. unfold step. destruct (crashed w); [done|].
  destruct ev as [challenge| |i|i data|i|i data|i|h|p o|pubKey].
  - intros (Hcl & Hfresh & ->)%upgrade_accepted.
    eapply faa_same; [reflexivity|]. by apply (faa_put (nextId w) _ w).
  - intros (Hcl & Hfresh & ->)%upgrade_refused.
    eapply faa_same; [reflexivity|]. by apply (faa_put (nextId w) _ w).
  - destruct (heap w !! i) as [c|] eqn:Hc; [|done].
    destruct (relay c); try done. intros [= <-]. apply faa_put; [done|]. exact (F _ _ Hc).
  - destruct (heap w !! i) as [c|] eqn:Hc; [|done]. intros [= <-].
    apply faa_put; [done|]. exact (F _ _ Hc).
  - destruct (heap w !! i) as [c|] eqn:Hc; [|done]. intros [= <-].
    apply faa_settle_close, faa_put; [done|]. exact (F _ _ Hc).
  - destruct (heap w !! i) as [c|] eqn:Hc; [|done].
    destruct (getWs c) as [s|] eqn:Hs; [|done]. intros [= <-].
    unfold on_message. rewrite Hc.
    assert (Henq : funded_after_auth (enqueue i c data w)).
    { apply faa_put; [done|]. exact (F _ _ Hc). }
    destruct (negb (authenticated (ws c)) && includes data (quoted "AUTH")); [|exact Henq].
    destruct (JSON_parse env data) as [msg|]; cbn [of_option bind settle]; [|done].
    destruct (truthy (Some msg) && is_string (index msg 0) "AUTH"); [|exact Henq].
    assert (Hvalid : exists b,
      (if typeof_object (index msg 1)
       then validateAuthEvent env (index msg 1) (ws c) else Ret false) = Ret b).
    { destruct (typeof_object (index msg 1)); [|by eauto].
      rewrite validateAuthEvent_catch. eauto. }
    destruct Hvalid as [valid ->]. cbn [bind].
    destruct valid; cbn [negb]; [|by apply faa_settle_close].
    destruct (prop (index msg 1) "pubkey") as [pubkey|]; cbn [of_option bind settle];
      [|done].
    destruct (is_string pubkey (bot_publicKey env)); cbn [settle].
    + by apply faa_put.
    + eapply faa_same; [reflexivity|]. by apply (faa_put i _ w).
  - destruct (heap w !! i) as [c|] eqn:Hc; [|done].
    destruct (getWs c) as [s|] eqn:Hs; [|done]. intros [= <-].
    rewrite <- (socket_ws c s Hs).
    apply faa_settle_close, faa_put; [done|]. exact (F _ _ Hc).
  - unfold fire.
    destruct (timers w !! h) as [[i|i|i pubkey]|] eqn:Ht; [| | |done].
    + destruct (heap w !! i) as [c|] eqn:Hc; [|done].
      pose proof (drainMessageQueue_frame env c) as (_ & H2 & _).
      destruct (drainMessageQueue env c) as [[k c'] tr]. simpl in *.
      assert (Hp : funded_after_auth (put i c' w)).
      { apply faa_put; [done|]. rewrite H2. exact (F _ _ Hc). }
      destruct k; intros [= <-]; by eapply faa_same.
    + destruct (heap w !! i) as [c|] eqn:Hc; [|done].
      destruct (authenticated (ws c)); intros [= <-]; [by eapply faa_same|].
      apply faa_settle_close. by eapply faa_same.
    + destruct (heap w !! i) as [c|] eqn:Hc; [|done].
      destruct (funded (ws c)); intros [= <-]; by eapply faa_same.
  - destruct (awaits w !! p) as [a|] eqn:Hp; [|done]. intros [= <-].
    assert (Hadm : admitted (await_owner a) w).
    { apply (inv_admitted _ HI). right. right. left. by exists p, a. }
    set (w1 := set_awaits (delete p (awaits w)) w).
    assert (F1 : funded_after_auth w1) by by eapply faa_same.
    destruct a as [i pubkey|i pubkey|i pubkey]; simpl in *.
    + destruct o as [balance|]; simpl; [|done].
      destruct (sufficient env balance); simpl; [by apply faa_fund|].
      by eapply faa_same.
    + destruct o as [balance|]; simpl; [by eapply faa_same|by apply faa_settle_close].
    + destruct o as [balance|]; simpl; [|done].
      destruct (sufficient env balance); simpl; [by apply faa_fund|].
      by apply faa_settle_close.
  - intros [= <-]. unfold paid. apply faa_foldl_notify; [by eapply faa_same|].
    intros l Hl. apply list_elem_of_In, List.filter_In in Hl as [Hl _].
    apply list_elem_of_In in Hl.
    assert (Hadm : admitted (l_conn l) w).
    { apply (inv_admitted _ HI). right. right. right. right. by exists l. }
    destruct Hadm as (c & Hc & Ha). by exists c.
Qed.

Lemma faa_run evs w w' :
  Inv w -> funded_after_auth w -> run env evs w = Some w' -> funded_after_auth w'.
Proof.
  revert w. induction evs as [|ev evs IH]; intros w HI F; simpl.
  - by intros [= <-].
  - destruct (step env ev w) as [w1|] eqn:Hs; [|done].
    apply IH; [|by eapply faa_step].
    eapply turn_Inv; [done|]. by eapply step_turn.
Qed.

End Funding.

(** X22.  In every state the process reaches, a connection that is
    funded has authenticated: neither the webhook nor a balance lookup
    ever marks funded a connection that did not pass authentication. *)
Theorem funded_connections_have_authenticated
    (env : Env) (w : World) (i : nat) (c : ClientObj) :
  reachable env w -> heap w !! i = Some c -> funded (ws c) = true ->
  authenticated (ws c) = true.
Proof.
  intros [evs Hr]. revert i c.
  eapply (faa_run env evs init w); [apply Inv_init| |done].
  intros i c Hc. simpl in Hc. by rewrite lookup_empty in Hc.
Qed.

Lemma funded_connections_have_authenticated_witness :
  authenticated (ws (mkClient 2 [] [] 5 false (Some (mkWs true true "c0ffee" OPEN)) CONNECTING))
  = true.
Proof.
  apply (funded_connections_have_authenticated Sample.env
           (Sample.after Sample.env (Sample.two_waiting ++ [Paid "ab"])) 2
           (mkClient 2 [] [] 5 false (Some (mkWs true true "c0ffee" OPEN)) CONNECTING)).
  - exists (Sample.two_waiting ++ [Paid "ab"]). vm_compute. reflexivity.
  - vm_compute. reflexivity.
  - reflexivity.
Defined.

(** ** How often the collaborators are called *)

Section Bounds.

Context (env : Env).

Lemma lookups_snoc i j pubkey tr :
  balance_lookups i (tr ++ [GetBalance j pubkey])
  = (balance_lookups i tr + if Nat.eqb i j then 1 else 0)%nat
  /\ payment_prompts i (tr ++ [GetBalance j pubkey]) = payment_prompts i tr.
Proof.
  rewrite balance_lookups_app, payment_prompts_app.
  unfold balance_lookups at 2, payment_prompts at 2. simpl.
  destruct (Nat.eqb i j); simpl; split; lia.
Qed.

Lemma prompts_snoc i j pubkey tr :
  payment_prompts i (tr ++ [AskForCollateral j pubkey])
  = (payment_prompts i tr + if Nat.eqb i j then 1 else 0)%nat
  /\ balance_lookups i (tr ++ [AskForCollateral j pubkey]) = balance_lookups i tr.
Proof.
  rewrite balance_lookups_app, payment_prompts_app.
  unfold balance_lookups at 2, payment_prompts at 2. simpl.
  destruct (Nat.eqb i j); simpl; split; lia.
Qed.

(** The bounds of a connection other than the one that moved survive the
    turn. *)
Lemma flow_bounds_evolves oj i w w' :
  evolves oj w w' -> oj <> Some i -> flow_bounds i w -> flow_bounds i w'.
Proof.
  intros Hev Hne (HL & HP & Haw & Htm).
  pose proof (ev_lookups _ _ _ Hev i Hne) as EL.
  pose proof (ev_prompts _ _ _ Hev i Hne) as EP.
  assert (Hold_a : forall p a, awaits w' !! p = Some a -> await_owner a = i ->
                               awaits w !! p = Some a).
  { intros p a Ha Ho. destruct (ev_awaits _ _ _ Hev _ _ Ha) as [?|?]; [done|congruence]. }
  assert (Hold_t : forall h pk, timers w' !! h = Some (PaymentTimer i pk) ->
                                timers w !! h = Some (PaymentTimer i pk)).
  { intros h pk Ht. destruct (ev_timers _ _ _ Hev _ _ _ Ht) as [?|?]; [done|congruence]. }
  unfold flow_bounds. rewrite EL, EP. repeat split; try done.
  - intros p' a' Ha' Ho'. destruct (Haw p a (Hold_a _ _ H H0) H0) as (Hu & _).
    eapply Hu; [by apply Hold_a|done].
  - intros (h & pk & Ht). destruct (Haw p a (Hold_a _ _ H H0) H0) as (_ & Hn & _).
    apply Hn. exists h, pk. by apply Hold_t.
  - destruct (Haw p a (Hold_a _ _ H H0) H0) as (_ & _ & Hm). done.
  - destruct (Htm h pubkey (Hold_t _ _ H)) as [? _]. done.
  - intros h' pk' Ht'. destruct (Htm h pubkey (Hold_t _ _ H)) as [_ Hu].
    eapply Hu. by apply Hold_t.
Qed.

End Bounds.

Section Moves.

Context (env : Env).

(** Every turn of the event loop either adds nothing to any admission
    flow, or is one of the four moves of the flow of one connection. *)
Lemma on_message_moves i data w :
  let w' := settle w (on_message env i data w) in
  evolves None w w' \/ (evolves (Some i) w w' /\ moved i w w').
Proof.
  unfold on_message.
  destruct (heap w !! i) as [c|] eqn:Hc; [|left; apply evolves_refl].
  assert (Henq : evolves None w (enqueue i c data w)) by by eapply evolves_put.
  destruct (negb (authenticated (ws c)) && includes data (quoted "AUTH")) eqn:Hcond;
    [|by left].
  apply andb_prop in Hcond as [Hauth%negb_true_iff _].
  destruct (JSON_parse env data) as [msg|]; cbn [of_option bind settle];
    [|left; apply evolves_refl].
  destruct (truthy (Some msg) && is_string (index msg 0) "AUTH"); [|by left].
  assert (Hvalid : exists b,
    (if typeof_object (index msg 1)
     then validateAuthEvent env (index msg 1) (ws c) else Ret false) = Ret b).
  { destruct (typeof_object (index msg 1)); [|by eauto].
    rewrite validateAuthEvent_catch. eauto. }
  destruct Hvalid as [valid ->]. cbn [bind].
  destruct valid; cbn [negb]; [|left; apply evolves_settle_close].
  destruct (prop (index msg 1) "pubkey") as [pubkey|]; cbn [of_option bind settle];
    [|left; apply evolves_refl].
  destruct (is_string pubkey (bot_publicKey env)); cbn [settle].
  { left. by eapply evolves_put. }
  right. split.
  - eapply evolves_trans_l.
    + eapply (evolves_put i c (set_ws (set_authenticated true (ws c)) c)); done.
    + apply evolves_suspend; [done|]. intros j Hj. by apply is_lookup_other.
  - left. exists c, pubkey. done.
Qed.

Lemma resume_moves p a o w :
  awaits w !! p = Some a ->
  let w1 := set_awaits (delete p (awaits w)) w in
  let w' := settle w1 (resume env a o w1) in
  evolves None w w' \/ (evolves (Some (await_owner a)) w w' /\ moved (await_owner a) w w').
Proof.
  intros Hp w1.
  assert (Hev1 : evolves None w w1) by apply evolves_delete_await.
  destruct a as [i pubkey|i pubkey|i pubkey]; simpl.
  - destruct o as [balance|]; simpl; [|by left].
    destruct (sufficient env balance); simpl.
    { left. eapply evolves_trans; [done|apply evolves_fund]. }
    right. split.
    + eapply evolves_trans_l; [done|].
      apply evolves_suspend; [done|]. intros j Hj. by apply is_prompt_other.
    + right. left. by exists p, pubkey.
  - destruct o as [balance|]; simpl.
    2:{ left. eapply evolves_trans; [done|apply evolves_settle_close]. }
    right. split.
    + eapply evolves_trans_l; [done|]. apply (evolves_await_payment i pubkey w1).
    + right. right. left. by exists p, pubkey.
  - left. destruct o as [balance|]; simpl; [|done].
    destruct (sufficient env balance); simpl.
    + eapply evolves_trans; [done|apply evolves_fund].
    + eapply evolves_trans; [done|apply evolves_settle_close].
Qed.

Lemma fire_moves h w w' :
  fire env h w = Some w' ->
  evolves None w w' \/ exists j, evolves (Some j) w w' /\ moved j w w'.
Proof.
  unfold fire.
  destruct (timers w !! h) as [[i|i|i pubkey]|] eqn:Ht; [| | |done].
  - destruct (heap w !! i) as [c|] eqn:Hc; [|done].
    pose proof (drainMessageQueue_frame env c) as (H1 & H2 & _ & _ & _ & H6).
    destruct (drainMessageQueue env c) as [[k c'] tr]. simpl in *.
    assert (Hev : evolves None w (emit tr (put i c' w))).
    { eapply evolves_trans; [eapply (evolves_put i c c')|by apply evolves_emit];
        [done|done|by rewrite H2|by rewrite H2]. }
    destruct k; intros [= <-]; left; [done|].
    eapply evolves_trans; [done|apply evolves_set_crashed].
  - destruct (heap w !! i) as [c|] eqn:Hc; [|done].
    destruct (authenticated (ws c)); intros [= <-]; left.
    + apply evolves_delete_timer.
    + eapply evolves_trans; [apply evolves_delete_timer|apply evolves_settle_close].
  - destruct (heap w !! i) as [c|] eqn:Hc; [|done].
    destruct (funded (ws c)); intros [= <-].
    { left. apply evolves_delete_timer. }
    right. exists i. split.
    + eapply evolves_trans_l; [apply evolves_delete_timer|].
      apply evolves_suspend; [done|]. intros j Hj. by apply is_lookup_other.
    + right. right. right. by exists h, pubkey.
Qed.

Lemma step_moves ev w w' :
  step env ev w = Some w' ->
  evolves None w w' \/ exists j, evolves (Some j) w w' /\ moved j w w'.
Proof.
  unfold step. destruct (crashed w); [done|].
  destruct ev as [challenge| |i|i data|i|i data|i|h|p o|pubKey].
  - intros H. left. by eapply evolves_upgrade.
  - intros H. left. by eapply evolves_upgrade.
  - destruct (heap w !! i) as [c|] eqn:Hc; [|done].
    destruct (relay c); try done. intros [= <-]. left. by eapply evolves_put.
  - destruct (heap w !! i) as [c|] eqn:Hc; [|done]. intros [= <-].
    left. by eapply evolves_put.
  - destruct (heap w !! i) as [c|] eqn:Hc; [|done]. intros [= <-]. left.
    eapply evolves_trans; [|apply evolves_settle_close]. by eapply evolves_put.
  - destruct (heap w !! i) as [c|] eqn:Hc; [|done].
    destruct (getWs c) as [s|] eqn:Hs; [|done]. intros [= <-].
    destruct (on_message_moves i data w) as [?|[? ?]]; [by left|right; eauto].
  - destruct (heap w !! i) as [c|] eqn:Hc; [|done].
    destruct (getWs c) as [s|] eqn:Hs; [|done]. intros [= <-]. left.
    rewrite <- (socket_ws c s Hs).
    eapply evolves_trans; [|apply evolves_settle_close]. by eapply evolves_put.
  - apply fire_moves.
  - destruct (awaits w !! p) as [a|] eqn:Hp; [|done]. intros [= <-].
    destruct (resume_moves p a o w Hp) as [?|[? ?]]; [by left|right; eauto].
  - intros [= <-]. left. apply evolves_paid.
Qed.

End Moves.

Section BoundsSteps.

Context (env : Env).

(** After a handler of [j] has suspended at a fresh promise, with no
    other handler of [j] suspended, that promise is the only one. *)
Lemma sole_await j a (m : gmap nat Await) n p b :
  (forall q c, m !! q = Some c -> await_owner c <> j) ->
  <[n := a]> m !! p = Some b -> await_owner b = j -> p = n /\ b = a.
Proof.
  intros Hnone Hp Ho. destruct (decide (n = p)) as [<-|Hne].
  - rewrite lookup_insert_eq in Hp. by simplify_eq.
  - rewrite lookup_insert_ne in Hp by done. by destruct (Hnone _ _ Hp).
Qed.

Lemma flow_bounds_moved j w w' :
  Inv w -> flow_bounds j w -> moved j w w' -> flow_bounds j w'.
Proof.
  intros HI (HL & HP & Haw & Htm) [Hm|[Hm|[Hm|Hm]]].
  - destruct Hm as (c & pubkey & Hc & Hauth & ->).
    pose proof (not_admitted_quiet j c w HI Hc Hauth) as Hq.
    pose proof (not_engaged_lookups j w Hq) as HL0.
    pose proof (not_engaged_prompts j w Hq) as HP0.
    assert (Hnone : forall q b, awaits w !! q = Some b -> await_owner b <> j).
    { intros q b Hb Ho. apply Hq. right. right. left. by exists q, b. }
    assert (Hnt : ~ has_payment_timer j w).
    { intros Ht. apply Hq. right. right. right. by left. }
    destruct (lookups_snoc j j pubkey (log w)) as [EL EP].
    rewrite Nat.eqb_refl in EL.
    unfold flow_bounds. simpl. rewrite EL, EP, HL0, HP0.
    split; [lia|]. split; [lia|]. split.
    + intros p a Hp Ho. destruct (sole_await j _ _ _ _ _ Hnone Hp Ho) as [-> ->].
      split; [|split; [done|split; [lia|done]]].
      intros p' a' Hp' Ho'. by destruct (sole_await j _ _ _ _ _ Hnone Hp' Ho').
    + intros h pk Ht. destruct Hnt. by exists h, pk.
  - destruct Hm as (p & pubkey & Hp & ->).
    destruct (Haw p _ Hp eq_refl) as (Hu & Hnt & HL1 & HP0).
    assert (Hnone : forall q b, delete p (awaits w) !! q = Some b -> await_owner b <> j).
    { intros q b Hb Ho. apply lookup_delete_Some in Hb as [Hne Hb].
      by specialize (Hu _ _ Hb Ho). }
    destruct (prompts_snoc j j pubkey (log w)) as [EP EL].
    rewrite Nat.eqb_refl in EP.
    unfold flow_bounds. simpl. rewrite EL, EP, HP0.
    split; [lia|]. split; [lia|]. split.
    + intros q a Hq Ho. destruct (sole_await j _ _ _ _ _ Hnone Hq Ho) as [-> ->].
      split; [|split; [done|done]].
      intros p' a' Hp' Ho'. by destruct (sole_await j _ _ _ _ _ Hnone Hp' Ho').
    + intros h pk Ht. destruct Hnt. by exists h, pk.
  - destruct Hm as (p & pubkey & Hp & ->).
    destruct (Haw p _ Hp eq_refl) as (Hu & Hnt & HL1).
    unfold flow_bounds. simpl.
    split; [done|]. split; [done|]. split.
    + intros q a Hq Ho. apply lookup_delete_Some in Hq as [Hne Hq].
      by specialize (Hu _ _ Hq Ho).
    + assert (Hsole : forall h pk,
                <[nextHandle w := PaymentTimer j pubkey]> (timers w) !! h
                = Some (PaymentTimer j pk) -> h = nextHandle w).
      { intros h pk Ht. destruct (decide (nextHandle w = h)) as [<-|Hne]; [done|].
        rewrite lookup_insert_ne in Ht by done. destruct Hnt. by exists h, pk. }
      intros h pk Ht. split; [done|]. intros h' pk' Ht'.
      by rewrite (Hsole _ _ Ht), (Hsole _ _ Ht').
  - destruct Hm as (h & pubkey & Ht & ->).
    destruct (Htm h pubkey Ht) as [HL1 Hut].
    assert (Hnone : forall q b, awaits w !! q = Some b -> await_owner b <> j).
    { intros q b Hb Ho. destruct (Haw q b Hb Ho) as (_ & Hnt & _).
      apply Hnt. by exists h, pubkey. }
    assert (Hnt' : forall h' pk,
              delete h (timers w) !! h' = Some (PaymentTimer j pk) -> False).
    { intros h' pk Ht'. apply lookup_delete_Some in Ht' as [Hne Ht'].
      by specialize (Hut _ _ Ht'). }
    destruct (lookups_snoc j j pubkey (log w)) as [EL EP].
    rewrite Nat.eqb_refl in EL.
    unfold flow_bounds. simpl. rewrite EL, EP.
    split; [lia|]. split; [done|]. split.
    + intros q a Hq Ho. destruct (sole_await j _ _ _ _ _ Hnone Hq Ho) as [-> ->].
      split; [|split; [|done]].
      * intros p' a' Hp' Ho'. by destruct (sole_await j _ _ _ _ _ Hnone Hp' Ho').
      * intros (h' & pk & Ht'). by eapply Hnt'.
    + intros h' pk Ht'. by destruct (Hnt' _ _ Ht').
Qed.

Lemma flow_bounds_step i ev w w' :
  Inv w -> flow_bounds i w -> step env ev w = Some w' -> flow_bounds i w'.
Proof.
  intros HI HB Hstep.
  destruct (step_moves env ev w w' Hstep) as [Hev|(j & Hev & Hm)].
  - by eapply (flow_bounds_evolves None).
  - destruct (decide (j = i)) as [->|Hne].
    + by eapply flow_bounds_moved.
    + eapply (flow_bounds_evolves (Some j)); [done|congruence|done].
Qed.

Lemma flow_bounds_init i : flow_bounds i init.
Proof.
  unfold flow_bounds, balance_lookups, payment_prompts. simpl.
  split; [lia|]. split; [lia|]. split.
  - intros p a Hp. by rewrite lookup_empty in Hp.
  - intros h pk Ht. by rewrite lookup_empty in Ht.
Qed.

Lemma flow_bounds_run i evs w w' :
  Inv w -> flow_bounds i w -> run env evs w = Some w' -> flow_bounds i w'.
Proof.
  revert w. induction evs as [|ev evs IH]; intros w HI HB; simpl.
  - by intros [= <-].
  - destruct (step env ev w) as [w1|] eqn:Hs; [|done].
    apply IH; [|by eapply flow_bounds_step].
    eapply turn_Inv; [done|]. by eapply step_turn.
Qed.

End BoundsSteps.

(** X23.  Over the whole life of the process, the balance lookup is
    called at most twice on behalf of a connection (once after it
    authenticates, once when its payment timer expires) and the bot is
    asked for a payment prompt at most once. *)
Theorem collaborator_calls_are_bounded (env : Env) (w : World) (i : nat) :
  reachable env w ->
  (balance_lookups i (log w) <= 2)%nat /\ (payment_prompts i (log w) <= 1)%nat.
Proof.
  intros [evs Hr].
  destruct (flow_bounds_run env i evs init w Inv_init (flow_bounds_init i) Hr)
    as (HL & HP & _).
  done.
Qed.

Lemma collaborator_calls_are_bounded_witness :
  (balance_lookups 1 (log (Sample.after Sample.env Sample.expired)) <= 2)%nat /\
  (payment_prompts 1 (log (Sample.after Sample.env Sample.expired)) <= 1)%nat.
Proof.
  apply (collaborator_calls_are_bounded Sample.env
           (Sample.after Sample.env Sample.expired) 1).
  exists Sample.expired. vm_compute. reflexivity.
Defined.

Example collaborator_calls_sample :
  balance_lookups 1 (log (Sample.after Sample.env Sample.expired)) = 2%nat /\
  payment_prompts 1 (log (Sample.after Sample.env Sample.expired)) = 1%nat.
Proof. vm_compute. done. Qed.

(** ** Connections without a client socket *)

Section Sockets.

Context (env : Env).

Lemma admitted_has_socket i w : admitted i w -> has_socket i w.
Proof.
  intros (c & Hc & Ha). exists c. split; [done|].
  destruct (authenticated_socket c Ha) as [s Hs]. by rewrite Hs.
Qed.

Lemma has_socket_kept i w w' : sockets_kept w w' -> has_socket i w -> has_socket i w'.
Proof.
  intros K (c & Hc & [s Hs]). destruct (sk_heap _ _ K _ _ Hc) as (c' & Hc' & Hiff).
  exists c'. split; [done|]. destruct (getWs c') eqn:E; [done|].
  destruct Hiff as [Hn _]. rewrite Hn in Hs; done.
Qed.

Lemma sk_refl w : sockets_kept w w.
Proof. split; [by eauto|by left]. Qed.

Lemma sk_trans w w1 w2 : sockets_kept w w1 -> sockets_kept w1 w2 -> sockets_kept w w2.
Proof.
  intros A B. split.
  - intros i c Hc. destruct (sk_heap _ _ A _ _ Hc) as (c1 & Hc1 & H1).
    destruct (sk_heap _ _ B _ _ Hc1) as (c2 & Hc2 & H2).
    exists c2. split; [done|]. by rewrite H2.
  - intros h i Ht. destruct (sk_auth _ _ B _ _ Ht) as [Ht1|?]; [|by right].
    destruct (sk_auth _ _ A _ _ Ht1) as [?|Hs]; [by left|].
    right. by eapply has_socket_kept.
Qed.

(** A write to a connection object that leaves [getWs()] as it is, or
    replaces the socket. *)
Lemma sk_put j c c' w :
  heap w !! j = Some c -> (getWs c' = None <-> getWs c = None) ->
  sockets_kept w (put j c' w).
Proof.
  intros Hc Hiff. split; simpl; [|by left].
  intros i d Hd. destruct (decide (j = i)) as [<-|Hne].
  - rewrite lookup_insert_eq. simplify_eq. eauto.
  - rewrite lookup_insert_ne by done. eauto.
Qed.

(** A turn that leaves the connection objects alone and starts no
    authentication timer. *)
Lemma sk_frame w w' :
  heap w' = heap w ->
  (forall h i, timers w' !! h = Some (AuthTimer i) -> timers w !! h = Some (AuthTimer i)) ->
  sockets_kept w w'.
Proof.
  intros Hh Ht. split.
  - intros i c Hc. rewrite Hh. eauto.
  - intros h i H. left. by apply Ht.
Qed.

Lemma sk_delete_timer h w : sockets_kept w (set_timers (delete h (timers w)) w).
Proof.
  apply sk_frame; [done|]. simpl. intros h' i H.
  by apply lookup_delete_Some in H as [_ ?].
Qed.

Lemma sk_fund j w :
  (forall c, heap w !! j = Some c -> is_Some (getWs c)) -> sockets_kept w (fund j w).
Proof.
  intros Hs. unfold fund. destruct (heap w !! j) as [c|] eqn:Hc; [|apply sk_refl].
  eapply sk_put; [done|]. simpl. destruct (Hs c eq_refl) as [s ->]. done.
Qed.

Lemma sk_closeConnection i w w' :
  closeConnection env i w = Ret w' -> sockets_kept w w'.
Proof.
  destruct (heap w !! i) as [c|] eqn:Hc.
  2:{ rewrite closeConnection_closed; [intros [= <-]; apply sk_refl|].
      intros c' ?. by simplify_eq. }
  destruct (closed c) eqn:Hcl.
  { rewrite closeConnection_closed; [intros [= <-]; apply sk_refl|].
    intros c' ?. by simplify_eq. }
  rewrite (closeConnection_open env i c w Hc Hcl). intros [= <-].
  split; simpl.
  - intros j d Hd. destruct (decide (i = j)) as [<-|Hne].
    + rewrite lookup_insert_eq. simplify_eq. exists (torn_down env c).
      split; [done|]. apply torn_down_socket.
    + rewrite lookup_insert_ne by done. eauto.
  - intros h j H. left. by apply lookup_delete_Some in H as [_ ?].
Qed.

Lemma sk_settle_close i w : sockets_kept w (settle w (closeConnection env i w)).
Proof.
  destruct (closeConnection_returns env i w) as [w' Hw']. rewrite Hw'. simpl.
  by eapply sk_closeConnection.
Qed.

Lemma sk_notify w l : has_socket (l_conn l) w -> sockets_kept w (notify w l).
Proof.
  intros (c & Hc & Hs). unfold notify.
  eapply sk_trans; [apply sk_fund; rewrite Hc; by intros c' [= <-]|].
  eapply sk_trans; [apply (sk_delete_timer (l_timer l))|].
  apply sk_frame; [done|]. simpl. by intros.
Qed.

Lemma sk_foldl_notify ls w :
  (forall l, l ∈ ls -> has_socket (l_conn l) w) -> sockets_kept w (foldl notify w ls).
Proof.
  revert w. induction ls as [|l ls IH]; intros w Hs; simpl; [apply sk_refl|].
  assert (K : sockets_kept w (notify w l)) by apply sk_notify, Hs, list_elem_of_here.
  eapply sk_trans; [exact K|]. apply IH.
  intros l' Hl'. eapply has_socket_kept; [exact K|]. by apply Hs, list_elem_of_further.
Qed.

(** A drain tick leaves [getWs()] as it is. *)
Lemma drainMessageQueue_getWs (c : ClientObj) :
  getWs (drainMessageQueue env c).1.2 = getWs c.
Proof.
  assert (Hup : getWs (drain_upstream env c).1.2 = getWs c).
  { unfold drain_upstream. destruct (is_open (relay c)); [|done].
    destruct (up_completion _); done. }
  assert (Hdown : forall c1, getWs (drain_downstream c1).1 = getWs c1).
  { intros c1. unfold drain_downstream. destruct (is_open (readyState (ws c1))); [|done].
    by destruct (downstream_loop _ _ _). }
  unfold drainMessageQueue. destruct (getWs c) as [s|] eqn:Hs; [|done].
  rewrite <- Hs. destruct (authenticated (ws c)); simpl; [|done].
  destruct (drain_upstream env c) as [[k c1] tr1]. simpl in Hup.
  destruct k; simpl; [|congruence].
  specialize (Hdown c1). destruct (drain_downstream c1) as [c2 tr2].
  simpl in *. congruence.
Qed.

(** The message handler runs on a connection that has its socket. *)
Lemma sk_on_message i data w :
  (forall c, heap w !! i = Some c -> is_Some (getWs c)) ->
  sockets_kept w (settle w (on_message env i data w)).
Proof.
  intros Hsock. unfold on_message.
  destruct (heap w !! i) as [c|] eqn:Hc; [|apply sk_refl].
  destruct (Hsock c eq_refl) as [s Hs].
  assert (Henq : sockets_kept w (enqueue i c data w)) by by eapply sk_put.
  destruct (negb (authenticated (ws c)) && includes data (quoted "AUTH")); [|exact Henq].
  destruct (JSON_parse env data) as [msg|]; cbn [of_option bind settle];
    [|apply sk_refl].
  destruct (truthy (Some msg) && is_string (index msg 0) "AUTH"); [|exact Henq].
  assert (Hvalid : exists b,
    (if typeof_object (index msg 1)
     then validateAuthEvent env (index msg 1) (ws c) else Ret false) = Ret b).
  { destruct (typeof_object (index msg 1)); [|by eauto].
    rewrite validateAuthEvent_catch. eauto. }
  destruct Hvalid as [valid ->]. cbn [bind].
  destruct valid; cbn [negb]; [|apply sk_settle_close].
  destruct (prop (index msg 1) "pubkey") as [pubkey|]; cbn [of_option bind settle];
    [|apply sk_refl].
  destruct (is_string pubkey (bot_publicKey env)); cbn [settle].
  - eapply sk_put; [done|]. simpl. by rewrite Hs.
  - eapply (sk_trans w (put i (set_ws (set_authenticated true (ws c)) c) w)).
    + eapply sk_put; [done|]. simpl. by rewrite Hs.
    + by apply sk_frame.
Qed.

Lemma sk_resume p a o w :
  Inv w -> awaits w !! p = Some a ->
  let w1 := set_awaits (delete p (awaits w)) w in
  sockets_kept w (settle w1 (resume env a o w1)).
Proof.
  intros HI Hp w1.
  assert (K1 : sockets_kept w w1) by by apply sk_frame.
  assert (Hsock : forall c, heap w1 !! await_owner a = Some c -> is_Some (getWs c)).
  { intros c Hc.
    assert (Hadm : admitted (await_owner a) w).
    { apply (inv_admitted _ HI). right. right. left. by exists p, a. }
    destruct (admitted_has_socket _ _ Hadm) as (c' & Hc' & Hs). simpl in Hc.
    by simplify_eq. }
  destruct a as [i pubkey|i pubkey|i pubkey]; simpl in *.
  - destruct o as [balance|]; simpl; [|done].
    destruct (sufficient env balance); simpl.
    + eapply sk_trans; [done|by apply sk_fund].
    + eapply sk_trans; [done|by apply sk_frame].
  - destruct o as [balance|]; simpl.
    + eapply sk_trans; [done|]. apply sk_frame; [done|]. simpl. intros h j H.
      destruct (decide (nextHandle w = h)) as [<-|Hne].
      * by rewrite lookup_insert_eq in H.
      * by rewrite lookup_insert_ne in H.
    + eapply sk_trans; [done|apply sk_settle_close].
  - destruct o as [balance|]; simpl; [|done].
    destruct (sufficient env balance); simpl.
    + eapply sk_trans; [done|by apply sk_fund].
    + eapply sk_trans; [done|apply sk_settle_close].
Qed.

Lemma sk_fire h w w' : fire env h w = Some w' -> sockets_kept w w'.
Proof.
  unfold fire.
  destruct (timers w !! h) as [[i|i|i pubkey]|] eqn:Ht; [| | |done].
  - destruct (heap w !! i) as [c|] eqn:Hc; [|done].
    pose proof (drainMessageQueue_getWs c) as Hg.
    destruct (drainMessageQueue env c) as [[k c'] tr]. simpl in Hg.
    assert (K : sockets_kept w (emit tr (put i c' w))).
    { eapply sk_trans; [eapply (sk_put i c c'); [done|by rewrite Hg]|by apply sk_frame]. }
    destruct k; intros [= <-]; [done|].
    eapply sk_trans; [done|by apply sk_frame].
  - destruct (heap w !! i) as [c|] eqn:Hc; [|done].
    destruct (authenticated (ws c)); intros [= <-]; [apply sk_delete_timer|].
    eapply sk_trans; [apply sk_delete_timer|apply sk_settle_close].
  - destruct (heap w !! i) as [c|] eqn:Hc; [|done].
    destruct (funded (ws c)); intros [= <-]; [apply sk_delete_timer|].
    eapply (sk_trans _ (set_timers (delete h (timers w)) w));
      [apply sk_delete_timer|by apply sk_frame].
Qed.

Lemma sk_upgrade handshake w w' : upgrade handshake w = Some w' -> sockets_kept w w'.
Proof.
  destruct handshake as [challenge|].
  - intros (Hcl & Hfresh & ->)%upgrade_accepted. split; simpl.
    + intros i c Hc. assert (Hne : nextId w <> i) by (intros <-; congruence).
      rewrite lookup_insert_ne by done. eauto.
    + intros h i H.
      destruct (decide (S (nextHandle w) = h)) as [<-|Hne1].
      { rewrite lookup_insert_eq in H. simplify_eq. right.
        eexists. simpl. rewrite lookup_insert_eq. split; [done|]. by eexists. }
      rewrite lookup_insert_ne in H by done.
      destruct (decide (nextHandle w = h)) as [<-|Hne2].
      * by rewrite lookup_insert_eq in H.
      * rewrite lookup_insert_ne in H by done. by left.
  - intros (Hcl & Hfresh & ->)%upgrade_refused. split; simpl.
    + intros i c Hc. assert (Hne : nextId w <> i) by (intros <-; congruence).
      rewrite lookup_insert_ne by done. eauto.
    + intros h i H.
      destruct (decide (nextHandle w = h)) as [<-|Hne2].
      * by rewrite lookup_insert_eq in H.
      * rewrite lookup_insert_ne in H by done. by left.
Qed.

Lemma sk_step ev w w' : Inv w -> step env ev w = Some w' -> sockets_kept w w'.
Proof.
  intros HI. unfold step. destruct (crashed w); [done|].
  destruct ev as [challenge| |i|i data|i|i data|i|h|p o|pubKey].
  - apply sk_upgrade.
  - apply sk_upgrade.
  - destruct (heap w !! i) as [c|] eqn:Hc; [|done].
    destruct (relay c); try done. intros [= <-]. by eapply sk_put.
  - destruct (heap w !! i) as [c|] eqn:Hc; [|done]. intros [= <-]. by eapply sk_put.
  - destruct (heap w !! i) as [c|] eqn:Hc; [|done]. intros [= <-].
    eapply sk_trans; [|apply sk_settle_close]. by eapply sk_put.
  - destruct (heap w !! i) as [c|] eqn:Hc; [|done].
    destruct (getWs c) as [s|] eqn:Hs; [|done]. intros [= <-].
    apply sk_on_message. intros c' ?. simplify_eq. by rewrite Hs.
  - destruct (heap w !! i) as [c|] eqn:Hc; [|done].
    destruct (getWs c) as [s|] eqn:Hs; [|done]. intros [= <-].
    eapply sk_trans; [|apply sk_settle_close].
    eapply sk_put; [done|]. simpl. by rewrite Hs.
  - apply sk_fire.
  - destruct (awaits w !! p) as [a|] eqn:Hp; [|done]. intros [= <-].
    by apply sk_resume.
  - intros [= <-]. unfold paid.
    eapply sk_trans; [|apply sk_foldl_notify].
    + by apply sk_frame.
    + intros l Hl. apply list_elem_of_In, List.filter_In in Hl as [Hl _].
      apply list_elem_of_In in Hl. apply admitted_has_socket. simpl.
      destruct (inv_admitted _ HI (l_conn l)) as (c & Hc & Ha).
      { right. right. right. right. by exists l. }
      by exists c.
Qed.

Lemma sk_run evs w w' : Inv w -> run env evs w = Some w' -> sockets_kept w w'.
Proof.
  revert w. induction evs as [|ev evs IH]; intros w HI; simpl.
  - intros [= <-]. apply sk_refl.
  - destruct (step env ev w) as [w1|] eqn:Hstep; [|done]. intros Hrun.
    eapply sk_trans; [by eapply sk_step|].
    apply IH; [|done]. eapply turn_Inv; [done|]. by eapply step_turn.
Qed.

Lemma owned_kept w w' : sockets_kept w w' -> auth_timers_owned w -> auth_timers_owned w'.
Proof.
  intros K O h i Ht. destruct (sk_auth _ _ K _ _ Ht) as [Ht0|?]; [|done].
  eapply has_socket_kept; [done|]. by eapply O.
Qed.

Lemma reachable_owned w : reachable env w -> auth_timers_owned w.
Proof.
  intros [evs Hr]. eapply owned_kept; [eapply sk_run; [apply Inv_init|done]|].
  intros h i Ht. simpl in Ht. by rewrite lookup_empty in Ht.
Qed.

End Sockets.

(** X25.  The callbacks that hold the client socket exist only on a
    connection that has one: in every state the process reaches, every
    authentication timer, every payment timer, every suspended handler and
    every payment waiter belongs to a connection whose handshake was
    accepted. *)
Theorem callbacks_belong_to_connections_with_a_socket (env : Env) (w : World) :
  reachable env w ->
  (forall h i, timers w !! h = Some (AuthTimer i) -> has_socket i w) /\
  (forall h i pubkey, timers w !! h = Some (PaymentTimer i pubkey) -> has_socket i w) /\
  (forall p a, awaits w !! p = Some a -> has_socket (await_owner a) w) /\
  (forall l, l ∈ listeners w -> has_socket (l_conn l) w).
Proof.
  intros Hr. pose proof (reachable_Inv env w Hr) as HI.
  split; [exact (reachable_owned env w Hr)|].
  repeat split.
  - intros h i pk Ht. apply admitted_has_socket, (inv_admitted _ HI).
    right. right. right. left. by exists h, pk.
  - intros p a Ha. apply admitted_has_socket, (inv_admitted _ HI).
    right. right. left. by exists p, a.
  - intros l Hl. apply admitted_has_socket, (inv_admitted _ HI).
    right. right. right. right. by exists l.
Qed.

Lemma callbacks_belong_to_connections_with_a_socket_witness :
  let w := Sample.after Sample.env (Sample.two_waiting ++ Sample.refused) in
  (forall h i, timers w !! h = Some (AuthTimer i) -> has_socket i w) /\
  (forall h i pubkey, timers w !! h = Some (PaymentTimer i pubkey) -> has_socket i w) /\
  (forall p a, awaits w !! p = Some a -> has_socket (await_owner a) w) /\
  (forall l, l ∈ listeners w -> has_socket (l_conn l) w).
Proof.
  apply (callbacks_belong_to_connections_with_a_socket Sample.env
           (Sample.after Sample.env (Sample.two_waiting ++ Sample.refused))).
  exists (Sample.two_waiting ++ Sample.refused). vm_compute. reflexivity.
Defined.

(** X26.  A connection whose handshake was refused never gets a client
    socket, whatever happens afterwards; and whenever its drain interval
    ticks while the process lives, the tick raises out of the timer
    callback and the process ends. *)
Theorem refused_connection_never_gets_a_socket
    (env : Env) (evs : list Event) (w w' : World) (i : nat) (c : ClientObj) :
  reachable env w -> heap w !! i = Some c -> getWs c = None ->
  run env evs w = Some w' ->
  exists c',
    heap w' !! i = Some c' /\ getWs c' = None /\
    forall h, crashed w' = false -> timers w' !! h = Some (DrainTimer i) ->
      exists w2, step env (TimerFired h) w' = Some w2 /\ crashed w2 = true.
Proof.
  intros Hr Hc Hs Hrun.
  pose proof (sk_run env evs w w' (reachable_Inv env w Hr) Hrun) as K.
  destruct (sk_heap _ _ K _ _ Hc) as (c' & Hc' & Hiff).
  exists c'. split; [done|]. split; [by apply Hiff|].
  intros h Hlive Ht. eexists. split.
  - unfold step, fire. rewrite Hlive, Ht, Hc'.
    rewrite drainMessageQueue_no_socket by by apply Hiff. reflexivity.
  - done.
Qed.

Lemma refused_connection_never_gets_a_socket_witness :
  let w' := Sample.after Sample.env
              (Sample.refused
               ++ [RelayOpen 1; RelayMessage 1 Sample.note_frame; Upgrade "c0ffee"]) in
  exists c',
    heap w' !! 1%nat = Some c' /\ getWs c' = None /\
    forall h, crashed w' = false -> timers w' !! h = Some (DrainTimer 1) ->
      exists w2, step Sample.env (TimerFired h) w' = Some w2 /\ crashed w2 = true.
Proof.
  apply (refused_connection_never_gets_a_socket Sample.env
           [RelayOpen 1; RelayMessage 1 Sample.note_frame; Upgrade "c0ffee"]
           (Sample.after Sample.env Sample.refused) _ 1
           (mkClient 1 [] [] 0 false None CONNECTING)).
  - exists Sample.refused. vm_compute. reflexivity.
  - vm_compute. reflexivity.
  - reflexivity.
  - vm_compute. reflexivity.
Defined.
